(** * Spend policies of the [types] package: address derivation, the legacy
    Merkle accumulator and the textual codec.

    The Go code is embedded shallowly: a Go [string] is a list of bytes
    ([list ascii]), a [[]byte] or [[n]byte] is a [list byte], unsigned
    integers are [N] with the wrap-around of their width written out, and
    the closures of [ParseSpendPolicy], which share the variables [s] and
    [err], become a small state monad over the record [pstate]. *)

From Stdlib Require Import String.
From Stdlib Require Import List Ascii NArith ZArith Lia Bool Arith.
From Stdlib.Strings Require Import Byte.
Import ListNotations.

Local Open Scope N_scope.
#[local] Set Warnings "-register-all".

(** ** Bytes and text *)

Definition text := list ascii.

Definition lit (s : string) : text := list_ascii_of_string s.
Arguments lit s%_string.

Definition code (c : ascii) : N := N_of_ascii c.

Fixpoint text_eqb (a b : text) : bool :=
  match a, b with
  | [], [] => true
  | x :: a', y :: b' => Ascii.eqb x y && text_eqb a' b'
  | _, _ => false
  end.

Definition byte_of_N (n : N) : byte :=
  match Byte.of_N (n mod 256) with
  | Some b => b
  | None => x00
  end.

Definition zero_bytes (n : nat) : list byte := repeat x00 n.

(** [a[i] = v] on a slice or array. Every use below is at an index the
    code keeps in range, or is guarded by a bounds check of its own. *)
Fixpoint store {A : Type} (i : nat) (v : A) (a : list A) : list A :=
  match a, i with
  | [], _ => []
  | _ :: r, O => v :: r
  | x :: r, S i' => x :: store i' v r
  end.

(** [copy(a[off:], src)]: as many elements as fit are copied. *)
Definition copyAt {A : Type} (off : nat) (src a : list A) : list A :=
  firstn off a ++ firstn (length a - off) src ++ skipn (off + length src) a.

(** ** The standard-library functions the package calls *)

Module strings.

(** [asciiSpace]: tab, line feed, vertical tab, form feed, carriage
    return and space. *)
Definition asciiSpace (c : ascii) : bool :=
  ((9 <=? code c) && (code c <=? 13)) || (code c =? 32).

(** The two-byte UTF-8 encodings of [unicode.IsSpace] runes: U+0085 and
    U+00A0. *)
Definition space2 (c1 c2 : ascii) : bool :=
  (code c1 =? 194) && ((code c2 =? 133) || (code c2 =? 160)).

(** The three-byte encodings: U+1680, U+2000..U+200A, U+2028, U+2029,
    U+202F, U+205F and U+3000. *)
Definition space3 (c1 c2 c3 : ascii) : bool :=
  ((code c1 =? 225) && (code c2 =? 154) && (code c3 =? 128))
  || ((code c1 =? 226) && (code c2 =? 128)
      && (((128 <=? code c3) && (code c3 <=? 138))
          || (code c3 =? 168) || (code c3 =? 169) || (code c3 =? 175)))
  || ((code c1 =? 226) && (code c2 =? 129) && (code c3 =? 159))
  || ((code c1 =? 227) && (code c2 =? 128) && (code c3 =? 128)).

(** [TrimLeftFunc(s, unicode.IsSpace)]: runes are decoded from the left;
    an ASCII space, or the valid encoding of a wider space, is dropped. *)
Fixpoint trimLeft (s : text) : text :=
  match s with
  | [] => []
  | c1 :: t1 =>
      if asciiSpace c1 then trimLeft t1
      else
        match t1 with
        | [] => s
        | c2 :: t2 =>
            if space2 c1 c2 then trimLeft t2
            else
              match t2 with
              | [] => s
              | c3 :: t3 => if space3 c1 c2 c3 then trimLeft t3 else s
              end
        end
  end.

(** The same from the right, on the reversed text: [c1] is the last
    byte. *)
Fixpoint trimLeftRev (r : text) : text :=
  match r with
  | [] => []
  | c1 :: t1 =>
      if asciiSpace c1 then trimLeftRev t1
      else
        match t1 with
        | [] => r
        | c2 :: t2 =>
            if space2 c2 c1 then trimLeftRev t2
            else
              match t2 with
              | [] => r
              | c3 :: t3 => if space3 c3 c2 c1 then trimLeftRev t3 else r
              end
        end
  end.

Definition trimRight (s : text) : text := rev (trimLeftRev (rev s)).

(** [strings.TrimSpace]: leading, then trailing white space removed. *)
Definition TrimSpace (s : text) : text := trimRight (trimLeft s).

(** [strings.IndexAny(s, chars)] for ASCII [chars]: the index of the
    first byte of [s] that occurs in [chars]; [None] stands for -1. *)
Fixpoint IndexAny (s chars : text) : option nat :=
  match s with
  | [] => None
  | c :: r =>
      if existsb (Ascii.eqb c) chars then Some 0%nat
      else option_map S (IndexAny r chars)
  end.

End strings.

Module bytes.

Fixpoint trimLeftByte (b : list byte) (c : byte) : list byte :=
  match b with
  | [] => []
  | x :: r => if Byte.eqb x c then trimLeftByte r c else b
  end.

Definition trimRightByte (b : list byte) (c : byte) : list byte :=
  rev (trimLeftByte (rev b) c).

(** [bytes.Trim(b, cutset)] for a cutset of one ASCII byte: every
    leading and every trailing occurrence of it is removed. *)
Definition Trim (b : list byte) (c : byte) : list byte :=
  trimRightByte (trimLeftByte b c) c.

End bytes.

Module strconv.

Inductive NumError : Type :=
| ErrSyntax
| ErrRange.

Definition maxUint64 : N := 2 ^ 64 - 1.

(** The loop of [ParseUint] for base 10: [cutoff] is
    [maxUint64/10 + 1]; the multiplication and the addition wrap at 64
    bits, as they do on [uint64]. *)
Fixpoint parseLoop (cs : text) (n maxVal : N) : N * option NumError :=
  match cs with
  | [] => (n, None)
  | c :: cs' =>
      if (48 <=? code c) && (code c <=? 57) then
        let d := code c - 48 in
        if maxUint64 / 10 + 1 <=? n then (maxVal, Some ErrRange)
        else
          let n10 := (n * 10) mod 2 ^ 64 in
          let n1 := (n10 + d) mod 2 ^ 64 in
          if (n1 <? n10) || (maxVal <? n1) then (maxVal, Some ErrRange)
          else parseLoop cs' n1 maxVal
      else (0, Some ErrSyntax)
  end.

(** [strconv.ParseUint(s, 10, bitSize)] for [0 < bitSize <= 64]. With
    base 10 an underscore, a sign or a letter is a syntax error. *)
Definition ParseUint (s : text) (bitSize : N) : N * option NumError :=
  match s with
  | [] => (0, Some ErrSyntax)
  | _ => parseLoop s 0 (2 ^ bitSize - 1)
  end.

Definition digit (d : N) : ascii := ascii_of_N (48 + d).

Fixpoint formatBits (fuel : nat) (u : N) (acc : text) : text :=
  match fuel with
  | O => acc
  | S fuel' =>
      let acc' := digit (u mod 10) :: acc in
      if u / 10 =? 0 then acc' else formatBits fuel' (u / 10) acc'
  end.

(** [strconv.FormatUint(u, 10)] of a [uint64]: at most 20 digits. *)
Definition FormatUint (u : N) : text := formatBits 20 u [].

End strconv.

Module hex.

Inductive Error : Type :=
| InvalidByteError (c : ascii)
| ErrLength.

(** [hextable] is "0123456789abcdef". *)
Definition hexdigit (d : N) : ascii :=
  if d <? 10 then ascii_of_N (48 + d) else ascii_of_N (87 + d).

Definition EncodeToString (src : list byte) : text :=
  flat_map
    (fun v => [hexdigit (Byte.to_N v / 16); hexdigit (Byte.to_N v mod 16)])
    src.

Definition fromHexChar (c : ascii) : option N :=
  let k := code c in
  if (48 <=? k) && (k <=? 57) then Some (k - 48)
  else if (97 <=? k) && (k <=? 102) then Some (k - 97 + 10)
  else if (65 <=? k) && (k <=? 70) then Some (k - 65 + 10)
  else None.

(** [hex.Decode(dst, src)]: pairs are decoded and stored from the left;
    at the first invalid character the bytes stored so far stay in
    [dst]. *)
Fixpoint decodeFrom (i : nat) (dst : list byte) (src : text)
  : list byte * option Error :=
  match src with
  | [] => (dst, None)
  | p :: [] =>
      match fromHexChar p with
      | None => (dst, Some (InvalidByteError p))
      | Some _ => (dst, Some ErrLength)
      end
  | p :: q :: rest =>
      match fromHexChar p, fromHexChar q with
      | None, _ => (dst, Some (InvalidByteError p))
      | Some _, None => (dst, Some (InvalidByteError q))
      | Some a, Some b =>
          decodeFrom (S i) (store i (byte_of_N (a * 16 + b)) dst) rest
      end
  end.

Definition Decode (dst : list byte) (src : text) : list byte * option Error :=
  decodeFrom 0 dst src.

End hex.

Module bits.

(** [bits.TrailingZeros8]: 8 for 0. *)
Definition TrailingZeros8 (x : N) : nat :=
  match find (fun i => N.testbit x (N.of_nat i)) (seq 0 8) with
  | Some i => i
  | None => 8%nat
  end.

End bits.

(** ** The policy algebra *)

Definition PublicKey := list byte.
Definition Hash256 := list byte.
Definition Address := list byte.

Record PolicyTypeUnlockConditions : Type := {
  Timelock : N;
  PublicKeys : list PublicKey;
  SignaturesRequired : N
}.

(** [SpendPolicy] wraps an interface value. [NoPolicy] is the zero value
    [SpendPolicy{}], whose [Type] is nil; the other constructors are the
    four types that implement [isPolicy], built by [PolicyAbove],
    [PolicyPublicKey], [PolicyThreshold] and by the composite literal
    [SpendPolicy{PolicyTypeUnlockConditions{...}}]. A slice is a list, so a
    nil slice and an empty one are the same value. *)
Inductive SpendPolicy : Type :=
| NoPolicy
| PolicyAbove (height : N)
| PolicyPublicKey (pk : PublicKey)
| PolicyThreshold (n : N) (Of : list SpendPolicy)
| PolicyUnlockConditions (uc : PolicyTypeUnlockConditions).

Definition AnyoneCanSpend : SpendPolicy := PolicyThreshold 0 [].

(** The values the Go types admit: a [uint64] height or timelock, a
    [uint8] count, keys of 32 bytes, and a non-nil [Type] at every level. *)
Fixpoint wf_policy (p : SpendPolicy) : bool :=
  match p with
  | NoPolicy => false
  | PolicyAbove h => h <? 2 ^ 64
  | PolicyPublicKey pk => (length pk =? 32)%nat
  | PolicyThreshold n Of => (n <? 2 ^ 8) && forallb wf_policy Of
  | PolicyUnlockConditions uc =>
      (Timelock uc <? 2 ^ 64)
      && forallb (fun pk => (length pk =? 32)%nat) (PublicKeys uc)
      && (SignaturesRequired uc <? 2 ^ 8)
  end.

(** ** The legacy Merkle accumulator *)

(** The eight bytes [binary.LittleEndian.PutUint64] writes. *)
Definition le64 (u : N) : list byte :=
  map (fun k => byte_of_N (u / 256 ^ N.of_nat k)) (seq 0 8).

(** The 16 bytes of the string literal in [pubkeyLeaf]. *)
Definition ed25519_specifier : list byte :=
  map byte_of_ascii (lit "ed25519") ++ zero_bytes 9.

(** [numLeaves&(1<<i) != 0] on a [uint8]: the shifted constant is a
    [uint8] too, so it is 0 from [i = 8] on. *)
Definition bitSet (numLeaves : N) (i : nat) : bool :=
  negb (N.land numLeaves (N.shiftl 1 (N.of_nat i) mod 2 ^ 8) =? 0).

Section Merkle.

Variable HashBytes : list byte -> Hash256.

(** The variables the closures of [root] share. *)
Record accumulator : Type := {
  buf : list byte;
  trees : list Hash256;
  numLeaves : N
}.

Definition uint64Leaf (u : N) (b : list byte) : Hash256 * list byte :=
  let b := store 0 x00 b in
  let b := copyAt 1 (le64 u) b in
  (HashBytes (firstn 9 b), b).

Definition pubkeyLeaf (pk : PublicKey) (b : list byte) : Hash256 * list byte :=
  let b := store 0 x00 b in
  let b := copyAt 1 ed25519_specifier b in
  let b := copyAt 17 (le64 (N.of_nat (length pk))) b in
  let b := copyAt 25 pk b in
  (HashBytes (firstn 57 b), b).

Definition nodeHash (left right : Hash256) (b : list byte)
  : Hash256 * list byte :=
  let b := store 0 x01 b in
  let b := copyAt 1 left b in
  let b := copyAt 33 right b in
  (HashBytes (firstn 65 b), b).

(** The loop of [addLeaf], entered at slot [i] with [slots] the slots
    from [i] on. [None] is the run-time panic of an index out of
    range. *)
Fixpoint addLeafLoop (slots : list Hash256) (i : nat) (h : Hash256)
    (n : N) (b : list byte) : option (nat * Hash256 * list byte) :=
  if bitSet n i then
    match slots with
    | [] => None
    | t :: slots' =>
        let (h', b') := nodeHash t h b in
        addLeafLoop slots' (S i) h' n b'
    end
  else Some (i, h, b).

Definition addLeaf (h : Hash256) (a : accumulator) : option accumulator :=
  match addLeafLoop (trees a) 0 h (numLeaves a) (buf a) with
  | None => None
  | Some (i, h', b') =>
      if (i <? length (trees a))%nat then
        Some {| buf := b';
                trees := store i h' (trees a);
                numLeaves := (numLeaves a + 1) mod 2 ^ 8 |}
      else None
  end.

Definition treeRootStep (a : accumulator) (acc : option (Hash256 * list byte))
    (i : nat) : option (Hash256 * list byte) :=
  match acc with
  | None => None
  | Some (root, b) =>
      if bitSet (numLeaves a) i then
        match nth_error (trees a) i with
        | None => None
        | Some t => Some (nodeHash t root b)
        end
      else Some (root, b)
  end.

Definition treeRoot (a : accumulator) : option Hash256 :=
  let i := bits.TrailingZeros8 (numLeaves a) in
  match nth_error (trees a) i with
  | None => None
  | Some root =>
      option_map fst
        (fold_left (treeRootStep a)
           (seq (S i) (length (trees a) - S i)) (Some (root, buf a)))
  end.

Definition addUint64 (u : N) (a : accumulator) : option accumulator :=
  let (h, b) := uint64Leaf u (buf a) in
  addLeaf h {| buf := b; trees := trees a; numLeaves := numLeaves a |}.

Definition addPubkey (acc : option accumulator) (key : PublicKey)
  : option accumulator :=
  match acc with
  | None => None
  | Some a =>
      let (h, b) := pubkeyLeaf key (buf a) in
      addLeaf h {| buf := b; trees := trees a; numLeaves := numLeaves a |}
  end.

Definition newAccumulator : accumulator :=
  {| buf := zero_bytes 65;
     trees := repeat (zero_bytes 32) 8;
     numLeaves := 0 |}.

(** [PolicyTypeUnlockConditions.root]. *)
Definition root (uc : PolicyTypeUnlockConditions) : option Hash256 :=
  match fold_left addPubkey (PublicKeys uc)
          (addUint64 (Timelock uc) newAccumulator) with
  | None => None
  | Some a =>
      match addUint64 (SignaturesRequired uc) a with
      | None => None
      | Some a' => treeRoot a'
      end
  end.

End Merkle.

(** ** Address derivation *)

Section AddressDerivation.

Variable HashBytes : list byte -> Hash256.

(** The hasher of the package is not part of the sources at hand: its
    state and the four operations [Address] uses are parameters.
    [WriteString s] is [h.E.WriteString(s)] and [EncodeTo p] is
    [p.EncodeTo(h.E)]. *)
Variable Hasher : Type.
Variable Reset : Hasher -> Hasher.
Variable WriteString : text -> Hasher -> Hasher.
Variable EncodeTo : SpendPolicy -> Hasher -> Hasher.
Variable Sum : Hasher -> Hash256.

(** [SpendPolicy.Address]; [h] is the instance [hasherPool.Get]
    returns. [None] is a panic of [root]. *)
Definition SpendPolicy_Address (h : Hasher) (p : SpendPolicy)
  : option Address :=
  match p with
  | PolicyUnlockConditions uc => root HashBytes uc
  | _ =>
      let h := Reset h in
      let h := WriteString (lit "sia/address") h in
      let h := EncodeTo p h in
      Some (Sum h)
  end.

Definition StandardAddress (h : Hasher) (pk : PublicKey) : option Address :=
  SpendPolicy_Address h (PolicyPublicKey pk).

End AddressDerivation.

(** ** The textual codec *)

(** The loops of [String] write a comma before every element but the
    first. *)
Definition joinComma (parts : list text) : text :=
  match parts with
  | [] => []
  | x :: rest => x ++ flat_map (fun y => lit "," ++ y) rest
  end.

(** [SpendPolicy.String]. No case of the type switch matches a nil
    [Type], which leaves the builder empty. *)
Fixpoint SpendPolicy_String (p : SpendPolicy) : text :=
  match p with
  | NoPolicy => []
  | PolicyAbove h => lit "above(" ++ strconv.FormatUint h ++ lit ")"
  | PolicyPublicKey pk => lit "pk(" ++ hex.EncodeToString pk ++ lit ")"
  | PolicyThreshold n Of =>
      lit "thresh(" ++ strconv.FormatUint n ++ lit ",["
      ++ joinComma (map SpendPolicy_String Of) ++ lit "])"
  | PolicyUnlockConditions uc =>
      lit "uc(" ++ strconv.FormatUint (Timelock uc) ++ lit ",["
      ++ joinComma (map hex.EncodeToString (PublicKeys uc)) ++ lit "],"
      ++ strconv.FormatUint (SignaturesRequired uc) ++ lit ")"
  end.

(** The errors [ParseSpendPolicy] can return. *)
Inductive error : Type :=
| ErrUnexpectedEOF
| ErrExpected (want got : ascii)
| ErrNum (t : text) (e : strconv.NumError)
| ErrPubkeyLength (n : nat)
| ErrHex (e : hex.Error)
| ErrUnrecognized (typ : text)
| ErrTrailing (rest : text).

(** The two variables the closures of [ParseSpendPolicy] capture. *)
Record pstate : Type := {
  s : text;
  err : option error
}.

Definition M (A : Type) : Type := pstate -> A * pstate.

Definition ret {A : Type} (a : A) : M A := fun st => (a, st).

Definition bind {A B : Type} (m : M A) (k : A -> M B) : M B :=
  fun st => let (a, st') := m st in k a st'.

Notation "x <- m ;; k" := (bind m (fun x => k))
  (at level 61, m at next level, right associativity).

Definition delimiters : text := lit "(),[]".

(** The input is trimmed before the sticky error is looked at. *)
Definition nextToken : M text := fun st =>
  let s1 := strings.TrimSpace (s st) in
  match err st, strings.IndexAny s1 delimiters with
  | None, Some i => (firstn i s1, {| s := skipn i s1; err := None |})
  | _, _ => ([], {| s := s1; err := err st |})
  end.

Definition consume (b : ascii) : M unit := fun st =>
  match err st with
  | Some _ => (tt, st)
  | None =>
      match strings.TrimSpace (s st) with
      | [] => (tt, {| s := []; err := Some ErrUnexpectedEOF |})
      | c :: r =>
          if Ascii.eqb c b then (tt, {| s := r; err := None |})
          else (tt, {| s := c :: r; err := Some (ErrExpected b c) |})
      end
  end.

Definition peek : M ascii := fun st =>
  match err st, s st with
  | None, c :: _ => (c, st)
  | _, _ => (zero, st)
  end.

Definition parseInt (bitSize : N) : M N :=
  t <- nextToken ;;
  fun st =>
    match err st with
    | Some _ => (0, st)
    | None =>
        let (u, e) := strconv.ParseUint t bitSize in
        (u, {| s := s st; err := option_map (ErrNum t) e |})
    end.

Definition parsePubkey : M PublicKey :=
  t <- nextToken ;;
  fun st =>
    match err st with
    | Some _ => (zero_bytes 32, st)
    | None =>
        if negb (length t =? 64)%nat then
          (zero_bytes 32,
           {| s := s st; err := Some (ErrPubkeyLength (length t)) |})
        else
          let (pk, e) := hex.Decode (zero_bytes 32) t in
          (pk, {| s := s st; err := option_map ErrHex e |})
    end.

(** The two [for err == nil && peek() != ']'] loops. [item] parses one
    element; [None] means that [fuel] ran out. *)
Fixpoint listLoop {A : Type} (item : pstate -> option (A * pstate))
    (fuel : nat) (acc : list A) (st : pstate) : option (list A * pstate) :=
  match fuel with
  | O => None
  | S fuel' =>
      match err st with
      | Some _ => Some (acc, st)
      | None =>
          if Ascii.eqb (fst (peek st)) "]" then Some (acc, st)
          else
            match item st with
            | None => None
            | Some (x, st1) =>
                let st2 :=
                  if Ascii.eqb (fst (peek st1)) "]" then st1
                  else snd (consume "," st1) in
                listLoop item fuel' (acc ++ [x]) st2
            end
      end
  end.

(** The recursive closure [parseSpendPolicy]. The deferred [consume(')')]
    runs after the value to return has been computed. [None] means that
    [fuel] ran out; [ParseSpendPolicy_total] shows that it does not with
    the fuel [ParseSpendPolicy] gives. *)
Fixpoint parseSpendPolicy (fuel : nat) (st : pstate)
  : option (SpendPolicy * pstate) :=
  match fuel with
  | O => None
  | S fuel' =>
      let (typ, st) := nextToken st in
      let st := snd (consume "(" st) in
      let deferred (r : SpendPolicy * pstate) :=
        Some (fst r, snd (consume ")" (snd r))) in
      if text_eqb typ (lit "above") then
        let (h, st) := parseInt 64 st in
        deferred (PolicyAbove h, st)
      else if text_eqb typ (lit "pk") then
        let (pk, st) := parsePubkey st in
        deferred (PolicyPublicKey pk, st)
      else if text_eqb typ (lit "thresh") then
        let (n, st) := parseInt 8 st in
        let st := snd (consume "," st) in
        let st := snd (consume "[" st) in
        match listLoop (parseSpendPolicy fuel') (S fuel') [] st with
        | None => None
        | Some (of_, st) =>
            let st := snd (consume "]" st) in
            deferred (PolicyThreshold (n mod 2 ^ 8) of_, st)
        end
      else if text_eqb typ (lit "uc") then
        let (timelock, st) := parseInt 64 st in
        let st := snd (consume "," st) in
        let st := snd (consume "[" st) in
        match listLoop (fun st => Some (parsePubkey st)) (S fuel') [] st with
        | None => None
        | Some (pks, st) =>
            let st := snd (consume "]" st) in
            let st := snd (consume "," st) in
            let (sigsRequired, st) := parseInt 8 st in
            deferred
              (PolicyUnlockConditions
                 {| Timelock := timelock;
                    PublicKeys := pks;
                    SignaturesRequired := sigsRequired mod 2 ^ 8 |}, st)
        end
      else
        let st :=
          match err st with
          | None => {| s := s st; err := Some (ErrUnrecognized typ) |}
          | Some _ => st
          end in
        deferred (NoPolicy, st)
  end.

(** [ParseSpendPolicy]: the policy and the error, as Go returns both. *)
Definition ParseSpendPolicy (input : text)
  : option (SpendPolicy * option error) :=
  match parseSpendPolicy (length input + 2)
          {| s := input; err := None |} with
  | None => None
  | Some (p, st) =>
      match err st, s st with
      | None, _ :: _ => Some (p, Some (ErrTrailing (s st)))
      | e, _ => Some (p, e)
      end
  end.

(** ** The text and JSON adapters *)

Definition string_of_bytes (b : list byte) : text := map ascii_of_byte b.
Definition bytes_of_string (t : text) : list byte := map byte_of_ascii t.

Definition MarshalText (p : SpendPolicy) : list byte :=
  bytes_of_string (SpendPolicy_String p).

Definition UnmarshalText (b : list byte) : option (SpendPolicy * option error) :=
  ParseSpendPolicy (string_of_bytes b).

(** The quotation mark, byte 0x22. *)
Definition quote : byte := x22.

Definition MarshalJSON (p : SpendPolicy) : list byte :=
  quote :: bytes_of_string (SpendPolicy_String p) ++ [quote].

Definition UnmarshalJSON (b : list byte) : option (SpendPolicy * option error) :=
  UnmarshalText (bytes.Trim b quote).

(** ** The grammar of the textual form, following the specification *)

(** A policy text as the grammar builds it: the forms [above(..)],
    [pk(..)], [thresh(..,[..])] and [uc(..,[..],..)] around their
    tokens. *)
Inductive ptext : Type :=
| TAbove (height : text)
| TPublicKey (key : text)
| TThreshold (n : text) (Of : list ptext)
| TUnlockConditions (timelock : text) (keys : list text) (sigsRequired : text).

Fixpoint render (w : ptext) : text :=
  match w with
  | TAbove h => lit "above(" ++ h ++ lit ")"
  | TPublicKey k => lit "pk(" ++ k ++ lit ")"
  | TThreshold n Of =>
      lit "thresh(" ++ n ++ lit ",[" ++ joinComma (map render Of) ++ lit "])"
  | TUnlockConditions t keys n =>
      lit "uc(" ++ t ++ lit ",[" ++ joinComma keys ++ lit "]," ++ n ++ lit ")"
  end.

Definition is_digit (c : ascii) : bool := (48 <=? code c) && (code c <=? 57).

Definition decimal_value_from (n : N) (t : text) : N :=
  fold_left (fun a c => a * 10 + (code c - 48)) t n.

Definition decimal_value (t : text) : N := decimal_value_from 0 t.

(** A numeric token: an unsigned decimal integer below the ceiling of its
    field. *)
Definition numeral (bits : N) (t : text) : bool :=
  match t with
  | [] => false
  | _ => forallb is_digit t && (decimal_value t <? 2 ^ bits)
  end.

(** A numeral as the writer prints it: no leading zero. *)
Definition canonical_numeral (bits : N) (t : text) : bool :=
  numeral bits t
  && match t with
     | c :: _ :: _ => negb (code c =? 48)
     | _ => true
     end.

Definition is_hex (c : ascii) : bool :=
  match hex.fromHexChar c with
  | Some _ => true
  | None => false
  end.

(** A public-key token: 64 hex characters, of either case. *)
Definition hex_key (k : text) : bool :=
  (length k =? 64)%nat && forallb is_hex k.

Definition hex_value (c : ascii) : N :=
  match hex.fromHexChar c with
  | Some a => a
  | None => 0
  end.

Fixpoint unhex (k : text) : list byte :=
  match k with
  | p :: q :: rest => byte_of_N (hex_value p * 16 + hex_value q) :: unhex rest
  | _ => []
  end.

Section Grammar.

Variable num : N -> text -> bool.

Fixpoint text_ok (w : ptext) : bool :=
  match w with
  | TAbove h => num 64 h
  | TPublicKey k => hex_key k
  | TThreshold n Of => num 8 n && forallb text_ok Of
  | TUnlockConditions t keys n =>
      num 64 t && forallb hex_key keys && num 8 n
  end.

End Grammar.

(** The texts of the grammar, and those among them whose numerals carry no
    leading zero. *)
Definition grammar_text : ptext -> bool := text_ok numeral.
Definition canonical_text : ptext -> bool := text_ok canonical_numeral.

(** The policy a text denotes. *)
Fixpoint policy_of (w : ptext) : SpendPolicy :=
  match w with
  | TAbove h => PolicyAbove (decimal_value h)
  | TPublicKey k => PolicyPublicKey (unhex k)
  | TThreshold n Of => PolicyThreshold (decimal_value n) (map policy_of Of)
  | TUnlockConditions t keys n =>
      PolicyUnlockConditions
        {| Timelock := decimal_value t;
           PublicKeys := map unhex keys;
           SignaturesRequired := decimal_value n |}
  end.

(** The text the writer prints for a policy, token by token. *)
Fixpoint text_of (p : SpendPolicy) : ptext :=
  match p with
  | NoPolicy => TAbove []
  | PolicyAbove h => TAbove (strconv.FormatUint h)
  | PolicyPublicKey pk => TPublicKey (hex.EncodeToString pk)
  | PolicyThreshold n Of =>
      TThreshold (strconv.FormatUint n) (map text_of Of)
  | PolicyUnlockConditions uc =>
      TUnlockConditions (strconv.FormatUint (Timelock uc))
        (map hex.EncodeToString (PublicKeys uc))
        (strconv.FormatUint (SignaturesRequired uc))
  end.

(** The normalisation of hex digits: [A]..[F] become [a]..[f]. *)
Definition lower_hex (c : ascii) : ascii :=
  if (65 <=? code c) && (code c <=? 70) then ascii_of_N (code c + 32) else c.

(** ** The Merkle construction, following section 4.3 of the specification *)

Definition spec_uint64_leaf (u : N) : list byte := x00 :: le64 u.

(** Following the specification: "ed25519" padded with NUL to 16 bytes,
    byte by byte. *)
Definition spec_specifier : list byte :=
  [x65; x64; x32; x35; x35; x31; x39;
   x00; x00; x00; x00; x00; x00; x00; x00; x00].

Definition spec_pubkey_leaf (pk : PublicKey) : list byte :=
  x00 :: spec_specifier ++ le64 32 ++ pk.

Definition spec_node (l r : Hash256) : list byte := x01 :: l ++ r.

(** The leaves in the order they are appended. *)
Definition spec_leaves (uc : PolicyTypeUnlockConditions) : list (list byte) :=
  spec_uint64_leaf (Timelock uc)
  :: map spec_pubkey_leaf (PublicKeys uc)
  ++ [spec_uint64_leaf (SignaturesRequired uc)].

Section MerkleSpec.

Variable HashBytes : list byte -> Hash256.

(** Eight subtree digests and the leaf counter; no buffer. *)
Record forest : Type := {
  subtrees : list Hash256;
  counter : N
}.

Fixpoint spec_combine (slots : list Hash256) (i : nat) (h : Hash256) (n : N)
  : option (nat * Hash256) :=
  if bitSet n i then
    match slots with
    | [] => None
    | t :: slots' => spec_combine slots' (S i) (HashBytes (spec_node t h)) n
    end
  else Some (i, h).

Definition spec_add (acc : option forest) (h : Hash256) : option forest :=
  match acc with
  | None => None
  | Some f =>
      match spec_combine (subtrees f) 0 h (counter f) with
      | None => None
      | Some (i, h') =>
          if (i <? length (subtrees f))%nat then
            Some {| subtrees := store i h' (subtrees f);
                    counter := (counter f + 1) mod 2 ^ 8 |}
          else None
      end
  end.

Definition spec_finalize_step (f : forest) (acc : option Hash256) (i : nat)
  : option Hash256 :=
  match acc with
  | None => None
  | Some r =>
      if bitSet (counter f) i then
        match nth_error (subtrees f) i with
        | None => None
        | Some t => Some (HashBytes (spec_node t r))
        end
      else Some r
  end.

Definition spec_finalize (f : forest) : option Hash256 :=
  let i := bits.TrailingZeros8 (counter f) in
  match nth_error (subtrees f) i with
  | None => None
  | Some r =>
      fold_left (spec_finalize_step f)
        (seq (S i) (length (subtrees f) - S i)) (Some r)
  end.

Definition spec_root (leafData : list (list byte)) : option Hash256 :=
  match fold_left spec_add (map HashBytes leafData)
          (Some {| subtrees := repeat (zero_bytes 32) 8; counter := 0 |}) with
  | None => None
  | Some f => spec_finalize f
  end.

End MerkleSpec.

(** ** Predicates and sample values the statements use *)

(** An ASCII byte that is not white space. *)
Definition plain (c : ascii) : bool :=
  (code c <? 128) && negb (strings.asciiSpace c).

Definition is_delim (c : ascii) : bool := existsb (Ascii.eqb c) delimiters.

(** A byte that can stand inside a token. *)
Definition tokchar (c : ascii) : bool := plain c && negb (is_delim c).

(** What follows an element of a list: the other elements, each after a
    comma, an optional trailing comma, and the closing bracket. *)
Definition list_rest {T : Type} (enc : T -> text) (xs : list T)
    (trailing : bool) (z : text) : text :=
  flat_map (fun x => ","%char :: enc x) xs
  ++ (if trailing then [","%char] else []) ++ "]"%char :: z.

Definition sample_policy : SpendPolicy :=
  PolicyThreshold 2
    [PolicyAbove 100;
     PolicyPublicKey (repeat xab 32);
     AnyoneCanSpend;
     PolicyThreshold 1 [PolicyAbove 18446744073709551615];
     PolicyUnlockConditions
       {| Timelock := 7;
          PublicKeys := [repeat x01 32; repeat xff 32];
          SignaturesRequired := 255 |}].

Definition sample_text : ptext :=
  TThreshold (lit "1")
    [TAbove (lit "100");
     TPublicKey
       (lit "00112233445566778899AABBCCDDEEFFaabbccddeeff00112233445566778899");
     TUnlockConditions (lit "0")
       [lit "ABCDEFabcdef0123456789ABCDEFabcdef0123456789ABCDEFabcdef01234567"]
       (lit "1")].

(** The slot at which the loop of [addLeaf] stops, with [k] slots left
    from slot [i] on. *)
Fixpoint firstClear (k i : nat) (n : N) : nat :=
  match k with
  | O => i
  | S k' => if bitSet n i then firstClear k' (S i) n else i
  end.

Definition uc_254_keys : PolicyTypeUnlockConditions :=
  {| Timelock := 0;
     PublicKeys := repeat (zero_bytes 32) 254;
     SignaturesRequired := 1 |}.

Definition len32 (h : list byte) : Prop := length h = 32%nat.

(** The accumulator of the code and the forest of the specification hold
    the same digests and the same count. *)
Definition sim (a : accumulator) (f : forest) : Prop :=
  trees a = subtrees f /\ numLeaves a = counter f
  /\ length (buf a) = 65%nat /\ Forall len32 (trees a).

Definition sim_opt (oa : option accumulator) (of_ : option forest) : Prop :=
  match oa, of_ with
  | Some a, Some f => sim a f
  | None, None => True
  | _, _ => False
  end.

(** The value of bytes read in little-endian order. *)
Definition le_value (bs : list byte) : N :=
  fold_right (fun b acc => Byte.to_N b + 256 * acc) 0 bs.

(** A hash function for the witnesses: the first 32 bytes of the zero-padded
    input. *)
Definition sample_hash (b : list byte) : Hash256 :=
  firstn 32 (b ++ zero_bytes 32).

(** Another hash function for a witness: it depends on every byte of its
    input and on their order. *)
Definition mix_hash (b : list byte) : Hash256 :=
  let a :=
    fold_left (fun a x => (a * 257 + Byte.to_N x + 1) mod 2 ^ 256) b 0 in
  map (fun k => byte_of_N (a / 256 ^ N.of_nat k)) (seq 0 32).

Definition sample_uc : PolicyTypeUnlockConditions :=
  {| Timelock := 7;
     PublicKeys := [repeat x01 32; repeat xff 32; repeat xab 32];
     SignaturesRequired := 2 |}.

(** Following the specification: one leading and one trailing quotation
    mark are removed, each when present. *)
Definition spec_strip_one_layer (b : list byte) : list byte :=
  let b1 :=
    match b with
    | x :: r => if Byte.eqb x quote then r else b
    | [] => []
    end in
  match rev b1 with
  | x :: r => if Byte.eqb x quote then rev r else b1
  | [] => []
  end.

(** The input two layers of quotation marks around [above(5)]. *)
Definition doubly_quoted : list byte :=
  quote :: quote :: bytes_of_string (lit "above(5)") ++ [quote; quote].

(** A step never lengthens the input and never clears the error. *)
Definition step_le (st st' : pstate) : Prop :=
  (length (s st') <= length (s st))%nat /\ (err st' = None -> err st = None).

Definition fuel_ok (fuel : nat) (st : pstate) : Prop :=
  match err st with
  | Some _ => (1 <= fuel)%nat
  | None => (length (s st) + 2 <= fuel)%nat
  end.

(** ** Texts with tokens the parser rejects *)

(** A numeric token of any size: digits, at least one. *)
Definition digits_token (t : text) : bool :=
  match t with
  | [] => false
  | _ :: _ => forallb is_digit t
  end.

(** A key token that is a key of the grammar or has another length than
    64. *)
Definition key_token (k : text) : bool :=
  match k with
  | [] => false
  | _ :: _ => forallb tokchar k && (hex_key k || negb (length k =? 64)%nat)
  end.

(** The texts with the shape of the grammar whose numerals may exceed the
    ceiling of their field and whose keys may have a wrong length, at any
    depth and at any position of a list. *)
Fixpoint shape_ok (w : ptext) : bool :=
  match w with
  | TAbove h => digits_token h
  | TPublicKey k => key_token k
  | TThreshold n Of => digits_token n && forallb shape_ok Of
  | TUnlockConditions t keys n =>
      digits_token t && forallb key_token keys && digits_token n
  end.

(** The error of a numeral in a field of [bits] bits, and of a key
    token. *)
Definition num_error (bits : N) (t : text) : option error :=
  if decimal_value t <? 2 ^ bits then None
  else Some (ErrNum t strconv.ErrRange).

Definition key_error (k : text) : option error :=
  if (length k =? 64)%nat then None
  else Some (ErrPubkeyLength (length k)).

Fixpoint first_of (l : list (option error)) : option error :=
  match l with
  | [] => None
  | Some e :: _ => Some e
  | None :: r => first_of r
  end.

(** The error of the first token, in reading order, that is a numeral
    above its ceiling or a key of a wrong length. *)
Fixpoint first_error (w : ptext) : option error :=
  match w with
  | TAbove h => num_error 64 h
  | TPublicKey k => key_error k
  | TThreshold n Of => first_of (num_error 8 n :: map first_error Of)
  | TUnlockConditions t keys n =>
      first_of (num_error 64 t :: map key_error keys ++ [num_error 8 n])
  end.

(** Some numeral of the text exceeds the ceiling of its field. *)
Fixpoint over_ceiling (w : ptext) : bool :=
  match w with
  | TAbove h => negb (decimal_value h <? 2 ^ 64)
  | TPublicKey _ => false
  | TThreshold n Of =>
      negb (decimal_value n <? 2 ^ 8) || existsb over_ceiling Of
  | TUnlockConditions t _ n =>
      negb (decimal_value t <? 2 ^ 64) || negb (decimal_value n <? 2 ^ 8)
  end.

(** Some key token of the text has another length than 64. *)
Fixpoint wrong_length (w : ptext) : bool :=
  match w with
  | TAbove _ => false
  | TPublicKey k => negb (length k =? 64)%nat
  | TThreshold _ Of => existsb wrong_length Of
  | TUnlockConditions _ keys _ =>
      existsb (fun k => negb (length k =? 64)%nat) keys
  end.

(** ** Definitions for the further properties *)

(** Whether the text starts with a white-space rune, as [trimLeft]
    decodes it. *)
Definition headSpace (t : text) : bool :=
  match t with
  | [] => false
  | c1 :: t1 =>
      strings.asciiSpace c1
      || match t1 with
         | [] => false
         | c2 :: t2 =>
             strings.space2 c1 c2
             || match t2 with
                | [] => false
                | c3 :: _ => strings.space3 c1 c2 c3
                end
         end
  end.

(** A token as [nextToken] cuts it: it holds no delimiter, and its first
    byte is not white space (white space inside or at the end stays in
    the token). *)
Definition token (t : text) : bool :=
  match t with
  | [] => true
  | c :: _ => plain c
  end && forallb (fun c => negb (is_delim c)) t.

Definition keyword (typ : text) : bool :=
  existsb (text_eqb typ) [lit "above"; lit "pk"; lit "thresh"; lit "uc"].

(** The policy the parser returns for the type [typ] once the sticky error
    is set: every field has its zero value. *)
Definition zero_policy (typ : text) : SpendPolicy :=
  if text_eqb typ (lit "above") then PolicyAbove 0
  else if text_eqb typ (lit "pk") then PolicyPublicKey (zero_bytes 32)
  else if text_eqb typ (lit "thresh") then PolicyThreshold 0 []
  else if text_eqb typ (lit "uc") then
    PolicyUnlockConditions
      {| Timelock := 0; PublicKeys := []; SignaturesRequired := 0 |}
  else NoPolicy.

(** The digits a numeric token starts with. *)
Fixpoint digits_prefix (t : text) : text :=
  match t with
  | c :: r => if is_digit c then c :: digits_prefix r else []
  | [] => []
  end.

(** The leaf digests under the slots below [k], oldest first: slot [i]
    covers [chunk i] when bit [i] of the counter is set. *)
Fixpoint content (bits : nat -> bool) (chunk : nat -> list Hash256)
    (k : nat) : list Hash256 :=
  match k with
  | O => []
  | S i => (if bits i then chunk i else []) ++ content bits chunk i
  end.

Section TreeHash.

Variable HashBytes : list byte -> Hash256.

(** The Merkle tree hash of at most [2 ^ k] leaf digests: one digest is
    its own hash, and a longer list is split at the largest power of two
    below its length, the hash of the left part and the hash of the right
    part being joined by the node encoding. *)
Fixpoint treeHash (k : nat) (l : list Hash256) : Hash256 :=
  match k with
  | O => hd [] l
  | S k' =>
      if (length l <=? 2 ^ k')%nat then treeHash k' l
      else
        HashBytes
          (spec_node (treeHash k' (firstn (2 ^ k') l))
                     (treeHash k' (skipn (2 ^ k') l)))
  end.


(** The state of the accumulator after the leaf digests [hs]. *)
Definition holds (f : forest) (hs : list Hash256) : Prop :=
  length (subtrees f) = 8%nat
  /\ counter f = N.of_nat (length hs)
  /\ exists chunk,
       (forall i, (i < 8)%nat -> bitSet (counter f) i = true ->
          length (chunk i) = (2 ^ i)%nat
          /\ nth_error (subtrees f) i
             = Some (treeHash i (chunk i)))
       /\ content (bitSet (counter f)) chunk 8 = hs.

End TreeHash.

(** The text of [w] with the white space [ws] before every token and
    before the bracket that opens a list. *)
Fixpoint render_padded (ws : text) (w : ptext) : text :=
  match w with
  | TAbove h => ws ++ lit "above(" ++ ws ++ h ++ lit ")"
  | TPublicKey k => ws ++ lit "pk(" ++ ws ++ k ++ lit ")"
  | TThreshold n Of =>
      ws ++ lit "thresh(" ++ ws ++ n ++ lit "," ++ ws ++ lit "["
      ++ joinComma (map (render_padded ws) Of) ++ lit "])"
  | TUnlockConditions t keys n =>
      ws ++ lit "uc(" ++ ws ++ t ++ lit "," ++ ws ++ lit "["
      ++ joinComma (map (fun k => ws ++ k) keys)
      ++ lit "]," ++ ws ++ n ++ lit ")"
  end.

(** The bytes [String] writes: decimal digits, lower-case hex digits, the
    letters of the four keywords and the five delimiters. *)
Definition policy_char (c : ascii) : bool :=
  existsb (Ascii.eqb c) (lit "0123456789abcdefhkoprstuv(),[]").

(** * The configuration of the [smux] package

    [time.Duration] is a signed number of nanoseconds and [int] a signed
    machine integer; the code only compares them, so both are [Z]. A
    [*Config] that may be [nil] is an [option Config]; an [error] is its
    message. *)
Module smux.

Record Config : Type := {
  KeepAliveInterval : Z;
  KeepAliveTimeout : Z;
  MaxFrameSize : Z;
  MaxReceiveBuffer : Z;
  ReadTimeout : Z;
  WriteTimeout : Z
}.

(** [time.Second]. *)
Definition Second : Z := 1000000000%Z.

Definition DefaultConfig : Config :=
  {| KeepAliveInterval := (10 * Second)%Z;
     KeepAliveTimeout := (120 * Second)%Z;
     MaxFrameSize := 4096%Z;
     MaxReceiveBuffer := 4194304%Z;
     ReadTimeout := (120 * Second)%Z;
     WriteTimeout := (120 * Second)%Z |}.

Definition VerifyConfig (config : Config) : option string :=
  if (KeepAliveInterval config =? 0)%Z then
    Some "keep-alive interval must be positive"%string
  else if (KeepAliveTimeout config <? KeepAliveInterval config)%Z then
    Some "keep-alive timeout must be larger than keep-alive interval"%string
  else if (MaxFrameSize config <=? 0)%Z then
    Some "max frame size must be positive"%string
  else if (65535 <? MaxFrameSize config)%Z then
    Some "max frame size must not be larger than 65535"%string
  else if (MaxReceiveBuffer config <=? 0)%Z then
    Some "max receive buffer must be positive"%string
  else None.

Section Sessions.

(** [net.Conn], [Session] and [newSession] are not part of the sources at
    hand. *)
Variable Conn : Type.
Variable Session : Type.
Variable newSession : Config -> Conn -> bool -> Session.

Definition Server (conn : Conn) (config : option Config)
  : option Session * option string :=
  let config :=
    match config with
    | None => DefaultConfig
    | Some c => c
    end in
  match VerifyConfig config with
  | Some e => (None, Some e)
  | None => (Some (newSession config conn false), None)
  end.

Definition Client (conn : Conn) (config : option Config)
  : option Session * option string :=
  let config :=
    match config with
    | None => DefaultConfig
    | Some c => c
    end in
  match VerifyConfig config with
  | Some e => (None, Some e)
  | None => (Some (newSession config conn true), None)
  end.

End Sessions.

End smux.

(** * Properties *)

(** ** Characters *)

Ltac by_ascii c :=
  destruct c as [[|] [|] [|] [|] [|] [|] [|] [|]];
  try reflexivity; try discriminate.

Ltac bool_arith :=
  repeat match goal with
    | H : _ && _ = true |- _ => apply andb_true_iff in H; destruct H
    | H : negb _ = true |- _ => apply negb_true_iff in H
    | H : (_ <? _) = true |- _ => apply N.ltb_lt in H
    | H : (_ <=? _) = true |- _ => apply N.leb_le in H
    | H : (_ =? _) = true |- _ => apply N.eqb_eq in H
    | H : (_ <? _) = false |- _ => apply N.ltb_ge in H
    | H : (_ <=? _) = false |- _ => apply N.leb_gt in H
    | H : (_ =? _) = false |- _ => apply N.eqb_neq in H
    | H : _ || _ = false |- _ => apply orb_false_iff in H; destruct H
    end.

Ltac bool_false :=
  apply not_true_is_false; intro;
  repeat match goal with
    | H : _ || _ = true |- _ => apply orb_true_iff in H; destruct H
    | _ => progress bool_arith
    end; lia.

Lemma is_digit_tokchar c : is_digit c = true -> tokchar c = true.
Proof. by_ascii c. Qed.

Lemma is_hex_tokchar c : is_hex c = true -> tokchar c = true.
Proof. by_ascii c. Qed.

Lemma tokchar_plain c : tokchar c = true -> plain c = true.
Proof. unfold tokchar. intros H. apply andb_true_iff in H. tauto. Qed.

Lemma is_delim_plain c : is_delim c = true -> plain c = true.
Proof. by_ascii c. Qed.

Lemma plain_not_space c : plain c = true -> strings.asciiSpace c = false.
Proof. unfold plain. intros H. bool_arith. assumption. Qed.

Lemma plain_space2_l c x : plain c = true -> strings.space2 c x = false.
Proof. unfold plain, strings.space2. intros H. bool_arith. bool_false. Qed.

Lemma plain_space2_r c x : plain c = true -> strings.space2 x c = false.
Proof. unfold plain, strings.space2. intros H. bool_arith. bool_false. Qed.

Lemma plain_space3_1 c x y : plain c = true -> strings.space3 c x y = false.
Proof. unfold plain, strings.space3. intros H. bool_arith. bool_false. Qed.

Lemma plain_space3_2 c x y : plain c = true -> strings.space3 x c y = false.
Proof. unfold plain, strings.space3. intros H. bool_arith. bool_false. Qed.

Lemma plain_space3_3 c x y : plain c = true -> strings.space3 x y c = false.
Proof. unfold plain, strings.space3. intros H. bool_arith. bool_false. Qed.

(** ** Trimming *)

Lemma trimLeft_plain c l : plain c = true -> strings.trimLeft (c :: l) = c :: l.
Proof.
  intros H. cbn [strings.trimLeft]. rewrite (plain_not_space _ H).
  destruct l as [|c2 [|c3 l]]; try reflexivity.
  - now rewrite plain_space2_l.
  - now rewrite plain_space2_l, plain_space3_1.
Qed.

Lemma trimLeftRev_mid c k : plain c = true ->
  forall n r, (length r <= n)%nat ->
  strings.trimLeftRev (r ++ c :: k) = strings.trimLeftRev r ++ c :: k.
Proof.
  intros H. induction n as [|n IH]; intros r Hr.
  - destruct r; [|simpl in Hr; lia].
    cbn [app strings.trimLeftRev]. rewrite (plain_not_space _ H).
    destruct k as [|c2 [|c3 k]]; try reflexivity.
    + now rewrite plain_space2_r.
    + now rewrite plain_space2_r, plain_space3_3.
  - destruct r as [|c1 r]; [apply (IH []); simpl; lia|].
    cbn [app strings.trimLeftRev].
    destruct (strings.asciiSpace c1); [apply IH; simpl in Hr; lia|].
    destruct r as [|c2 r]; cbn [app].
    + rewrite plain_space2_l by assumption.
      destruct k; [reflexivity|]. now rewrite plain_space3_2.
    + destruct (strings.space2 c2 c1); [apply IH; simpl in Hr; lia|].
      destruct r as [|c3 r]; cbn [app].
      * now rewrite plain_space3_1.
      * destruct (strings.space3 c3 c2 c1); [apply IH; simpl in Hr; lia|].
        reflexivity.
Qed.

Lemma trimLeftRev_idem :
  forall n r, (length r <= n)%nat ->
  strings.trimLeftRev (strings.trimLeftRev r) = strings.trimLeftRev r.
Proof.
  induction n as [|n IH]; intros r Hr.
  - destruct r; [reflexivity|simpl in Hr; lia].
  - destruct r as [|c1 r]; [reflexivity|].
    cbn [strings.trimLeftRev].
    destruct (strings.asciiSpace c1) eqn:E1; [apply IH; simpl in Hr; lia|].
    destruct r as [|c2 r].
    + cbn [strings.trimLeftRev]. now rewrite E1.
    + destruct (strings.space2 c2 c1) eqn:E2; [apply IH; simpl in Hr; lia|].
      destruct r as [|c3 r].
      * cbn [strings.trimLeftRev]. now rewrite E1, E2.
      * destruct (strings.space3 c3 c2 c1) eqn:E3;
          [apply IH; simpl in Hr; lia|].
        cbn [strings.trimLeftRev]. now rewrite E1, E2, E3.
Qed.

Lemma trimRight_mid l c m : plain c = true ->
  strings.trimRight (l ++ c :: m) = l ++ c :: strings.trimRight m.
Proof.
  intros H. unfold strings.trimRight.
  rewrite rev_app_distr. cbn [rev]. rewrite <- app_assoc. cbn [app].
  rewrite (trimLeftRev_mid c (rev l) H (length (rev m))) by lia.
  rewrite rev_app_distr. cbn [rev]. rewrite rev_involutive.
  now rewrite <- app_assoc.
Qed.

Lemma trimRight_cons c m : plain c = true ->
  strings.trimRight (c :: m) = c :: strings.trimRight m.
Proof. intros H. exact (trimRight_mid [] c m H). Qed.

Lemma trimRight_idem m :
  strings.trimRight (strings.trimRight m) = strings.trimRight m.
Proof.
  unfold strings.trimRight. rewrite rev_involutive.
  now rewrite (trimLeftRev_idem (length (rev m))) by lia.
Qed.

Lemma trimRight_plain_app k y : forallb plain k = true ->
  strings.trimRight (k ++ y) = k ++ strings.trimRight y.
Proof.
  induction k as [|c k IH]; intros H; [reflexivity|].
  cbn [forallb] in H. apply andb_true_iff in H. destruct H as [Hc Hk].
  cbn [app]. rewrite trimRight_cons by assumption. now rewrite IH.
Qed.

Lemma TrimSpace_plain c y : plain c = true ->
  strings.TrimSpace (c :: y) = c :: strings.trimRight y.
Proof.
  intros H. unfold strings.TrimSpace. rewrite trimLeft_plain by assumption.
  now apply trimRight_cons.
Qed.

Lemma TrimSpace_token t d y :
  forallb plain t = true -> plain d = true ->
  strings.TrimSpace (t ++ d :: y) = t ++ d :: strings.trimRight y.
Proof.
  intros Ht Hd. destruct t as [|c t]; cbn [app].
  - now apply TrimSpace_plain.
  - cbn [forallb] in Ht. apply andb_true_iff in Ht. destruct Ht as [Hc Ht].
    rewrite TrimSpace_plain by assumption.
    now rewrite trimRight_mid.
Qed.

(** ** Tokens *)

Lemma tokchar_not_delim c : tokchar c = true -> is_delim c = false.
Proof.
  unfold tokchar. intros H. apply andb_true_iff in H. destruct H as [_ H].
  now apply negb_true_iff in H.
Qed.

Lemma forallb_tokchar_plain t :
  forallb tokchar t = true -> forallb plain t = true.
Proof.
  rewrite !forallb_forall. intros H c Hc. now apply tokchar_plain, H.
Qed.

Lemma IndexAny_token t d y :
  forallb tokchar t = true -> is_delim d = true ->
  strings.IndexAny (t ++ d :: y) delimiters = Some (length t).
Proof.
  intros Ht Hd. induction t as [|c t IH]; cbn [app strings.IndexAny length].
  - unfold is_delim in Hd. now rewrite Hd.
  - cbn [forallb] in Ht. apply andb_true_iff in Ht. destruct Ht as [Hc Ht].
    apply tokchar_not_delim in Hc. unfold is_delim in Hc. rewrite Hc.
    now rewrite IH.
Qed.

Lemma nextToken_token t d y :
  forallb tokchar t = true -> is_delim d = true ->
  nextToken {| s := t ++ d :: y; err := None |}
  = (t, {| s := d :: strings.trimRight y; err := None |}).
Proof.
  intros Ht Hd. unfold nextToken. cbn [s err].
  rewrite TrimSpace_token
    by (try apply forallb_tokchar_plain; try apply is_delim_plain; assumption).
  rewrite IndexAny_token by assumption.
  rewrite firstn_app, Nat.sub_diag, firstn_all. cbn [firstn].
  rewrite app_nil_r, skipn_app, Nat.sub_diag, skipn_all. reflexivity.
Qed.

Lemma consume_plain d y : plain d = true ->
  consume d {| s := d :: y; err := None |}
  = (tt, {| s := strings.trimRight y; err := None |}).
Proof.
  intros Hd. unfold consume. cbn [s err].
  rewrite TrimSpace_plain by assumption. now rewrite Ascii.eqb_refl.
Qed.

(** ** Decimal numerals *)

Lemma decimal_value_from_ge t : forall n, n <= decimal_value_from n t.
Proof.
  unfold decimal_value_from. induction t as [|c t IH]; intros n; cbn [fold_left].
  - lia.
  - specialize (IH (n * 10 + (code c - 48))). lia.
Qed.

Lemma is_digit_bound c : is_digit c = true -> code c - 48 <= 9.
Proof. unfold is_digit. intros H. bool_arith. lia. Qed.

Lemma parseLoop_digits maxVal : maxVal <= strconv.maxUint64 ->
  forall cs n, forallb is_digit cs = true -> n <= maxVal ->
  strconv.parseLoop cs n maxVal
  = if decimal_value_from n cs <=? maxVal
    then (decimal_value_from n cs, None)
    else (maxVal, Some strconv.ErrRange).
Proof.
  intros Hmax. unfold strconv.maxUint64 in Hmax.
  change (2 ^ 64 - 1) with 18446744073709551615 in Hmax.
  induction cs as [|c cs IH]; intros n Hd Hn.
  - cbn. apply N.leb_le in Hn. now rewrite Hn.
  - cbn [forallb] in Hd. apply andb_true_iff in Hd. destruct Hd as [Hc Hd].
    cbn [strconv.parseLoop]. fold (is_digit c). rewrite Hc.
    change (decimal_value_from n (c :: cs))
      with (decimal_value_from (n * 10 + (code c - 48)) cs).
    pose proof (decimal_value_from_ge cs (n * 10 + (code c - 48))) as Hge.
    pose proof (is_digit_bound c Hc) as Hb.
    change (strconv.maxUint64 / 10 + 1) with 1844674407370955162.
    change (2 ^ 64) with 18446744073709551616.
    destruct (N.leb_spec 1844674407370955162 n) as [Hcut|Hcut].
    { destruct (N.leb_spec (decimal_value_from (n * 10 + (code c - 48)) cs)
                  maxVal); [lia|reflexivity]. }
    rewrite (N.mod_small (n * 10)) by lia.
    destruct (N.lt_ge_cases (n * 10 + (code c - 48)) 18446744073709551616)
      as [Hs|Hs].
    + rewrite N.mod_small by assumption.
      destruct (N.ltb_spec (n * 10 + (code c - 48)) (n * 10)); [lia|].
      cbn [orb].
      destruct (N.ltb_spec maxVal (n * 10 + (code c - 48))).
      * destruct (N.leb_spec (decimal_value_from (n * 10 + (code c - 48)) cs)
                    maxVal); [lia|reflexivity].
      * apply IH; [assumption|lia].
    + assert (Hw : (n * 10 + (code c - 48)) mod 18446744073709551616
                   = n * 10 + (code c - 48) - 18446744073709551616).
      { symmetry. apply (N.mod_unique _ _ 1); lia. }
      rewrite Hw.
      destruct (N.ltb_spec (n * 10 + (code c - 48) - 18446744073709551616)
                  (n * 10)); [|lia].
      cbn [orb].
      destruct (N.leb_spec (decimal_value_from (n * 10 + (code c - 48)) cs)
                  maxVal); [lia|reflexivity].
Qed.

Lemma pow2_le_64 bits : bits <= 64 -> 2 ^ bits - 1 <= strconv.maxUint64.
Proof.
  intros H. unfold strconv.maxUint64.
  assert (2 ^ bits <= 2 ^ 64) by (apply N.pow_le_mono_r; lia). lia.
Qed.

Lemma pow2_pos bits : 0 < 2 ^ bits.
Proof. apply N.neq_0_lt_0, N.pow_nonzero. lia. Qed.

Lemma ParseUint_digits t bits :
  t <> [] -> forallb is_digit t = true -> bits <= 64 ->
  strconv.ParseUint t bits
  = if decimal_value t <? 2 ^ bits
    then (decimal_value t, None)
    else (2 ^ bits - 1, Some strconv.ErrRange).
Proof.
  intros Hne Hd Hb. unfold strconv.ParseUint.
  destruct t as [|c t]; [congruence|].
  rewrite parseLoop_digits; [|now apply pow2_le_64|assumption|lia].
  fold (decimal_value (c :: t)). pose proof (pow2_pos bits).
  destruct (N.leb_spec (decimal_value (c :: t)) (2 ^ bits - 1));
    destruct (N.ltb_spec (decimal_value (c :: t)) (2 ^ bits));
    try reflexivity; lia.
Qed.

Lemma numeral_inv bits t : numeral bits t = true ->
  t <> [] /\ forallb is_digit t = true /\ decimal_value t < 2 ^ bits.
Proof.
  unfold numeral. destruct t as [|c t]; [discriminate|].
  intros H. apply andb_true_iff in H. destruct H as [Hd Hv].
  apply N.ltb_lt in Hv. repeat split; [discriminate|assumption|assumption].
Qed.

Lemma ParseUint_numeral t bits : numeral bits t = true -> bits <= 64 ->
  strconv.ParseUint t bits = (decimal_value t, None).
Proof.
  intros H Hb. destruct (numeral_inv _ _ H) as (Hne & Hd & Hv).
  rewrite ParseUint_digits by assumption.
  apply N.ltb_lt in Hv. now rewrite Hv.
Qed.

Lemma numeral_tokchars bits t : numeral bits t = true ->
  forallb tokchar t = true.
Proof.
  intros H. destruct (numeral_inv _ _ H) as (_ & Hd & _).
  rewrite forallb_forall in *. intros c Hc. now apply is_digit_tokchar, Hd.
Qed.

Lemma parseInt_numeral bits t d y :
  numeral bits t = true -> bits <= 64 -> is_delim d = true ->
  parseInt bits {| s := t ++ d :: y; err := None |}
  = (decimal_value t, {| s := d :: strings.trimRight y; err := None |}).
Proof.
  intros H Hb Hd. unfold parseInt, bind.
  rewrite nextToken_token by (try apply (numeral_tokchars bits); assumption).
  cbn [s err]. now rewrite ParseUint_numeral.
Qed.

Lemma decimal_value_from_app n t u :
  decimal_value_from n (t ++ u) = decimal_value_from (decimal_value_from n t) u.
Proof. unfold decimal_value_from. apply fold_left_app. Qed.

Lemma code_digit d : d < 10 -> code (strconv.digit d) = 48 + d.
Proof.
  intros H. unfold code, strconv.digit. apply N_ascii_embedding. lia.
Qed.

Lemma is_digit_digit d : d < 10 -> is_digit (strconv.digit d) = true.
Proof.
  intros H. unfold is_digit. rewrite code_digit by assumption.
  apply andb_true_iff. split; apply N.leb_le; lia.
Qed.

Lemma digit_code c : is_digit c = true -> strconv.digit (code c - 48) = c.
Proof. by_ascii c. Qed.

(** What [formatBits] prepends to its accumulator: the digits of [u],
    most significant first, none of them a leading zero. *)
Lemma formatBits_digits : forall fuel u acc,
  u < 10 ^ N.of_nat fuel -> (0 < fuel)%nat ->
  exists ds,
    strconv.formatBits fuel u acc = ds ++ acc
    /\ ds <> []
    /\ forallb is_digit ds = true
    /\ (forall n, decimal_value_from n ds = n * 10 ^ N.of_nat (length ds) + u)
    /\ (u <> 0 -> exists c r, ds = c :: r /\ code c <> 48).
Proof.
  induction fuel as [|fuel IH]; intros u acc Hu Hf; [lia|].
  cbn [strconv.formatBits].
  assert (Hm : u mod 10 < 10) by (apply N.mod_lt; lia).
  pose proof (N.div_mod u 10 ltac:(lia)) as Hdm.
  destruct (N.eqb_spec (u / 10) 0) as [Hz|Hz].
  - exists [strconv.digit (u mod 10)]. repeat split.
    + discriminate.
    + cbn [forallb]. now rewrite is_digit_digit.
    + intros n. unfold decimal_value_from. cbn [fold_left length].
      rewrite code_digit by assumption. change (10 ^ N.of_nat 1) with 10. lia.
    + intros Hnz. eexists. eexists. split; [reflexivity|].
      rewrite code_digit by assumption. lia.
  - assert (Hlt : u / 10 < 10 ^ N.of_nat fuel).
    { apply N.Div0.div_lt_upper_bound.
      rewrite Nnat.Nat2N.inj_succ, N.pow_succ_r' in Hu. lia. }
    assert (Hfuel : (0 < fuel)%nat).
    { destruct fuel; [|lia]. change (10 ^ N.of_nat 0) with 1 in Hlt. lia. }
    destruct (IH (u / 10) (strconv.digit (u mod 10) :: acc) Hlt Hfuel)
      as (ds & Heq & Hne & Hd & Hv & Hh).
    exists (ds ++ [strconv.digit (u mod 10)]). repeat split.
    + rewrite Heq, <- app_assoc. reflexivity.
    + destruct ds; discriminate.
    + rewrite forallb_app, Hd. cbn [forallb]. now rewrite is_digit_digit.
    + intros n. rewrite decimal_value_from_app, Hv.
      unfold decimal_value_from at 1. cbn [fold_left].
      rewrite code_digit by assumption.
      rewrite length_app. cbn [length].
      rewrite Nat.add_1_r, Nnat.Nat2N.inj_succ, N.pow_succ_r'.
      rewrite (N.add_comm 48), N.add_sub.
      set (P := 10 ^ N.of_nat (length ds)). nia.
    + intros _. destruct (Hh Hz) as (c & r & -> & Hc).
      exists c, (r ++ [strconv.digit (u mod 10)]). now split.
Qed.

Lemma FormatUint_digits u : u < 2 ^ 64 ->
  exists ds,
    strconv.FormatUint u = ds
    /\ ds <> []
    /\ forallb is_digit ds = true
    /\ decimal_value ds = u
    /\ (u <> 0 -> exists c r, ds = c :: r /\ code c <> 48).
Proof.
  intros Hu. unfold strconv.FormatUint.
  destruct (formatBits_digits 20 u []) as (ds & Heq & Hne & Hd & Hv & Hh).
  - change (10 ^ N.of_nat 20) with 100000000000000000000.
    change (2 ^ 64) with 18446744073709551616 in Hu. lia.
  - lia.
  - exists ds. rewrite app_nil_r in Heq. repeat split; try assumption.
    unfold decimal_value. rewrite Hv. lia.
Qed.

Lemma FormatUint_canonical bits u : bits <= 64 -> u < 2 ^ bits ->
  canonical_numeral bits (strconv.FormatUint u) = true
  /\ decimal_value (strconv.FormatUint u) = u.
Proof.
  intros Hb Hu.
  assert (H64 : u < 2 ^ 64).
  { assert (2 ^ bits <= 2 ^ 64) by (apply N.pow_le_mono_r; lia). lia. }
  destruct (N.eq_dec u 0) as [->|Hnz].
  { split; [|reflexivity]. unfold canonical_numeral, numeral.
    change (strconv.FormatUint 0) with (lit "0"). cbn.
    apply N.ltb_lt in Hu. now rewrite Hu. }
  destruct (FormatUint_digits u H64) as (ds & -> & Hne & Hd & Hv & Hh).
  split; [|assumption].
  unfold canonical_numeral, numeral.
  destruct (Hh Hnz) as (c & r & -> & Hc).
  rewrite Hd, Hv. apply N.ltb_lt in Hu. rewrite Hu. cbn [andb].
  destruct r; [reflexivity|]. now apply negb_true_iff, N.eqb_neq.
Qed.

Lemma canonical_numeral_numeral bits t :
  canonical_numeral bits t = true -> numeral bits t = true.
Proof. unfold canonical_numeral. intros H. apply andb_true_iff in H. tauto. Qed.

(** The writer prints a canonical numeral back as it is. *)
Lemma formatBits_canonical : forall t,
  t <> [] -> forallb is_digit t = true ->
  (forall c d r, t = c :: d :: r -> code c <> 48) ->
  forall fuel acc, (length t <= fuel)%nat ->
  strconv.formatBits fuel (decimal_value t) acc = t ++ acc.
Proof.
  induction t as [|c t IH] using rev_ind; intros Hne Hd Hh fuel acc Hf;
    [congruence|].
  rewrite forallb_app in Hd. apply andb_true_iff in Hd. destruct Hd as [Hd Hc].
  cbn [forallb] in Hc. rewrite andb_true_r in Hc.
  rewrite length_app in Hf. cbn [length] in Hf.
  destruct fuel as [|fuel]; [lia|]. cbn [strconv.formatBits].
  assert (Hval : decimal_value (t ++ [c]) = decimal_value t * 10 + (code c - 48)).
  { unfold decimal_value. now rewrite decimal_value_from_app. }
  rewrite Hval.
  pose proof (is_digit_bound c Hc) as Hb.
  assert (Hmod : (decimal_value t * 10 + (code c - 48)) mod 10 = code c - 48).
  { symmetry. apply (N.mod_unique _ _ (decimal_value t)); lia. }
  assert (Hdiv : (decimal_value t * 10 + (code c - 48)) / 10 = decimal_value t).
  { symmetry. apply (N.div_unique _ _ _ (code c - 48)); lia. }
  rewrite Hmod, Hdiv.
  rewrite digit_code by assumption.
  destruct t as [|c0 t0].
  - reflexivity.
  - assert (Hc0 : code c0 <> 48).
    { destruct t0; cbn [app] in Hh; eapply Hh; reflexivity. }
    assert (Hpos : decimal_value (c0 :: t0) <> 0).
    { unfold decimal_value.
      change (decimal_value_from 0 (c0 :: t0))
        with (decimal_value_from (0 * 10 + (code c0 - 48)) t0).
      pose proof (decimal_value_from_ge t0 (0 * 10 + (code c0 - 48))).
      cbn [forallb] in Hd. apply andb_true_iff in Hd. destruct Hd as [Hd0 _].
      unfold is_digit in Hd0. bool_arith. lia. }
    apply N.eqb_neq in Hpos. rewrite Hpos.
    rewrite IH; try assumption; try discriminate.
    + now rewrite <- app_assoc.
    + intros c1 d1 r1 E. apply (Hh c1 d1 (r1 ++ [c])). rewrite E. reflexivity.
    + lia.
Qed.

Lemma decimal_length_bound : forall t,
  forallb is_digit t = true ->
  (forall c r, t = c :: r -> code c <> 48) ->
  t <> [] -> 10 ^ N.of_nat (length t - 1) <= decimal_value t.
Proof.
  induction t as [|c t IH] using rev_ind; intros Hd Hh Hne; [congruence|].
  rewrite forallb_app in Hd. apply andb_true_iff in Hd. destruct Hd as [Hd Hc].
  assert (Hval : decimal_value (t ++ [c]) = decimal_value t * 10 + (code c - 48)).
  { unfold decimal_value. now rewrite decimal_value_from_app. }
  rewrite Hval.
  rewrite length_app. cbn [length]. rewrite Nat.add_sub.
  destruct t as [|c0 t0].
  - cbn. specialize (Hh c [] eq_refl). cbn [forallb] in Hc.
    rewrite andb_true_r in Hc. unfold is_digit in Hc. bool_arith. lia.
  - assert (10 ^ N.of_nat (length (c0 :: t0) - 1) <= decimal_value (c0 :: t0)).
    { apply IH; [assumption| |discriminate].
      intros c1 r1 E. apply (Hh c1 (r1 ++ [c])). rewrite E. reflexivity. }
    cbn [length] in *. rewrite Nat.sub_succ, Nat.sub_0_r in H.
    rewrite Nnat.Nat2N.inj_succ, N.pow_succ_r'. lia.
Qed.

Lemma FormatUint_canonical_numeral bits t :
  bits <= 64 -> canonical_numeral bits t = true ->
  strconv.FormatUint (decimal_value t) = t.
Proof.
  intros Hb H. unfold canonical_numeral in H. apply andb_true_iff in H.
  destruct H as [Hn Hh]. destruct (numeral_inv _ _ Hn) as (Hne & Hd & Hv).
  assert (H64 : decimal_value t < 2 ^ 64).
  { assert (2 ^ bits <= 2 ^ 64) by (apply N.pow_le_mono_r; lia). lia. }
  unfold strconv.FormatUint.
  destruct t as [|c [|d r]]; [congruence| |].
  - rewrite (formatBits_canonical [c]); try assumption.
    + reflexivity.
    + intros ? ? ? E. discriminate E.
    + cbn. lia.
  - apply negb_true_iff, N.eqb_neq in Hh.
    rewrite <- (app_nil_r (c :: d :: r)) at 2.
    apply formatBits_canonical; try assumption.
    + intros c1 d1 r1 E. now injection E as -> _ _.
    + assert (Hlen : 10 ^ N.of_nat (length (c :: d :: r) - 1)
                     <= decimal_value (c :: d :: r)).
      { apply decimal_length_bound; [assumption| |discriminate].
        intros c1 r1 E. now injection E as -> _. }
      destruct (Nat.le_gt_cases (length (c :: d :: r)) 20) as [|Hgt];
        [assumption|exfalso].
      assert (10 ^ 20 <= 10 ^ N.of_nat (length (c :: d :: r) - 1)).
      { apply N.pow_le_mono_r; lia. }
      change (10 ^ 20) with 100000000000000000000 in *.
      change (2 ^ 64) with 18446744073709551616 in H64. lia.
Qed.

(** ** Hexadecimal keys *)

Lemma pair_ind (P : list ascii -> Prop) :
  P [] -> (forall p, P [p]) -> (forall p q r, P r -> P (p :: q :: r)) ->
  forall l, P l.
Proof.
  intros H0 H1 H2. fix F 1. intros [|p [|q r]].
  - exact H0.
  - apply H1.
  - apply H2, F.
Qed.

Lemma to_N_byte_of_N n : n < 256 -> Byte.to_N (byte_of_N n) = n.
Proof.
  intros H. unfold byte_of_N. rewrite N.mod_small by assumption.
  destruct (Byte.of_N n) eqn:E.
  - now apply Byte.to_of_N.
  - apply Byte.of_N_None_iff in E. lia.
Qed.

Lemma encode_byte v :
  is_hex (hex.hexdigit (Byte.to_N v / 16)) = true
  /\ is_hex (hex.hexdigit (Byte.to_N v mod 16)) = true
  /\ byte_of_N (hex_value (hex.hexdigit (Byte.to_N v / 16)) * 16
                + hex_value (hex.hexdigit (Byte.to_N v mod 16))) = v.
Proof. destruct v; repeat split; reflexivity. Qed.

Lemma hex_value_bound c : hex_value c < 16.
Proof. by_ascii c; reflexivity. Qed.

Lemma hexdigit_hex_value c :
  is_hex c = true -> hex.hexdigit (hex_value c) = lower_hex c.
Proof. by_ascii c. Qed.

Lemma fromHexChar_is_hex c :
  is_hex c = true -> hex.fromHexChar c = Some (hex_value c).
Proof.
  unfold is_hex, hex_value. destruct (hex.fromHexChar c); [reflexivity|discriminate].
Qed.

Lemma length_EncodeToString pk :
  length (hex.EncodeToString pk) = (2 * length pk)%nat.
Proof.
  unfold hex.EncodeToString. induction pk as [|v pk IH]; [reflexivity|].
  cbn [flat_map app length]. rewrite IH. lia.
Qed.

Lemma EncodeToString_is_hex pk :
  forallb is_hex (hex.EncodeToString pk) = true.
Proof.
  unfold hex.EncodeToString. induction pk as [|v pk IH]; [reflexivity|].
  cbn [flat_map app forallb].
  destruct (encode_byte v) as (-> & -> & _). exact IH.
Qed.

Lemma hex_key_EncodeToString pk :
  length pk = 32%nat -> hex_key (hex.EncodeToString pk) = true.
Proof.
  intros H. unfold hex_key.
  rewrite length_EncodeToString, H, EncodeToString_is_hex. reflexivity.
Qed.

Lemma unhex_EncodeToString pk : unhex (hex.EncodeToString pk) = pk.
Proof.
  unfold hex.EncodeToString. induction pk as [|v pk IH]; [reflexivity|].
  cbn [flat_map app unhex].
  destruct (encode_byte v) as (_ & _ & ->). now rewrite IH.
Qed.

Lemma EncodeToString_unhex : forall k,
  forallb is_hex k = true -> Nat.even (length k) = true ->
  hex.EncodeToString (unhex k) = map lower_hex k.
Proof.
  induction k as [|p|p q r IH] using pair_ind; intros Hh He.
  - reflexivity.
  - discriminate.
  - cbn [forallb] in Hh.
    apply andb_true_iff in Hh. destruct Hh as [Hp Hh].
    apply andb_true_iff in Hh. destruct Hh as [Hq Hh].
    cbn [unhex map]. unfold hex.EncodeToString in *. cbn [flat_map app].
    rewrite IH by assumption.
    pose proof (hex_value_bound p). pose proof (hex_value_bound q).
    rewrite to_N_byte_of_N by lia.
    replace ((hex_value p * 16 + hex_value q) / 16) with (hex_value p)
      by (apply (N.div_unique _ _ _ (hex_value q)); lia).
    replace ((hex_value p * 16 + hex_value q) mod 16) with (hex_value q)
      by (apply (N.mod_unique _ _ (hex_value p)); lia).
    now rewrite !hexdigit_hex_value.
Qed.

Lemma length_unhex : forall k,
  Nat.even (length k) = true -> (2 * length (unhex k) = length k)%nat.
Proof.
  induction k as [|p|p q r IH] using pair_ind; intros He.
  - reflexivity.
  - discriminate.
  - cbn [unhex length]. cbn [length] in He.
    specialize (IH He). lia.
Qed.

Lemma length_store {A} (v : A) : forall dst i, length (store i v dst) = length dst.
Proof.
  induction dst as [|x dst IH]; intros [|i]; cbn [store length]; auto.
Qed.

Lemma firstn_store {A} (v : A) : forall dst i, (i < length dst)%nat ->
  firstn (S i) (store i v dst) = firstn i dst ++ [v].
Proof.
  induction dst as [|x dst IH]; intros [|i] H; cbn [length] in H; try lia.
  - reflexivity.
  - cbn [store]. change (firstn (S (S i)) (x :: store i v dst))
      with (x :: firstn (S i) (store i v dst)).
    rewrite IH by lia. reflexivity.
Qed.

Lemma skipn_store {A} (v : A) : forall dst i m,
  skipn (S i + m) (store i v dst) = skipn (S i + m) dst.
Proof.
  induction dst as [|x dst IH]; intros [|i] m; cbn [store]; try reflexivity.
  apply (IH i m).
Qed.

Lemma decodeFrom_hex : forall k,
  forallb is_hex k = true -> Nat.even (length k) = true ->
  forall i dst, (i + length (unhex k) <= length dst)%nat ->
  hex.decodeFrom i dst k
  = (firstn i dst ++ unhex k ++ skipn (i + length (unhex k)) dst, None).
Proof.
  induction k as [|p|p q r IH] using pair_ind; intros Hh He i dst Hl.
  - cbn [hex.decodeFrom unhex length app]. rewrite Nat.add_0_r.
    now rewrite firstn_skipn.
  - discriminate.
  - cbn [forallb] in Hh.
    apply andb_true_iff in Hh. destruct Hh as [Hp Hh].
    apply andb_true_iff in Hh. destruct Hh as [Hq Hh].
    cbn [hex.decodeFrom].
    rewrite (fromHexChar_is_hex p Hp), (fromHexChar_is_hex q Hq).
    cbn [unhex length] in *.
    rewrite IH; [|assumption|assumption|rewrite length_store; lia].
    rewrite firstn_store by lia. rewrite skipn_store.
    rewrite <- app_assoc. cbn [app].
    now rewrite <- plus_n_Sm.
Qed.

Lemma Decode_hex_key k : hex_key k = true ->
  hex.Decode (zero_bytes 32) k = (unhex k, None).
Proof.
  unfold hex_key. intros H. apply andb_true_iff in H. destruct H as [Hl Hh].
  apply Nat.eqb_eq in Hl.
  assert (He : Nat.even (length k) = true) by now rewrite Hl.
  pose proof (length_unhex k He) as Hu.
  unfold hex.Decode. rewrite decodeFrom_hex; try assumption.
  - cbn [firstn app plus].
    rewrite skipn_all2 by (unfold zero_bytes; rewrite repeat_length; lia).
    now rewrite app_nil_r.
  - unfold zero_bytes. rewrite repeat_length. lia.
Qed.

Lemma hex_key_tokchars k : hex_key k = true -> forallb tokchar k = true.
Proof.
  unfold hex_key. intros H. apply andb_true_iff in H. destruct H as [_ Hh].
  rewrite forallb_forall in *. intros c Hc. now apply is_hex_tokchar, Hh.
Qed.

Lemma length_unhex_key k : hex_key k = true -> length (unhex k) = 32%nat.
Proof.
  intros H. unfold hex_key in H. apply andb_true_iff in H.
  destruct H as [Hl _]. apply Nat.eqb_eq in Hl.
  assert (He : Nat.even (length k) = true) by now rewrite Hl.
  pose proof (length_unhex k He). lia.
Qed.

Lemma parsePubkey_key k d y :
  hex_key k = true -> is_delim d = true ->
  parsePubkey {| s := k ++ d :: y; err := None |}
  = (unhex k, {| s := d :: strings.trimRight y; err := None |}).
Proof.
  intros H Hd. unfold parsePubkey, bind.
  rewrite nextToken_token by (try apply hex_key_tokchars; assumption).
  cbn [s err]. pose proof H as H'. unfold hex_key in H'.
  apply andb_true_iff in H'. destruct H' as [Hl _]. rewrite Hl. cbn [negb].
  now rewrite Decode_hex_key.
Qed.

(** ** The list loops *)

Ltac trim_norm :=
  repeat first
    [ rewrite trimRight_idem
    | rewrite trimRight_cons by reflexivity
    | rewrite trimRight_mid by reflexivity ].

Lemma list_rest_head {T : Type} (enc : T -> text) xs trailing z :
  exists d m, list_rest enc xs trailing z = d :: m /\ is_delim d = true.
Proof.
  unfold list_rest. destruct xs as [|x xs]; cbn [flat_map app].
  - destruct trailing; cbn [app]; eexists; eexists; split; reflexivity.
  - eexists; eexists; split; reflexivity.
Qed.

Lemma list_rest_stable {T : Type} (enc : T -> text) trailing z :
  strings.trimRight z = z ->
  forall xs, strings.trimRight (list_rest enc xs trailing z)
             = list_rest enc xs trailing z.
Proof.
  intros Hz. unfold list_rest. induction xs as [|x xs IH]; cbn [flat_map app].
  - destruct trailing; cbn [app]; trim_norm; now rewrite Hz.
  - rewrite <- app_assoc. rewrite trimRight_cons by reflexivity. f_equal.
    destruct xs as [|x2 xs]; cbn [flat_map app] in *.
    + destruct trailing; cbn [app]; trim_norm; now rewrite Hz.
    + rewrite <- app_assoc in *. cbn [app] in *.
      rewrite trimRight_mid by reflexivity. f_equal. f_equal.
      rewrite trimRight_cons in IH by reflexivity.
      now injection IH.
Qed.

Lemma list_rest_after {T : Type} (enc : T -> text) trailing z x xs :
  strings.trimRight z = z ->
  strings.trimRight (enc x ++ list_rest enc xs trailing z)
  = enc x ++ list_rest enc xs trailing z.
Proof.
  intros Hz. pose proof (list_rest_stable enc trailing z Hz xs) as Hs.
  revert Hs. unfold list_rest.
  destruct xs as [|x2 xs]; cbn [flat_map app].
  - destruct trailing; cbn [app]; intros Hs;
      rewrite trimRight_mid by reflexivity;
      rewrite trimRight_cons in Hs by reflexivity; injection Hs as Hs;
      now rewrite Hs.
  - rewrite <- app_assoc. cbn [app]. intros Hs.
    rewrite trimRight_mid by reflexivity.
    rewrite trimRight_cons in Hs by reflexivity. injection Hs as Hs.
    now rewrite Hs.
Qed.

Lemma peek_head c r y :
  fst (peek {| s := (c :: r) ++ y; err := None |}) = c.
Proof. reflexivity. Qed.

Section ListLoop.

Context {A T : Type}.
Variable item : pstate -> option (A * pstate).
Variable enc : T -> text.
Variable val : T -> A.

Lemma listLoop_from trailing z : strings.trimRight z = z ->
  forall xs x fuel acc,
  (forall x', In x' (x :: xs) ->
     (forall d m, is_delim d = true ->
        item {| s := enc x' ++ d :: m; err := None |}
        = Some (val x', {| s := strings.trimRight (d :: m); err := None |}))
     /\ exists c r, enc x' = c :: r /\ Ascii.eqb c "]" = false) ->
  (length xs + 1 < fuel)%nat ->
  listLoop item fuel acc
    {| s := enc x ++ list_rest enc xs trailing z; err := None |}
  = Some (acc ++ val x :: map val xs, {| s := "]"%char :: z; err := None |}).
Proof.
  intros Hz. induction xs as [|x2 xs IH]; intros x fuel acc Hx Hf.
  - destruct fuel as [|[|fuel]]; cbn [length] in Hf; try lia.
    destruct (Hx x (or_introl eq_refl)) as (Hit & c & r & Hc & Hne).
    cbn [listLoop err].
    assert (Hp : forall y, fst (peek {| s := enc x ++ y; err := None |}) = c)
      by (intros y; rewrite Hc; apply peek_head).
    rewrite Hp, Hne.
    destruct (list_rest_head enc [] trailing z) as (d & m & E & Hd).
    rewrite E, (Hit d m Hd), <- E.
    rewrite list_rest_stable by assumption.
    unfold list_rest. cbn [flat_map app].
    destruct trailing; cbn [app]; unfold peek; cbn [s err fst].
    + change (Ascii.eqb "," "]") with false. cbn iota.
      rewrite consume_plain by reflexivity. cbn [snd].
      rewrite trimRight_cons by reflexivity. rewrite Hz.
      cbn [err s]. now rewrite Ascii.eqb_refl.
    + rewrite Ascii.eqb_refl. cbn [err s]. now rewrite Ascii.eqb_refl.
  - destruct fuel as [|fuel]; cbn [length] in Hf; try lia.
    destruct (Hx x (or_introl eq_refl)) as (Hit & c & r & Hc & Hne).
    cbn [listLoop err].
    assert (Hp : forall y, fst (peek {| s := enc x ++ y; err := None |}) = c)
      by (intros y; rewrite Hc; apply peek_head).
    rewrite Hp, Hne.
    destruct (list_rest_head enc (x2 :: xs) trailing z) as (d & m & E & Hd).
    rewrite E, (Hit d m Hd), <- E.
    rewrite list_rest_stable by assumption.
    unfold list_rest. cbn [flat_map]. rewrite <- app_assoc.
    cbn [app]. unfold peek. cbn [s err fst].
    change (Ascii.eqb "," "]") with false. cbn iota.
    rewrite consume_plain by reflexivity. cbn [snd].
    fold (list_rest enc xs trailing z).
    rewrite list_rest_after by assumption.
    rewrite (IH x2 fuel (acc ++ [val x])).
    + now rewrite <- app_assoc.
    + intros x' Hin. apply Hx. now right.
    + lia.
Qed.

(** The loop on a whole list, which may be empty and may end in a
    trailing comma when it is not. *)
Lemma listLoop_items trailing z xs fuel :
  strings.trimRight z = z ->
  (forall x', In x' xs ->
     (forall d m, is_delim d = true ->
        item {| s := enc x' ++ d :: m; err := None |}
        = Some (val x', {| s := strings.trimRight (d :: m); err := None |}))
     /\ exists c r, enc x' = c :: r /\ Ascii.eqb c "]" = false) ->
  (length xs < fuel)%nat ->
  (trailing = true -> xs <> []) ->
  listLoop item fuel []
    {| s := joinComma (map enc xs)
            ++ (if trailing then [","%char] else []) ++ "]"%char :: z;
       err := None |}
  = Some (map val xs, {| s := "]"%char :: z; err := None |}).
Proof.
  intros Hz Hx Hf Ht. destruct xs as [|x xs].
  - destruct trailing; [now exfalso; apply Ht|].
    destruct fuel; [cbn in Hf; lia|].
    cbn [map joinComma app listLoop err]. unfold peek. cbn [s err fst].
    now rewrite Ascii.eqb_refl.
  - cbn [map joinComma]. rewrite <- app_assoc.
    assert (E : flat_map (fun y => lit "," ++ y) (map enc xs)
                = flat_map (fun x => ","%char :: enc x) xs).
    { rewrite flat_map_concat_map, map_map, <- flat_map_concat_map.
      reflexivity. }
    rewrite E. fold (list_rest enc xs trailing z).
    rewrite (listLoop_from trailing z Hz xs x fuel []); try assumption.
    + reflexivity.
    + cbn [length] in Hf. lia.
Qed.

End ListLoop.

(** ** Parsing the texts of the grammar *)

Lemma ptext_nested_ind (P : ptext -> Prop) :
  (forall h, P (TAbove h)) ->
  (forall k, P (TPublicKey k)) ->
  (forall n Of, Forall P Of -> P (TThreshold n Of)) ->
  (forall t keys n, P (TUnlockConditions t keys n)) ->
  forall w, P w.
Proof.
  intros Ha Hk Ht Hu.
  refine (fix F (w : ptext) : P w :=
            match w with
            | TAbove h => Ha h
            | TPublicKey k => Hk k
            | TThreshold n Of =>
                Ht n Of
                  ((fix G (l : list ptext) : Forall P l :=
                      match l with
                      | [] => Forall_nil P
                      | x :: r => Forall_cons x (F x) (G r)
                      end) Of)
            | TUnlockConditions t keys n => Hu t keys n
            end).
Qed.

Lemma render_head w :
  exists c r, render w = c :: r /\ Ascii.eqb c "]" = false.
Proof. destruct w; cbn; eexists; eexists; split; reflexivity. Qed.

Lemma hex_key_head k : hex_key k = true ->
  exists c r, k = c :: r /\ Ascii.eqb c "]" = false.
Proof.
  intros H. destruct k as [|c r]; [discriminate|].
  exists c, r. split; [reflexivity|].
  unfold hex_key in H. apply andb_true_iff in H. destruct H as [_ H].
  cbn [forallb] in H. apply andb_true_iff in H. destruct H as [H _].
  revert H. by_ascii c.
Qed.

Lemma length_joinComma_in (parts : list text) x :
  In x parts -> (length x <= length (joinComma parts))%nat.
Proof.
  destruct parts as [|p parts]; [contradiction|].
  cbn [joinComma]. rewrite length_app. intros [->|Hin]; [lia|].
  induction parts as [|q parts IH]; [contradiction|].
  cbn [flat_map]. rewrite !length_app. destruct Hin as [->|Hin]; [lia|].
  specialize (IH Hin). lia.
Qed.

Lemma length_joinComma_count (parts : list text) :
  (length parts <= length (joinComma parts) + 1)%nat.
Proof.
  destruct parts as [|p parts]; [cbn; lia|].
  cbn [joinComma length]. rewrite length_app.
  assert (length parts <= length (flat_map (fun y => lit "," ++ y) parts))%nat.
  { induction parts as [|q parts IH]; [cbn; lia|].
    cbn [flat_map]. rewrite length_app.
    change (lit "," ++ q) with (","%char :: q). cbn [length]. lia. }
  lia.
Qed.

Ltac eval_typ :=
  repeat match goal with
    | |- context [text_eqb ?a ?b] =>
        let v := eval vm_compute in (text_eqb a b) in
        change (text_eqb a b) with v
    end;
  cbn iota.

Lemma numeral_mod bits t : numeral bits t = true ->
  decimal_value t mod 2 ^ bits = decimal_value t.
Proof.
  intros H. destruct (numeral_inv _ _ H) as (_ & _ & Hv).
  now apply N.mod_small.
Qed.

Lemma parse_render : forall w, grammar_text w = true ->
  forall fuel y, (length (render w) <= fuel)%nat ->
  parseSpendPolicy fuel {| s := render w ++ y; err := None |}
  = Some (policy_of w, {| s := strings.trimRight y; err := None |}).
Proof.
  induction w as [h|k|n Of IH|t keys n] using ptext_nested_ind;
    intros Hg fuel y Hf; cbn [grammar_text text_ok] in Hg.
  - (* above *)
    destruct fuel as [|fuel]; [cbn in Hf; lia|].
    cbn [render]. rewrite <- !app_assoc.
    change (lit "above(" ++ h ++ lit ")" ++ y)
      with (lit "above" ++ "("%char :: h ++ ")"%char :: y).
    cbn [parseSpendPolicy].
    rewrite nextToken_token by reflexivity. trim_norm. eval_typ.
    rewrite consume_plain by reflexivity. cbn [snd]. trim_norm.
    rewrite (parseInt_numeral 64) by (try assumption; try reflexivity; lia).
    cbn [fst snd policy_of].
    rewrite consume_plain by reflexivity. cbn [snd]. trim_norm.
    reflexivity.
  - (* pk *)
    destruct fuel as [|fuel]; [cbn in Hf; lia|].
    cbn [render]. rewrite <- !app_assoc.
    change (lit "pk(" ++ k ++ lit ")" ++ y)
      with (lit "pk" ++ "("%char :: k ++ ")"%char :: y).
    cbn [parseSpendPolicy].
    rewrite nextToken_token by reflexivity. trim_norm. eval_typ.
    rewrite consume_plain by reflexivity. cbn [snd]. trim_norm.
    rewrite parsePubkey_key by (try assumption; reflexivity).
    cbn [fst snd policy_of].
    rewrite consume_plain by reflexivity. cbn [snd]. trim_norm.
    reflexivity.
  - (* thresh *)
    apply andb_true_iff in Hg. destruct Hg as [Hn HOf].
    destruct fuel as [|fuel]; [cbn in Hf; lia|].
    cbn [render] in *. rewrite <- !app_assoc.
    change (lit "thresh(" ++ n ++ lit ",[" ++ joinComma (map render Of)
            ++ lit "])" ++ y)
      with (lit "thresh" ++ "("%char :: n ++ ","%char :: "["%char
            :: joinComma (map render Of) ++ "]"%char :: ")"%char :: y).
    cbn [parseSpendPolicy].
    rewrite nextToken_token by reflexivity. trim_norm. eval_typ.
    rewrite consume_plain by reflexivity. cbn [snd]. trim_norm.
    rewrite (parseInt_numeral 8) by (try assumption; try reflexivity; lia).
    rewrite consume_plain by reflexivity. cbn [snd]. trim_norm.
    rewrite consume_plain by reflexivity. cbn [snd]. trim_norm.
    rewrite !length_app in Hf. cbn [lit list_ascii_of_string length] in Hf.
    pose proof (listLoop_items (parseSpendPolicy fuel) render policy_of false
                  (")"%char :: strings.trimRight y) Of (S fuel)) as HL.
    cbn [app] in HL. rewrite HL; clear HL.
    + rewrite consume_plain by reflexivity. cbn [snd fst]. trim_norm.
      rewrite consume_plain by reflexivity. cbn [snd]. trim_norm.
      cbn [policy_of]. now rewrite numeral_mod.
    + now trim_norm.
    + intros x Hin. split; [|apply render_head].
      intros d m _. rewrite Forall_forall in IH. apply IH; [assumption| |].
      * rewrite forallb_forall in HOf. now apply HOf.
      * pose proof (length_joinComma_in (map render Of) (render x)
                      (in_map render Of x Hin)). lia.
    + pose proof (length_joinComma_count (map render Of)) as Hc.
      rewrite length_map in Hc. lia.
    + discriminate.
  - (* uc *)
    apply andb_true_iff in Hg. destruct Hg as [Hg Hsig].
    apply andb_true_iff in Hg. destruct Hg as [Ht Hkeys].
    destruct fuel as [|fuel]; [cbn in Hf; lia|].
    cbn [render] in *. rewrite <- !app_assoc.
    replace (joinComma keys) with (joinComma (map (fun k => k) keys)) in *
      by now rewrite map_id.
    change (lit "uc(" ++ t ++ lit ",[" ++ joinComma (map (fun k => k) keys)
            ++ lit "]," ++ n ++ lit ")" ++ y)
      with (lit "uc" ++ "("%char :: t ++ ","%char :: "["%char
            :: joinComma (map (fun k => k) keys) ++ "]"%char
            :: ","%char :: n ++ ")"%char :: y).
    cbn [parseSpendPolicy].
    rewrite nextToken_token by reflexivity. trim_norm. eval_typ.
    rewrite consume_plain by reflexivity. cbn [snd]. trim_norm.
    rewrite (parseInt_numeral 64) by (try assumption; try reflexivity; lia).
    rewrite consume_plain by reflexivity. cbn [snd]. trim_norm.
    rewrite consume_plain by reflexivity. cbn [snd]. trim_norm.
    rewrite !length_app in Hf. cbn [lit list_ascii_of_string length] in Hf.
    pose proof (listLoop_items (fun st => Some (parsePubkey st)) (fun k => k)
                  unhex false
                  (","%char :: n ++ ")"%char :: strings.trimRight y)
                  keys (S fuel)) as HL.
    cbn [app] in HL. rewrite HL; clear HL.
    + rewrite consume_plain by reflexivity. cbn [snd fst]. trim_norm.
      rewrite consume_plain by reflexivity. cbn [snd]. trim_norm.
      rewrite (parseInt_numeral 8) by (try assumption; try reflexivity; lia).
      cbn [fst snd].
      rewrite consume_plain by reflexivity. cbn [snd]. trim_norm.
      cbn [policy_of]. now rewrite numeral_mod.
    + now trim_norm.
    + intros x Hin. rewrite forallb_forall in Hkeys.
      split; [|now apply hex_key_head, Hkeys].
      intros d m Hd. rewrite parsePubkey_key by (try apply Hkeys; assumption).
      now rewrite trimRight_cons by now apply is_delim_plain.
    + pose proof (length_joinComma_count (map (fun k => k) keys)) as Hc.
      rewrite length_map in Hc. lia.
    + discriminate.
Qed.

Lemma ParseSpendPolicy_render w y : grammar_text w = true ->
  ParseSpendPolicy (render w ++ y)
  = Some (policy_of w,
          match strings.trimRight y with
          | [] => None
          | _ :: _ => Some (ErrTrailing (strings.trimRight y))
          end).
Proof.
  intros Hg. unfold ParseSpendPolicy.
  rewrite parse_render by (try assumption; rewrite length_app; lia).
  cbn [err s]. now destruct (strings.trimRight y).
Qed.

(** ** The writer prints a text of the grammar *)

Lemma SpendPolicy_nested_ind (P : SpendPolicy -> Prop) :
  P NoPolicy ->
  (forall h, P (PolicyAbove h)) ->
  (forall pk, P (PolicyPublicKey pk)) ->
  (forall n Of, Forall P Of -> P (PolicyThreshold n Of)) ->
  (forall uc, P (PolicyUnlockConditions uc)) ->
  forall p, P p.
Proof.
  intros H0 Ha Hk Ht Hu.
  refine (fix F (p : SpendPolicy) : P p :=
            match p with
            | NoPolicy => H0
            | PolicyAbove h => Ha h
            | PolicyPublicKey pk => Hk pk
            | PolicyThreshold n Of =>
                Ht n Of
                  ((fix G (l : list SpendPolicy) : Forall P l :=
                      match l with
                      | [] => Forall_nil P
                      | x :: r => Forall_cons x (F x) (G r)
                      end) Of)
            | PolicyUnlockConditions uc => Hu uc
            end).
Qed.

Lemma map_ext_Forall {A B : Type} (f g : A -> B) l :
  Forall (fun x => f x = g x) l -> map f l = map g l.
Proof. induction 1; cbn [map]; congruence. Qed.

Lemma render_text_of : forall p, wf_policy p = true ->
  render (text_of p) = SpendPolicy_String p.
Proof.
  induction p as [|h|pk|n Of IH|uc] using SpendPolicy_nested_ind;
    intros Hwf; cbn [wf_policy] in Hwf; try discriminate; try reflexivity.
  apply andb_true_iff in Hwf. destruct Hwf as [_ HOf].
  cbn [text_of render SpendPolicy_String]. rewrite map_map.
  do 5 f_equal. apply map_ext_Forall.
  rewrite Forall_forall in *. rewrite forallb_forall in HOf.
  intros x Hx. now apply IH, HOf.
Qed.

Lemma canonical_text_of : forall p, wf_policy p = true ->
  canonical_text (text_of p) = true.
Proof.
  unfold canonical_text.
  induction p as [|h|pk|n Of IH|uc] using SpendPolicy_nested_ind;
    intros Hwf; cbn [wf_policy] in Hwf; try discriminate;
    cbn [text_of text_ok].
  - apply N.ltb_lt in Hwf. apply (FormatUint_canonical 64); [lia|assumption].
  - apply hex_key_EncodeToString. now apply Nat.eqb_eq.
  - apply andb_true_iff in Hwf. destruct Hwf as [Hn HOf].
    apply N.ltb_lt in Hn. apply andb_true_iff. split.
    + apply (FormatUint_canonical 8); [lia|assumption].
    + rewrite forallb_forall in *. rewrite Forall_forall in IH.
      intros w Hw. apply in_map_iff in Hw. destruct Hw as (x & <- & Hx).
      now apply IH, HOf.
  - apply andb_true_iff in Hwf. destruct Hwf as [Hwf Hs].
    apply andb_true_iff in Hwf. destruct Hwf as [Ht Hk].
    apply N.ltb_lt in Ht, Hs. rewrite !andb_true_iff. repeat split.
    + apply (FormatUint_canonical 64); [lia|assumption].
    + rewrite forallb_forall in *.
      intros k Hin. apply in_map_iff in Hin. destruct Hin as (x & <- & Hx).
      apply hex_key_EncodeToString. now apply Nat.eqb_eq, Hk.
    + apply (FormatUint_canonical 8); [lia|assumption].
Qed.

Lemma text_ok_mono (num1 num2 : N -> text -> bool) :
  (forall b t, num1 b t = true -> num2 b t = true) ->
  forall w, text_ok num1 w = true -> text_ok num2 w = true.
Proof.
  intros Hn.
  induction w as [h|k|n Of IH|t keys n] using ptext_nested_ind;
    cbn [text_ok]; intros H.
  - now apply Hn.
  - assumption.
  - apply andb_true_iff in H. destruct H as [H1 H2].
    apply andb_true_iff. split; [now apply Hn|].
    rewrite forallb_forall in *. rewrite Forall_forall in IH.
    intros x Hx. now apply IH, H2.
  - apply andb_true_iff in H. destruct H as [H Hs].
    apply andb_true_iff in H. destruct H as [Ht Hk].
    rewrite !andb_true_iff. repeat split; try assumption; now apply Hn.
Qed.

Lemma canonical_grammar w : canonical_text w = true -> grammar_text w = true.
Proof. apply text_ok_mono. apply canonical_numeral_numeral. Qed.

Lemma policy_of_text_of : forall p, wf_policy p = true ->
  policy_of (text_of p) = p.
Proof.
  induction p as [|h|pk|n Of IH|uc] using SpendPolicy_nested_ind;
    intros Hwf; cbn [wf_policy] in Hwf; try discriminate;
    cbn [text_of policy_of].
  - apply N.ltb_lt in Hwf.
    now rewrite (proj2 (FormatUint_canonical 64 h ltac:(lia) Hwf)).
  - now rewrite unhex_EncodeToString.
  - apply andb_true_iff in Hwf. destruct Hwf as [Hn HOf].
    apply N.ltb_lt in Hn.
    rewrite (proj2 (FormatUint_canonical 8 n ltac:(lia) Hn)). f_equal.
    rewrite map_map. rewrite <- (map_id Of) at 2. apply map_ext_Forall.
    rewrite Forall_forall in *. rewrite forallb_forall in HOf.
    intros x Hx. now apply IH, HOf.
  - apply andb_true_iff in Hwf. destruct Hwf as [Hwf Hs].
    apply andb_true_iff in Hwf. destruct Hwf as [Ht Hk].
    apply N.ltb_lt in Ht, Hs.
    rewrite (proj2 (FormatUint_canonical 64 _ ltac:(lia) Ht)).
    rewrite (proj2 (FormatUint_canonical 8 _ ltac:(lia) Hs)).
    rewrite map_map.
    rewrite (map_ext _ (fun k => k) (fun k => unhex_EncodeToString k)).
    rewrite map_id. now destruct uc.
Qed.

(** ** The round trip from policies *)

Lemma parse_printed p : wf_policy p = true ->
  ParseSpendPolicy (SpendPolicy_String p) = Some (p, None).
Proof.
  intros Hwf. rewrite <- (render_text_of p Hwf).
  rewrite <- (app_nil_r (render (text_of p))).
  rewrite ParseSpendPolicy_render
    by now apply canonical_grammar, canonical_text_of.
  f_equal. f_equal. now apply policy_of_text_of.
Qed.

(** C1. For every policy [p] built by the constructors of the algebra
    (heights and timelocks of 64 bits, counts of 8 bits, keys of 32 bytes,
    thresholds nested to any depth, the unlock-conditions variant
    included), parsing the text [String] prints for [p] succeeds and gives
    [p] back. *)
Theorem ParseSpendPolicy_String : forall p, wf_policy p = true ->
  ParseSpendPolicy (SpendPolicy_String p) = Some (p, None).
Proof.
  intros p Hwf.
  rewrite <- (render_text_of p Hwf), <- (app_nil_r (render (text_of p))).
  rewrite ParseSpendPolicy_render
    by now apply canonical_grammar, canonical_text_of.
  now rewrite policy_of_text_of.
Qed.

Lemma ParseSpendPolicy_String_witness :
  ParseSpendPolicy (SpendPolicy_String sample_policy)
  = Some (sample_policy, None).
Proof. apply (ParseSpendPolicy_String sample_policy). reflexivity. Defined.

(** ** The round trip from texts *)

Lemma lower_hex_digit c : is_digit c = true -> lower_hex c = c.
Proof. by_ascii c. Qed.

Lemma map_lower_hex_numeral bits t :
  numeral bits t = true -> map lower_hex t = t.
Proof.
  intros H. destruct (numeral_inv _ _ H) as (_ & Hd & _). clear H.
  induction t as [|c t IH]; [reflexivity|].
  cbn [forallb] in Hd. apply andb_true_iff in Hd. destruct Hd as [Hc Hd].
  cbn [map]. now rewrite lower_hex_digit, IH.
Qed.

Lemma map_joinComma (f : ascii -> ascii) (parts : list text) :
  f ","%char = ","%char ->
  map f (joinComma parts) = joinComma (map (map f) parts).
Proof.
  intros Hf. destruct parts as [|p parts]; [reflexivity|].
  cbn [joinComma map]. rewrite map_app. f_equal.
  induction parts as [|q parts IH]; [reflexivity|].
  cbn [flat_map map]. rewrite map_app, IH. f_equal.
  cbn [lit list_ascii_of_string app map]. now rewrite Hf.
Qed.

Lemma String_policy_of : forall w, canonical_text w = true ->
  SpendPolicy_String (policy_of w) = map lower_hex (render w).
Proof.
  unfold canonical_text.
  induction w as [h|k|n Of IH|t keys n] using ptext_nested_ind;
    cbn [text_ok]; intros H; cbn [policy_of SpendPolicy_String render];
    rewrite ?map_app.
  - rewrite (FormatUint_canonical_numeral 64) by (try assumption; lia).
    rewrite (map_lower_hex_numeral 64 h)
      by now apply canonical_numeral_numeral.
    reflexivity.
  - unfold hex_key in H. apply andb_true_iff in H. destruct H as [Hl Hh].
    apply Nat.eqb_eq in Hl.
    rewrite EncodeToString_unhex by (try assumption; now rewrite Hl).
    reflexivity.
  - apply andb_true_iff in H. destruct H as [Hn HOf].
    rewrite (FormatUint_canonical_numeral 8) by (try assumption; lia).
    rewrite (map_lower_hex_numeral 8 n) by now apply canonical_numeral_numeral.
    rewrite map_joinComma by reflexivity. rewrite !map_map.
    rewrite (map_ext_Forall (fun x => SpendPolicy_String (policy_of x))
               (fun x => map lower_hex (render x)) Of).
    + reflexivity.
    + rewrite Forall_forall in *. rewrite forallb_forall in HOf.
      intros x Hx. now apply IH, HOf.
  - apply andb_true_iff in H. destruct H as [H Hs].
    apply andb_true_iff in H. destruct H as [Ht Hk].
    cbn [Timelock PublicKeys SignaturesRequired].
    rewrite (FormatUint_canonical_numeral 64) by (try assumption; lia).
    rewrite (FormatUint_canonical_numeral 8) by (try assumption; lia).
    rewrite (map_lower_hex_numeral 64 t)
      by now apply canonical_numeral_numeral.
    rewrite (map_lower_hex_numeral 8 n) by now apply canonical_numeral_numeral.
    rewrite map_joinComma by reflexivity. rewrite !map_map.
    rewrite (map_ext_Forall (fun k => hex.EncodeToString (unhex k))
               (fun k => map lower_hex k) keys).
    + reflexivity.
    + rewrite Forall_forall. rewrite forallb_forall in Hk.
      intros k Hin. specialize (Hk k Hin). unfold hex_key in Hk.
      apply andb_true_iff in Hk. destruct Hk as [Hl Hh].
      apply Nat.eqb_eq in Hl.
      apply EncodeToString_unhex; [assumption|now rewrite Hl].
Qed.

(** C2, as amended. For every text of the grammar whose numerals carry no
    leading zero (and which, like every text [render] builds, has no white
    space and no trailing comma), parsing succeeds and [String] prints the
    text back with its hex digits in lower case. *)
Theorem String_ParseSpendPolicy_canonical : forall w,
  canonical_text w = true ->
  ParseSpendPolicy (render w) = Some (policy_of w, None)
  /\ SpendPolicy_String (policy_of w) = map lower_hex (render w).
Proof.
  intros w H. split; [|now apply String_policy_of].
  rewrite <- (app_nil_r (render w)).
  now rewrite ParseSpendPolicy_render by now apply canonical_grammar.
Qed.

Lemma String_ParseSpendPolicy_canonical_witness :
  ParseSpendPolicy (render sample_text) = Some (policy_of sample_text, None)
  /\ SpendPolicy_String (policy_of sample_text)
     = map lower_hex (render sample_text).
Proof. apply (String_ParseSpendPolicy_canonical sample_text). reflexivity. Defined.

(** C2, as stated, fails. [above(007)] is a text of the grammar (its
    height is an unsigned integer below the 64-bit ceiling) and it parses,
    to [above(7)]; [above( 5)], with white space before a token, parses to
    [above(5)]. In both cases [String] prints a text that is not the input
    with its hex digits lowered, so no policy meets the claim for
    [above(007)]. *)
Lemma String_ParseSpendPolicy_counterexample :
  grammar_text (TAbove (lit "007")) = true
  /\ render (TAbove (lit "007")) = lit "above(007)"
  /\ ParseSpendPolicy (lit "above(007)") = Some (PolicyAbove 7, None)
  /\ SpendPolicy_String (PolicyAbove 7) = lit "above(7)"
  /\ map lower_hex (lit "above(007)") = lit "above(007)"
  /\ ParseSpendPolicy (lit "above( 5)") = Some (PolicyAbove 5, None)
  /\ SpendPolicy_String (PolicyAbove 5) = lit "above(5)"
  /\ map lower_hex (lit "above( 5)") = lit "above( 5)"
  /\ ~ (forall w, grammar_text w = true ->
          exists p, ParseSpendPolicy (render w) = Some (p, None)
                    /\ SpendPolicy_String p = map lower_hex (render w)).
Proof.
  do 8 (split; [vm_compute; reflexivity|]).
  intros H. destruct (H (TAbove (lit "007")) eq_refl) as (p & Hp & Hs).
  vm_compute in Hp. injection Hp as <-. vm_compute in Hs. discriminate Hs.
Qed.

(** ** Trailing input *)

(** C7. Whenever the top-level policy has been parsed without error and
    input is left, [ParseSpendPolicy] returns the trailing-bytes error with
    what is left; so does every text of the grammar followed by anything
    but white space. *)
Theorem trailing_bytes_rejected :
  (forall input p st,
     parseSpendPolicy (length input + 2) {| s := input; err := None |}
     = Some (p, st) ->
     err st = None -> s st <> [] ->
     ParseSpendPolicy input = Some (p, Some (ErrTrailing (s st))))
  /\ (forall w y, grammar_text w = true -> strings.trimRight y <> [] ->
        ParseSpendPolicy (render w ++ y)
        = Some (policy_of w, Some (ErrTrailing (strings.trimRight y)))).
Proof.
  split.
  - intros input p st Hp He Hs. unfold ParseSpendPolicy. rewrite Hp, He.
    destruct (s st); [congruence|reflexivity].
  - intros w y Hg Hy. rewrite ParseSpendPolicy_render by assumption.
    destruct (strings.trimRight y); [congruence|reflexivity].
Qed.

Lemma trailing_bytes_rejected_witness :
  ParseSpendPolicy (lit "above(5)xyz")
  = Some (PolicyAbove 5, Some (ErrTrailing (lit "xyz")))
  /\ ParseSpendPolicy (lit "above(5)xyz")
     = Some (policy_of (TAbove (lit "5")),
             Some (ErrTrailing (strings.trimRight (lit "xyz")))).
Proof.
  split.
  - apply (proj1 trailing_bytes_rejected (lit "above(5)xyz") (PolicyAbove 5)
             {| s := lit "xyz"; err := None |}).
    + vm_compute. reflexivity.
    + reflexivity.
    + discriminate.
  - apply (proj2 trailing_bytes_rejected (TAbove (lit "5")) (lit "xyz")).
    + reflexivity.
    + discriminate.
Defined.

(** ** A trailing comma *)

Lemma add2 n : (n + 2 = S (S n))%nat.
Proof. lia. Qed.

Lemma parse_thresh_trailing n Of fuel y :
  grammar_text (TThreshold n Of) = true -> Of <> [] ->
  (length (render (TThreshold n Of)) <= fuel)%nat ->
  parseSpendPolicy fuel
    {| s := lit "thresh(" ++ n ++ lit ",[" ++ joinComma (map render Of)
            ++ lit ",])" ++ y;
       err := None |}
  = Some (policy_of (TThreshold n Of),
          {| s := strings.trimRight y; err := None |}).
Proof.
  intros Hg Hne Hf. cbn [grammar_text text_ok] in Hg.
  apply andb_true_iff in Hg. destruct Hg as [Hn HOf].
  destruct fuel as [|fuel]; [cbn in Hf; lia|].
  cbn [render] in Hf.
  change (lit "thresh(" ++ n ++ lit ",[" ++ joinComma (map render Of)
          ++ lit ",])" ++ y)
    with (lit "thresh" ++ "("%char :: n ++ ","%char :: "["%char
          :: joinComma (map render Of) ++ ","%char :: "]"%char
          :: ")"%char :: y).
  cbn [parseSpendPolicy].
  rewrite nextToken_token by reflexivity. trim_norm. eval_typ.
  rewrite consume_plain by reflexivity. cbn [snd]. trim_norm.
  rewrite (parseInt_numeral 8) by (try assumption; try reflexivity; lia).
  rewrite consume_plain by reflexivity. cbn [snd]. trim_norm.
  rewrite consume_plain by reflexivity. cbn [snd]. trim_norm.
  rewrite !length_app in Hf. cbn [lit list_ascii_of_string length] in Hf.
  pose proof (listLoop_items (parseSpendPolicy fuel) render policy_of true
                (")"%char :: strings.trimRight y) Of (S fuel)) as HL.
  cbn [app] in HL. rewrite HL; clear HL.
  - rewrite consume_plain by reflexivity. cbn [snd fst]. trim_norm.
    rewrite consume_plain by reflexivity. cbn [snd]. trim_norm.
    cbn [policy_of]. now rewrite numeral_mod.
  - now trim_norm.
  - intros x Hin. split; [|apply render_head].
    intros d m _. apply parse_render.
    + rewrite forallb_forall in HOf. now apply HOf.
    + pose proof (length_joinComma_in (map render Of) (render x)
                    (in_map render Of x Hin)). lia.
  - pose proof (length_joinComma_count (map render Of)) as Hc.
    rewrite length_map in Hc. lia.
  - intros _. assumption.
Qed.

Lemma parse_uc_trailing t keys n fuel y :
  grammar_text (TUnlockConditions t keys n) = true -> keys <> [] ->
  (length (render (TUnlockConditions t keys n)) <= fuel)%nat ->
  parseSpendPolicy fuel
    {| s := lit "uc(" ++ t ++ lit ",[" ++ joinComma keys
            ++ lit ",]," ++ n ++ lit ")" ++ y;
       err := None |}
  = Some (policy_of (TUnlockConditions t keys n),
          {| s := strings.trimRight y; err := None |}).
Proof.
  intros Hg Hne Hf. cbn [grammar_text text_ok] in Hg.
  apply andb_true_iff in Hg. destruct Hg as [Hg Hsig].
  apply andb_true_iff in Hg. destruct Hg as [Ht Hkeys].
  destruct fuel as [|fuel]; [cbn in Hf; lia|].
  cbn [render] in Hf.
  replace (joinComma keys) with (joinComma (map (fun k => k) keys)) in *
    by now rewrite map_id.
  change (lit "uc(" ++ t ++ lit ",[" ++ joinComma (map (fun k => k) keys)
          ++ lit ",]," ++ n ++ lit ")" ++ y)
    with (lit "uc" ++ "("%char :: t ++ ","%char :: "["%char
          :: joinComma (map (fun k => k) keys) ++ ","%char :: "]"%char
          :: ","%char :: n ++ ")"%char :: y).
  cbn [parseSpendPolicy].
  rewrite nextToken_token by reflexivity. trim_norm. eval_typ.
  rewrite consume_plain by reflexivity. cbn [snd]. trim_norm.
  rewrite (parseInt_numeral 64) by (try assumption; try reflexivity; lia).
  rewrite consume_plain by reflexivity. cbn [snd]. trim_norm.
  rewrite consume_plain by reflexivity. cbn [snd]. trim_norm.
  rewrite !length_app in Hf. cbn [lit list_ascii_of_string length] in Hf.
  pose proof (listLoop_items (fun st => Some (parsePubkey st)) (fun k => k)
                unhex true
                (","%char :: n ++ ")"%char :: strings.trimRight y)
                keys (S fuel)) as HL.
  cbn [app] in HL. rewrite HL; clear HL.
  - rewrite consume_plain by reflexivity. cbn [snd fst]. trim_norm.
    rewrite consume_plain by reflexivity. cbn [snd]. trim_norm.
    rewrite (parseInt_numeral 8) by (try assumption; try reflexivity; lia).
    cbn [fst snd].
    rewrite consume_plain by reflexivity. cbn [snd]. trim_norm.
    cbn [policy_of]. now rewrite numeral_mod.
  - now trim_norm.
  - intros x Hin. rewrite forallb_forall in Hkeys.
    split; [|now apply hex_key_head, Hkeys].
    intros d m Hd. rewrite parsePubkey_key by (try apply Hkeys; assumption).
    now rewrite trimRight_cons by now apply is_delim_plain.
  - pose proof (length_joinComma_count (map (fun k => k) keys)) as Hc.
    rewrite length_map in Hc. lia.
  - intros _. assumption.
Qed.

(** C10. One comma before the closing bracket of a list that is not empty
    is accepted, in a threshold and in unlock conditions, and the policy is
    the one of the text without it; [thresh(1,[above(1),])] is such an
    input, and no policy of the algebra is printed that way. *)
Theorem trailing_comma_accepted :
  (forall n Of, grammar_text (TThreshold n Of) = true -> Of <> [] ->
     ParseSpendPolicy
       (lit "thresh(" ++ n ++ lit ",[" ++ joinComma (map render Of)
        ++ lit ",])")
     = ParseSpendPolicy (render (TThreshold n Of))
     /\ ParseSpendPolicy (render (TThreshold n Of))
        = Some (policy_of (TThreshold n Of), None))
  /\ (forall t keys n,
        grammar_text (TUnlockConditions t keys n) = true -> keys <> [] ->
        ParseSpendPolicy
          (lit "uc(" ++ t ++ lit ",[" ++ joinComma keys ++ lit ",],"
           ++ n ++ lit ")")
        = ParseSpendPolicy (render (TUnlockConditions t keys n))
        /\ ParseSpendPolicy (render (TUnlockConditions t keys n))
           = Some (policy_of (TUnlockConditions t keys n), None))
  /\ ParseSpendPolicy (lit "thresh(1,[above(1),])")
     = Some (PolicyThreshold 1 [PolicyAbove 1], None)
  /\ (forall p, wf_policy p = true ->
        SpendPolicy_String p <> lit "thresh(1,[above(1),])").
Proof.
  assert (Hcanon : forall w, grammar_text w = true ->
            ParseSpendPolicy (render w) = Some (policy_of w, None)).
  { intros w Hg. rewrite <- (app_nil_r (render w)).
    now rewrite ParseSpendPolicy_render. }
  split; [|split; [|split]].
  - intros n Of H Hne. split; [|now apply Hcanon].
    rewrite (Hcanon _ H). unfold ParseSpendPolicy.
    rewrite <- (app_nil_r (lit ",])")).
    rewrite parse_thresh_trailing; try assumption; [reflexivity|].
    cbn [render]. rewrite !length_app.
    cbn [lit list_ascii_of_string length]. lia.
  - intros t keys n H Hne. split; [|now apply Hcanon].
    rewrite (Hcanon _ H). unfold ParseSpendPolicy.
    rewrite <- (app_nil_r (lit ")")).
    rewrite parse_uc_trailing; try assumption; [reflexivity|].
    cbn [render]. rewrite !length_app.
    cbn [lit list_ascii_of_string length]. lia.
  - vm_compute. reflexivity.
  - intros p Hwf E. pose proof (parse_printed p Hwf) as Hp.
    rewrite E in Hp. vm_compute in Hp. injection Hp as <-.
    vm_compute in E. discriminate E.
Qed.

Lemma trailing_comma_accepted_witness :
  ParseSpendPolicy (lit "thresh(1,[above(1),])")
  = ParseSpendPolicy (lit "thresh(1,[above(1)])")
  /\ ParseSpendPolicy
       (lit "uc(0,[00112233445566778899aabbccddeeff00112233445566778899aabbccddeeff,],1)")
     = ParseSpendPolicy
         (lit "uc(0,[00112233445566778899aabbccddeeff00112233445566778899aabbccddeeff],1)")
  /\ SpendPolicy_String (PolicyThreshold 1 [PolicyAbove 1])
     <> lit "thresh(1,[above(1),])".
Proof.
  split; [|split].
  - apply (proj1 (proj1 trailing_comma_accepted (lit "1") [TAbove (lit "1")]
                    eq_refl ltac:(discriminate))).
  - apply (proj1 (proj1 (proj2 trailing_comma_accepted) (lit "0")
                    [lit "00112233445566778899aabbccddeeff00112233445566778899aabbccddeeff"]
                    (lit "1") eq_refl ltac:(discriminate))).
  - apply (proj2 (proj2 (proj2 trailing_comma_accepted))
             (PolicyThreshold 1 [PolicyAbove 1]) eq_refl).
Defined.

(** ** Numeric ceilings *)

Lemma ParseUint_range t bits :
  t <> [] -> forallb is_digit t = true -> bits <= 64 ->
  2 ^ bits <= decimal_value t ->
  strconv.ParseUint t bits = (2 ^ bits - 1, Some strconv.ErrRange).
Proof.
  intros Hne Hd Hb Hv. rewrite ParseUint_digits by assumption.
  destruct (N.ltb_spec (decimal_value t) (2 ^ bits)); [lia|reflexivity].
Qed.

Lemma is_digit_tokchars t : forallb is_digit t = true ->
  forallb tokchar t = true.
Proof.
  rewrite !forallb_forall. intros H c Hc. now apply is_digit_tokchar, H.
Qed.

Lemma parseInt_range bits t d y :
  t <> [] -> forallb is_digit t = true -> bits <= 64 ->
  2 ^ bits <= decimal_value t -> is_delim d = true ->
  parseInt bits {| s := t ++ d :: y; err := None |}
  = (2 ^ bits - 1,
     {| s := d :: strings.trimRight y;
        err := Some (ErrNum t strconv.ErrRange) |}).
Proof.
  intros Hne Hd Hb Hv Hdl. unfold parseInt, bind.
  rewrite nextToken_token by (try apply is_digit_tokchars; assumption).
  cbn [s err]. now rewrite ParseUint_range.
Qed.

(** Once the sticky error is set, no step changes it. *)
Lemma nextToken_sticky st e : err st = Some e ->
  nextToken st = ([], {| s := strings.TrimSpace (s st); err := Some e |}).
Proof. intros H. unfold nextToken. now rewrite H. Qed.

Lemma consume_sticky b st e : err st = Some e -> consume b st = (tt, st).
Proof. intros H. unfold consume. now rewrite H. Qed.

Lemma parseInt_sticky bits st e : err st = Some e ->
  parseInt bits st
  = (0, {| s := strings.TrimSpace (s st); err := Some e |}).
Proof.
  intros H. unfold parseInt, bind. now rewrite (nextToken_sticky st e H).
Qed.

Lemma parsePubkey_sticky st e : err st = Some e ->
  parsePubkey st
  = (zero_bytes 32, {| s := strings.TrimSpace (s st); err := Some e |}).
Proof.
  intros H. unfold parsePubkey, bind. now rewrite (nextToken_sticky st e H).
Qed.

Lemma parseSpendPolicy_sticky fuel st e : err st = Some e ->
  parseSpendPolicy (S fuel) st
  = Some (NoPolicy, {| s := strings.TrimSpace (s st); err := Some e |}).
Proof.
  intros H. cbn [parseSpendPolicy].
  rewrite (nextToken_sticky st e H). reflexivity.
Qed.

Lemma listLoop_sticky {A} (item : pstate -> option (A * pstate)) fuel acc st e :
  err st = Some e -> listLoop item (S fuel) acc st = Some (acc, st).
Proof. intros H. cbn [listLoop]. now rewrite H. Qed.

Ltac sticky_steps :=
  repeat first
    [ rewrite (consume_sticky _ _ _ eq_refl)
    | rewrite (listLoop_sticky _ _ _ _ _ eq_refl)
    | rewrite (parseInt_sticky _ _ _ eq_refl)
    | progress cbn [fst snd s err] ].

Ltac trim_delim :=
  repeat first
    [ rewrite trimRight_idem
    | rewrite trimRight_cons
        by (first [reflexivity | apply is_delim_plain; assumption])
    | rewrite trimRight_mid
        by (first [reflexivity | apply is_delim_plain; assumption]) ].

(** ** A bad token at any depth *)

Lemma parsePubkey_length t d y :
  forallb tokchar t = true -> length t <> 64%nat -> is_delim d = true ->
  parsePubkey {| s := t ++ d :: y; err := None |}
  = (zero_bytes 32,
     {| s := d :: strings.trimRight y;
        err := Some (ErrPubkeyLength (length t)) |}).
Proof.
  intros Ht Hl Hd. unfold parsePubkey, bind.
  rewrite nextToken_token by assumption. cbn [s err].
  apply Nat.eqb_neq in Hl. now rewrite Hl.
Qed.

(** ** The first bad token decides the error *)

Lemma first_of_map_split {A} (f : A -> option error) : forall xs tail e,
  first_of (map f xs ++ tail) = Some e ->
  (exists good bad rest,
     xs = good ++ bad :: rest
     /\ (forall x, In x good -> f x = None) /\ f bad = Some e)
  \/ ((forall x, In x xs -> f x = None) /\ first_of tail = Some e).
Proof.
  induction xs as [|x xs IH]; intros tail e H; cbn [map app] in H.
  - right. split; [intros x []|assumption].
  - cbn [first_of] in H. destruct (f x) as [e'|] eqn:E.
    + injection H as ->. left. exists [], x, xs.
      split; [reflexivity|]. split; [intros y []|assumption].
    + destruct (IH tail e H) as [(good & bad & rest & -> & Hg & Hb)|[Hg Ht]].
      * left. exists (x :: good), bad, rest.
        split; [reflexivity|]. split; [|assumption].
        intros y [<-|Hy]; auto.
      * right. split; [|assumption]. intros y [<-|Hy]; auto.
Qed.

Lemma first_of_none : forall l, first_of l = None ->
  forall o, In o l -> o = None.
Proof.
  induction l as [|[e|] l IH]; intros H o Hin; cbn [first_of] in H.
  - destruct Hin.
  - discriminate.
  - destruct Hin as [<-|Hin]; auto.
Qed.

Lemma digits_token_inv t : digits_token t = true ->
  t <> [] /\ forallb is_digit t = true.
Proof. destruct t; [discriminate|]. intros H. now split. Qed.

Lemma digits_numeral bits t :
  digits_token t = true -> num_error bits t = None -> numeral bits t = true.
Proof.
  unfold num_error, numeral. intros Hd.
  destruct (digits_token_inv t Hd) as [Hne Hdig].
  destruct t; [congruence|]. rewrite Hdig.
  destruct (decimal_value _ <? _); [reflexivity|discriminate].
Qed.

Lemma num_error_range bits t e : num_error bits t = Some e ->
  2 ^ bits <= decimal_value t /\ e = ErrNum t strconv.ErrRange.
Proof.
  unfold num_error.
  destruct (N.ltb_spec (decimal_value t) (2 ^ bits)); [discriminate|].
  intros [= <-]. now split.
Qed.

Lemma key_token_inv k : key_token k = true ->
  k <> [] /\ forallb tokchar k = true
  /\ (key_error k = None -> hex_key k = true)
  /\ forall e, key_error k = Some e ->
       length k <> 64%nat /\ e = ErrPubkeyLength (length k).
Proof.
  unfold key_token, key_error. destruct k as [|c k]; [discriminate|].
  intros H. apply andb_true_iff in H. destruct H as [Ht Hk].
  split; [discriminate|]. split; [assumption|].
  destruct (Nat.eqb_spec (length (c :: k)) 64) as [Hl|Hl].
  - split; [|discriminate]. intros _.
    cbn [negb] in Hk. now rewrite orb_false_r in Hk.
  - split; [discriminate|]. intros e [= <-]. now split.
Qed.

Lemma key_token_head k : key_token k = true ->
  exists c r, k = c :: r /\ Ascii.eqb c "]" = false.
Proof.
  intros H. destruct (key_token_inv k H) as (Hne & Ht & _).
  destruct k as [|c k]; [congruence|]. exists c, k. split; [reflexivity|].
  cbn [forallb] in Ht. apply andb_true_iff in Ht. destruct Ht as [Hc _].
  revert Hc. by_ascii c.
Qed.

Lemma shape_grammar : forall w,
  shape_ok w = true -> first_error w = None -> grammar_text w = true.
Proof.
  induction w as [h|k|n Of IH|t keys n] using ptext_nested_ind;
    cbn [shape_ok first_error grammar_text text_ok]; intros Hs He.
  - now apply digits_numeral.
  - now apply key_token_inv.
  - apply andb_true_iff in Hs. destruct Hs as [Hn HOf].
    pose proof (first_of_none _ He) as Hnone.
    apply andb_true_iff. split.
    + apply digits_numeral; [assumption|]. apply Hnone. now left.
    + apply forallb_forall. intros x Hx. rewrite Forall_forall in IH.
      rewrite forallb_forall in HOf. apply IH; auto.
      apply Hnone. right. now apply in_map.
  - apply andb_true_iff in Hs. destruct Hs as [Hs Hn].
    apply andb_true_iff in Hs. destruct Hs as [Ht Hk].
    pose proof (first_of_none _ He) as Hnone.
    rewrite !andb_true_iff. repeat split.
    + apply digits_numeral; [assumption|]. apply Hnone. now left.
    + apply forallb_forall. intros x Hx. rewrite forallb_forall in Hk.
      apply (key_token_inv x (Hk x Hx)). apply Hnone. right.
      apply in_or_app. left. now apply in_map.
    + apply digits_numeral; [assumption|]. apply Hnone. right.
      apply in_or_app. right. now left.
Qed.

Lemma joinComma_cons2 (enc_x : text) u us :
  joinComma (enc_x :: u :: us) = enc_x ++ ","%char :: joinComma (u :: us).
Proof. reflexivity. Qed.

Section ListLoopError.

Context {A T : Type}.
Variable item : pstate -> option (A * pstate).
Variable enc : T -> text.
Variable val : T -> A.
Variable e : error.

(** The loop over a list whose element [bad] is the first that sets the
    error: the elements before it are read, and the loop ends with the
    error. *)
Lemma listLoop_bad bad rest : 
  (exists c r, enc bad = c :: r /\ Ascii.eqb c "]" = false) ->
  (forall d m, is_delim d = true ->
     exists x' st', item {| s := enc bad ++ d :: m; err := None |}
                    = Some (x', st') /\ err st' = Some e) ->
  forall good z fuel acc,
  (forall x', In x' good ->
     (forall d m, is_delim d = true ->
        item {| s := enc x' ++ d :: m; err := None |}
        = Some (val x', {| s := strings.trimRight (d :: m); err := None |}))
     /\ exists c r, enc x' = c :: r /\ Ascii.eqb c "]" = false) ->
  (length good + 2 <= fuel)%nat ->
  exists l st',
    listLoop item fuel acc
      {| s := joinComma (map enc (good ++ bad :: rest)) ++ "]"%char :: z;
         err := None |}
    = Some (l, st') /\ err st' = Some e.
Proof.
  intros (cb & rb & Hcb & Hnb) Hbad.
  induction good as [|g good IH]; intros z fuel acc Hgood Hf.
  - destruct fuel as [|fuel]; cbn [length] in Hf; try lia.
    cbn [app map]. cbn [listLoop err].
    assert (Htail : exists d m,
              joinComma (enc bad :: map enc rest) ++ "]"%char :: z
              = enc bad ++ d :: m /\ is_delim d = true).
    { destruct rest as [|r2 rest].
      - exists "]"%char, z. cbn [map joinComma flat_map].
        rewrite app_nil_r. now split.
      - cbn [map]. rewrite joinComma_cons2, <- app_assoc. cbn [app].
        eexists; eexists. split; reflexivity. }
    destruct Htail as (d & m & -> & Hd).
    assert (Hp : fst (peek {| s := enc bad ++ d :: m; err := None |}) = cb)
      by (rewrite Hcb; apply peek_head).
    rewrite Hp, Hnb.
    destruct (Hbad d m Hd) as (x' & st' & -> & He).
    unfold peek at 1. rewrite He. cbn [fst].
    change (Ascii.eqb zero "]") with false. cbn iota.
    rewrite (consume_sticky _ _ _ He). cbn [snd].
    destruct fuel as [|fuel]; [lia|]. cbn [listLoop]. rewrite He.
    now eexists; eexists.
  - destruct fuel as [|fuel]; cbn [length] in Hf; try lia.
    destruct (Hgood g (or_introl eq_refl)) as (Hit & c & r & Hc & Hne).
    assert (Hshape : exists u us, good ++ bad :: rest = u :: us).
    { destruct good; eexists; eexists; reflexivity. }
    destruct Hshape as (u & us & Eq).
    cbn [app map]. rewrite Eq. cbn [map].
    rewrite joinComma_cons2, <- app_assoc. cbn [app listLoop err].
    assert (Hp : forall y, fst (peek {| s := enc g ++ y; err := None |}) = c)
      by (intros y; rewrite Hc; apply peek_head).
    rewrite Hp, Hne, Hit by reflexivity.
    rewrite trimRight_cons by reflexivity.
    rewrite trimRight_mid by reflexivity.
    unfold peek at 1. cbn [s err fst].
    change (Ascii.eqb "," "]") with false. cbn iota.
    rewrite consume_plain by reflexivity. cbn [snd].
    rewrite trimRight_mid by reflexivity. rewrite trimRight_idem.
    change (enc u :: map enc us) with (map enc (u :: us)). rewrite <- Eq.
    apply IH; [|lia]. intros x' Hx'. apply Hgood. now right.
Qed.

End ListLoopError.

Lemma parse_bad : forall w, shape_ok w = true ->
  forall e, first_error w = Some e ->
  forall fuel y, (length (render w) <= fuel)%nat ->
  exists p st',
    parseSpendPolicy fuel {| s := render w ++ y; err := None |}
    = Some (p, st')
    /\ err st' = Some e.
Proof.
  induction w as [h|k|n Of IH|t keys n] using ptext_nested_ind;
    intros Hs e He fuel y Hf; cbn [shape_ok first_error] in Hs, He.
  - (* above *)
    destruct (digits_token_inv h Hs) as [Hne Hd].
    destruct (num_error_range _ _ _ He) as [Hv ->].
    destruct fuel as [|fuel]; [cbn in Hf; lia|].
    cbn [render]. rewrite <- !app_assoc.
    change (lit "above(" ++ h ++ lit ")" ++ y)
      with (lit "above" ++ "("%char :: h ++ ")"%char :: y).
    cbn [parseSpendPolicy].
    rewrite nextToken_token by reflexivity. trim_norm. eval_typ.
    rewrite consume_plain by reflexivity. cbn [snd]. trim_norm.
    rewrite (parseInt_range 64) by (try assumption; try reflexivity; lia).
    sticky_steps. now eexists; eexists.
  - (* pk *)
    destruct (key_token_inv k Hs) as (Hne & Ht & _ & Hbad).
    destruct (Hbad e He) as [Hl ->].
    destruct fuel as [|fuel]; [cbn in Hf; lia|].
    cbn [render]. rewrite <- !app_assoc.
    change (lit "pk(" ++ k ++ lit ")" ++ y)
      with (lit "pk" ++ "("%char :: k ++ ")"%char :: y).
    cbn [parseSpendPolicy].
    rewrite nextToken_token by reflexivity. trim_norm. eval_typ.
    rewrite consume_plain by reflexivity. cbn [snd]. trim_norm.
    rewrite parsePubkey_length by (try assumption; reflexivity).
    sticky_steps. now eexists; eexists.
  - (* thresh *)
    apply andb_true_iff in Hs. destruct Hs as [Hn HOf].
    destruct (digits_token_inv n Hn) as [Hne Hd].
    destruct fuel as [|fuel]; [cbn in Hf; lia|].
    cbn [render] in *. rewrite <- !app_assoc.
    change (lit "thresh(" ++ n ++ lit ",[" ++ joinComma (map render Of)
            ++ lit "])" ++ y)
      with (lit "thresh" ++ "("%char :: n ++ ","%char :: "["%char
            :: joinComma (map render Of) ++ "]"%char :: ")"%char :: y).
    cbn [parseSpendPolicy].
    rewrite nextToken_token by reflexivity. trim_norm. eval_typ.
    rewrite consume_plain by reflexivity. cbn [snd]. trim_norm.
    cbn [first_of] in He. destruct (num_error 8 n) as [e'|] eqn:En.
    { injection He as ->. destruct (num_error_range _ _ _ En) as [Hv ->].
      rewrite (parseInt_range 8) by (try assumption; try reflexivity; lia).
      sticky_steps. now eexists; eexists. }
    rewrite (parseInt_numeral 8)
      by (try (now apply digits_numeral); try reflexivity; lia).
    rewrite consume_plain by reflexivity. cbn [snd]. trim_norm.
    rewrite consume_plain by reflexivity. cbn [snd]. trim_norm.
    rewrite <- (app_nil_r (map first_error Of)) in He.
    destruct (first_of_map_split first_error Of [] e He)
      as [(good & bad & rest & -> & Hg & Hb)|[_ Hnil]]; [|discriminate].
    rewrite !length_app in Hf. cbn [lit list_ascii_of_string length] in Hf.
    rewrite forallb_forall in HOf. rewrite Forall_forall in IH.
    assert (Hin : In bad (good ++ bad :: rest))
      by (apply in_or_app; right; now left).
    assert (Hgin : forall x, In x good -> In x (good ++ bad :: rest))
      by (intros x Hx; apply in_or_app; now left).
    destruct (listLoop_bad (parseSpendPolicy fuel) render policy_of e bad rest)
      with (good := good) (z := ")"%char :: strings.trimRight y)
           (fuel := S fuel) (acc := @nil SpendPolicy)
      as (l & st' & HL & Hst).
    + apply render_head.
    + intros d m _. apply IH; [assumption|now apply HOf|assumption|].
      pose proof (length_joinComma_in (map render (good ++ bad :: rest))
                    (render bad) (in_map render _ bad Hin)).
      lia.
    + intros x Hx. split; [|apply render_head].
      intros d m _. apply parse_render.
      * apply shape_grammar; [|now apply Hg]. now apply HOf, Hgin.
      * pose proof (length_joinComma_in (map render (good ++ bad :: rest))
                      (render x) (in_map render _ x (Hgin x Hx))).
        lia.
    + pose proof (length_joinComma_count
                    (map render (good ++ bad :: rest))) as Hc.
      rewrite length_map, length_app in Hc. cbn [length] in Hc.
      destruct n; [congruence|]. cbn [length] in Hf. lia.
    + rewrite HL. rewrite (consume_sticky _ _ _ Hst). cbn [fst snd].
      rewrite (consume_sticky _ _ _ Hst). now eexists; eexists.
  - (* uc *)
    apply andb_true_iff in Hs. destruct Hs as [Hs Hsig].
    apply andb_true_iff in Hs. destruct Hs as [Ht Hkeys].
    destruct (digits_token_inv t Ht) as [Hne Hd].
    destruct (digits_token_inv n Hsig) as [Hnen Hdn].
    destruct fuel as [|fuel]; [cbn in Hf; lia|].
    cbn [render] in *. rewrite <- !app_assoc.
    replace (joinComma keys) with (joinComma (map (fun k => k) keys)) in *
      by now rewrite map_id.
    change (lit "uc(" ++ t ++ lit ",[" ++ joinComma (map (fun k => k) keys)
            ++ lit "]," ++ n ++ lit ")" ++ y)
      with (lit "uc" ++ "("%char :: t ++ ","%char :: "["%char
            :: joinComma (map (fun k => k) keys) ++ "]"%char
            :: ","%char :: n ++ ")"%char :: y).
    cbn [parseSpendPolicy].
    rewrite nextToken_token by reflexivity. trim_norm. eval_typ.
    rewrite consume_plain by reflexivity. cbn [snd]. trim_norm.
    cbn [first_of] in He. destruct (num_error 64 t) as [e'|] eqn:En.
    { injection He as ->. destruct (num_error_range _ _ _ En) as [Hv ->].
      rewrite (parseInt_range 64) by (try assumption; try reflexivity; lia).
      sticky_steps. now eexists; eexists. }
    rewrite (parseInt_numeral 64)
      by (try (now apply digits_numeral); try reflexivity; lia).
    rewrite consume_plain by reflexivity. cbn [snd]. trim_norm.
    rewrite consume_plain by reflexivity. cbn [snd]. trim_norm.
    rewrite !length_app in Hf. cbn [lit list_ascii_of_string length] in Hf.
    rewrite forallb_forall in Hkeys.
    destruct (first_of_map_split key_error keys [num_error 8 n] e He)
      as [(good & bad & rest & -> & Hg & Hb)|[Hg Hlast]].
    + destruct (key_token_inv bad) as (_ & Hbt & _ & Hbe).
      { apply Hkeys. apply in_or_app. right. now left. }
      destruct (Hbe e Hb) as [Hbl ->].
      destruct (listLoop_bad (fun st => Some (parsePubkey st)) (fun k => k)
                  unhex (ErrPubkeyLength (length bad)) bad rest)
        with (good := good)
             (z := ","%char :: n ++ ")"%char :: strings.trimRight y)
             (fuel := S fuel) (acc := @nil PublicKey)
        as (l & st' & HL & Hst).
      * apply key_token_head, Hkeys. apply in_or_app. right. now left.
      * intros d m Hdm. rewrite parsePubkey_length by assumption.
        now eexists; eexists.
      * intros x Hx.
        assert (Hxk : key_token x = true)
          by (apply Hkeys; apply in_or_app; now left).
        split; [|now apply key_token_head].
        intros d m Hdm.
        rewrite parsePubkey_key
          by (try assumption; apply (key_token_inv x Hxk); now apply Hg).
        now rewrite trimRight_cons by now apply is_delim_plain.
      * pose proof (length_joinComma_count
                      (map (fun k : text => k) (good ++ bad :: rest))) as Hc.
        rewrite length_map, length_app in Hc. cbn [length] in Hc.
        destruct t; [congruence|]. cbn [length] in Hf. lia.
      * unfold text in HL |- *. rewrite HL.
        rewrite (consume_sticky _ _ _ Hst). cbn [fst snd].
        rewrite (consume_sticky _ _ _ Hst).
        rewrite (parseInt_sticky _ _ _ Hst). cbn [fst snd].
        erewrite consume_sticky by reflexivity. now eexists; eexists.
    + cbn [first_of] in Hlast. destruct (num_error 8 n) as [e'|] eqn:En8;
        [|discriminate].
      injection Hlast as ->.
      destruct (num_error_range _ _ _ En8) as [Hv ->].
      pose proof (listLoop_items (fun st => Some (parsePubkey st))
                    (fun k => k) unhex false
                    (","%char :: n ++ ")"%char :: strings.trimRight y)
                    keys (S fuel)) as HL.
      cbn [app] in HL. unfold text in HL |- *. rewrite HL; clear HL.
      * rewrite consume_plain by reflexivity. cbn [snd fst]. trim_norm.
        rewrite consume_plain by reflexivity. cbn [snd]. trim_norm.
        rewrite (parseInt_range 8) by (try assumption; try reflexivity; lia).
        sticky_steps. now eexists; eexists.
      * now trim_norm.
      * intros x Hx.
        assert (Hxk : key_token x = true) by now apply Hkeys.
        split; [|now apply key_token_head].
        intros d m Hdm.
        rewrite parsePubkey_key
          by (try assumption; apply (key_token_inv x Hxk); now apply Hg).
        now rewrite trimRight_cons by now apply is_delim_plain.
      * pose proof (length_joinComma_count (map (fun k : text => k) keys))
          as Hc.
        rewrite length_map in Hc. unfold text in *. lia.
      * discriminate.
Qed.

Lemma parse_first_error w : shape_ok w = true ->
  exists p, ParseSpendPolicy (render w) = Some (p, first_error w).
Proof.
  intros Hs. destruct (first_error w) as [e|] eqn:He.
  - destruct (parse_bad w Hs e He (length (render w) + 2) [])
      as (p & st' & Hp & Hst); [lia|].
    rewrite app_nil_r in Hp. unfold ParseSpendPolicy.
    rewrite Hp, Hst. now exists p.
  - exists (policy_of w). rewrite <- (app_nil_r (render w)).
    now rewrite ParseSpendPolicy_render by now apply shape_grammar.
Qed.

Lemma over_ceiling_error : forall w,
  over_ceiling w = true -> first_error w <> None.
Proof.
  induction w as [h|k|n Of IH|t keys n] using ptext_nested_ind;
    cbn [over_ceiling first_error]; intros H He.
  - unfold num_error in He. apply negb_true_iff in H.
    rewrite H in He. discriminate.
  - discriminate.
  - pose proof (first_of_none _ He) as Hnone.
    apply orb_true_iff in H. destruct H as [H|H].
    + specialize (Hnone (num_error 8 n) (or_introl eq_refl)).
      unfold num_error in Hnone. apply negb_true_iff in H.
      rewrite H in Hnone. discriminate.
    + apply existsb_exists in H. destruct H as (x & Hx & Hov).
      rewrite Forall_forall in IH. apply (IH x Hx Hov).
      apply Hnone. right. now apply in_map.
  - pose proof (first_of_none _ He) as Hnone.
    apply orb_true_iff in H. destruct H as [H|H]; apply negb_true_iff in H.
    + specialize (Hnone (num_error 64 t) (or_introl eq_refl)).
      unfold num_error in Hnone. rewrite H in Hnone. discriminate.
    + assert (Hn : num_error 8 n = None).
      { apply Hnone. right. apply in_or_app. right. now left. }
      unfold num_error in Hn. rewrite H in Hn. discriminate.
Qed.

Lemma wrong_length_error : forall w,
  wrong_length w = true -> first_error w <> None.
Proof.
  induction w as [h|k|n Of IH|t keys n] using ptext_nested_ind;
    cbn [wrong_length first_error]; intros H He.
  - discriminate.
  - unfold key_error in He. apply negb_true_iff in H.
    rewrite H in He. discriminate.
  - pose proof (first_of_none _ He) as Hnone.
    apply existsb_exists in H. destruct H as (x & Hx & Hov).
    rewrite Forall_forall in IH. apply (IH x Hx Hov).
    apply Hnone. right. now apply in_map.
  - pose proof (first_of_none _ He) as Hnone.
    apply existsb_exists in H. destruct H as (x & Hx & Hl).
    assert (Hk : key_error x = None).
    { apply Hnone. right. apply in_or_app. left.
      now apply (in_map key_error). }
    unfold key_error in Hk. apply negb_true_iff in Hl.
    rewrite Hl in Hk. discriminate.
Qed.

(** Which kind of error the first bad token gives. *)
Lemma first_error_kind : forall w e, first_error w = Some e ->
  (exists t, e = ErrNum t strconv.ErrRange /\ over_ceiling w = true)
  \/ (exists k : text,
        e = ErrPubkeyLength (length k) /\ wrong_length w = true).
Proof.
  induction w as [h|k|n Of IH|t keys n] using ptext_nested_ind;
    cbn [over_ceiling wrong_length first_error]; intros e He.
  - left. exists h. unfold num_error in He.
    destruct (decimal_value h <? 2 ^ 64); [discriminate|].
    injection He as <-. now split.
  - right. exists k. unfold key_error in He.
    destruct (length k =? 64)%nat; [discriminate|].
    injection He as <-. now split.
  - cbn [first_of] in He. destruct (num_error 8 n) as [e'|] eqn:En.
    + injection He as ->. left. exists n. unfold num_error in En.
      destruct (decimal_value n <? 2 ^ 8); [discriminate|].
      injection En as <-. now split.
    + rewrite <- (app_nil_r (map first_error Of)) in He.
      destruct (first_of_map_split first_error Of [] e He)
        as [(good & bad & rest & -> & Hg & Hb)|[_ Hnil]]; [|discriminate].
      rewrite Forall_forall in IH.
      assert (Hin : In bad (good ++ bad :: rest))
        by (apply in_or_app; right; now left).
      destruct (IH bad Hin e Hb) as [(t & -> & Ho)|(k & -> & Hw)].
      * left. exists t. split; [reflexivity|]. apply orb_true_iff. right.
        apply existsb_exists. now exists bad.
      * right. exists k. split; [reflexivity|].
        apply existsb_exists. now exists bad.
  - cbn [first_of] in He. destruct (num_error 64 t) as [e'|] eqn:En.
    + injection He as ->. left. exists t. unfold num_error in En.
      destruct (decimal_value t <? 2 ^ 64); [discriminate|].
      injection En as <-. now split.
    + destruct (first_of_map_split key_error keys [num_error 8 n] e He)
        as [(good & bad & rest & -> & Hg & Hb)|[Hg Hlast]].
      * right. exists bad. unfold key_error in Hb.
        destruct (Nat.eqb_spec (length bad) 64) as [|Hl]; [discriminate|].
        injection Hb as <-. split; [reflexivity|].
        apply existsb_exists. exists bad.
        split; [apply in_or_app; right; now left|].
        now apply negb_true_iff, Nat.eqb_neq.
      * cbn [first_of] in Hlast. left. exists n. unfold num_error in Hlast.
        destruct (decimal_value n <? 2 ^ 8); [discriminate|].
        injection Hlast as <-. split; [reflexivity|]. apply orb_true_r.
Qed.

Lemma ceiling_anywhere w : shape_ok w = true -> over_ceiling w = true ->
  exists p e,
    ParseSpendPolicy (render w) = Some (p, Some e)
    /\ first_error w = Some e
    /\ (wrong_length w = false -> exists t, e = ErrNum t strconv.ErrRange).
Proof.
  intros Hs Ho. destruct (parse_first_error w Hs) as [p Hp].
  destruct (first_error w) as [e|] eqn:He;
    [|now apply over_ceiling_error in Ho].
  exists p, e. split; [assumption|]. split; [reflexivity|].
  intros Hw. destruct (first_error_kind w e He) as [(t & -> & _)|(k & _ & Hk)].
  - now exists t.
  - congruence.
Qed.

Lemma wrong_length_anywhere w : shape_ok w = true -> wrong_length w = true ->
  exists p e,
    ParseSpendPolicy (render w) = Some (p, Some e)
    /\ first_error w = Some e
    /\ (over_ceiling w = false ->
        exists k : text, e = ErrPubkeyLength (length k)).
Proof.
  intros Hs Ho. destruct (parse_first_error w Hs) as [p Hp].
  destruct (first_error w) as [e|] eqn:He;
    [|now apply wrong_length_error in Ho].
  exists p, e. split; [assumption|]. split; [reflexivity|].
  intros Hw. destruct (first_error_kind w e He) as [(t & _ & Hk)|(k & -> & _)].
  - congruence.
  - now exists k.
Qed.

(** C8. A numeral above the ceiling of its field (64 bits for a height and
    a timelock, 8 bits for a threshold count and a signature count) makes
    [ParseSpendPolicy] return the range error of [strconv.ParseUint]; the
    count is not truncated into an accepted policy. This holds at the
    first numeral of a policy whatever follows it, and for a numeral at
    any depth and any position of a text that has the shape of the
    grammar: such a text with a numeral above its ceiling is never
    accepted, the error returned is that of its first bad token in reading
    order, and it is the range error when no key has a wrong length. *)
Theorem numeric_ceiling_enforced :
  (forall t d y,
  t <> [] -> forallb is_digit t = true -> is_delim d = true ->
  (2 ^ 64 <= decimal_value t ->
     ParseSpendPolicy (lit "above(" ++ t ++ d :: y)
     = Some (PolicyAbove (2 ^ 64 - 1), Some (ErrNum t strconv.ErrRange))
     /\ ParseSpendPolicy (lit "uc(" ++ t ++ d :: y)
        = Some (PolicyUnlockConditions
                  {| Timelock := 2 ^ 64 - 1;
                     PublicKeys := [];
                     SignaturesRequired := 0 |},
                Some (ErrNum t strconv.ErrRange)))
  /\ (2 ^ 8 <= decimal_value t ->
        ParseSpendPolicy (lit "thresh(" ++ t ++ d :: y)
        = Some (PolicyThreshold 255 [], Some (ErrNum t strconv.ErrRange))
        /\ forall tl keys,
             numeral 64 tl = true -> forallb hex_key keys = true ->
             ParseSpendPolicy
               (lit "uc(" ++ tl ++ lit ",[" ++ joinComma keys
                ++ lit "]," ++ t ++ d :: y)
             = Some (PolicyUnlockConditions
                       {| Timelock := decimal_value tl;
                          PublicKeys := map unhex keys;
                          SignaturesRequired := 255 |},
                     Some (ErrNum t strconv.ErrRange))))
  /\ (forall w, shape_ok w = true -> over_ceiling w = true ->
        exists p e,
          ParseSpendPolicy (render w) = Some (p, Some e)
          /\ first_error w = Some e
          /\ (wrong_length w = false ->
              exists t, e = ErrNum t strconv.ErrRange)).
Proof.
  split; [|apply ceiling_anywhere].
  intros t d y Hne Hd Hdl. split.
  - intros Hv. split.
    + unfold ParseSpendPolicy. rewrite add2.
      change (lit "above(" ++ t ++ d :: y)
        with (lit "above" ++ "("%char :: t ++ d :: y).
      cbn [parseSpendPolicy].
      rewrite nextToken_token by reflexivity. trim_delim. eval_typ.
      rewrite consume_plain by reflexivity. cbn [snd].
      trim_delim.
      rewrite (parseInt_range 64) by (try assumption; lia).
      sticky_steps. reflexivity.
    + unfold ParseSpendPolicy. rewrite add2.
      change (lit "uc(" ++ t ++ d :: y)
        with (lit "uc" ++ "("%char :: t ++ d :: y).
      cbn [parseSpendPolicy].
      rewrite nextToken_token by reflexivity. trim_delim. eval_typ.
      rewrite consume_plain by reflexivity. cbn [snd].
      trim_delim.
      rewrite (parseInt_range 64) by (try assumption; lia).
      sticky_steps. reflexivity.
  - intros Hv. split.
    + unfold ParseSpendPolicy. rewrite add2.
      change (lit "thresh(" ++ t ++ d :: y)
        with (lit "thresh" ++ "("%char :: t ++ d :: y).
      cbn [parseSpendPolicy].
      rewrite nextToken_token by reflexivity. trim_delim. eval_typ.
      rewrite consume_plain by reflexivity. cbn [snd].
      trim_delim.
      rewrite (parseInt_range 8) by (try assumption; lia).
      sticky_steps. reflexivity.
    + intros tl keys Htl Hkeys.
      unfold ParseSpendPolicy.
      assert (Hlen : exists fuel,
                (length (lit "uc(" ++ tl ++ lit ",[" ++ joinComma keys
                         ++ lit "]," ++ t ++ d :: y) + 2 = S fuel
                 /\ length keys < S fuel)%nat).
      { eexists. split; [apply add2|].
        pose proof (length_joinComma_count keys).
        rewrite !length_app. cbn [lit list_ascii_of_string length]. lia. }
      destruct Hlen as (fuel & -> & Hfuel).
      replace (joinComma keys) with (joinComma (map (fun k => k) keys))
        by now rewrite map_id.
      change (lit "uc(" ++ tl ++ lit ",[" ++ joinComma (map (fun k => k) keys)
              ++ lit "]," ++ t ++ d :: y)
        with (lit "uc" ++ "("%char :: tl ++ ","%char :: "["%char
              :: joinComma (map (fun k => k) keys) ++ "]"%char
              :: ","%char :: t ++ d :: y).
      cbn [parseSpendPolicy].
      rewrite nextToken_token by reflexivity.
      trim_delim. eval_typ.
      rewrite consume_plain by reflexivity. cbn [snd].
      trim_delim.
      rewrite (parseInt_numeral 64) by (try assumption; try reflexivity; lia).
      rewrite consume_plain by reflexivity. cbn [snd].
      trim_delim.
      rewrite consume_plain by reflexivity. cbn [snd].
      trim_delim.
      pose proof (listLoop_items (fun st => Some (parsePubkey st)) (fun k => k)
                    unhex false
                    (","%char :: t ++ d :: strings.trimRight y)
                    keys (S fuel)) as HL.
      cbn [app] in HL. rewrite HL; clear HL.
      * rewrite consume_plain by reflexivity. cbn [snd fst].
        trim_delim.
        rewrite consume_plain by reflexivity. cbn [snd].
        trim_delim.
        rewrite (parseInt_range 8) by (try assumption; lia).
        sticky_steps. reflexivity.
      * now trim_delim.
      * intros x Hin. rewrite forallb_forall in Hkeys.
        split; [|now apply hex_key_head, Hkeys].
        intros d' m Hd'.
        rewrite parsePubkey_key by (try apply Hkeys; assumption).
        now rewrite trimRight_cons by now apply is_delim_plain.
      * assumption.
      * discriminate.
Qed.

Lemma numeric_ceiling_enforced_witness :
  ParseSpendPolicy (lit "thresh(256,[])")
  = Some (PolicyThreshold 255 [],
          Some (ErrNum (lit "256") strconv.ErrRange))
  /\ ParseSpendPolicy (lit "above(18446744073709551616)")
     = Some (PolicyAbove (2 ^ 64 - 1),
             Some (ErrNum (lit "18446744073709551616") strconv.ErrRange))
  /\ (exists p,
        ParseSpendPolicy
          (lit "thresh(1,[above(7),thresh(2,[above(5)]),uc(0,[],256)])")
        = Some (p, Some (ErrNum (lit "256") strconv.ErrRange))).
Proof.
  split; [|split].
  - apply (proj2 (proj1 numeric_ceiling_enforced (lit "256") ","%char
                    (lit "[])") ltac:(discriminate) eq_refl eq_refl)).
    apply N.leb_le. reflexivity.
  - apply (proj1 (proj1 numeric_ceiling_enforced
                    (lit "18446744073709551616")
                    ")"%char [] ltac:(discriminate) eq_refl eq_refl)).
    apply N.leb_le. reflexivity.
  - destruct (proj2 numeric_ceiling_enforced
                (TThreshold (lit "1")
                   [TAbove (lit "7");
                    TThreshold (lit "2") [TAbove (lit "5")];
                    TUnlockConditions (lit "0") [] (lit "256")])
                eq_refl eq_refl) as (p & e & Hp & He & _).
    injection He as <-. exists p. exact Hp.
Defined.

(** ** Malformed keys and the sticky error *)

(** C9. A public-key token whose length is not 64 makes
    [ParseSpendPolicy] return the key-length error, in [pk(..)] and in the
    list of [uc(..)]; an error that is set is changed by no later step and
    is the one returned, so of two malformed keys the first is reported.
    The same holds for a key at any depth and any position of a text that
    has the shape of the grammar: such a text with a key of a wrong length
    is never accepted, the error returned is that of its first bad token
    in reading order, and it is the key-length error when no numeral is
    above its ceiling. *)
Theorem malformed_key_rejected :
  (forall t d y,
     forallb tokchar t = true -> length t <> 64%nat -> is_delim d = true ->
     ParseSpendPolicy (lit "pk(" ++ t ++ d :: y)
     = Some (PolicyPublicKey (zero_bytes 32),
             Some (ErrPubkeyLength (length t)))
     /\ forall tl, numeral 64 tl = true -> t <> [] ->
        ParseSpendPolicy (lit "uc(" ++ tl ++ lit ",[" ++ t ++ d :: y)
        = Some (PolicyUnlockConditions
                  {| Timelock := decimal_value tl;
                     PublicKeys := [zero_bytes 32];
                     SignaturesRequired := 0 |},
                Some (ErrPubkeyLength (length t))))
  /\ (forall st e, err st = Some e ->
        err (snd (nextToken st)) = Some e
        /\ (forall b, err (snd (consume b st)) = Some e)
        /\ (forall bits, err (snd (parseInt bits st)) = Some e)
        /\ err (snd (parsePubkey st)) = Some e
        /\ forall fuel r, parseSpendPolicy fuel st = Some r ->
                          err (snd r) = Some e)
  /\ (forall input p st e,
        parseSpendPolicy (length input + 2) {| s := input; err := None |}
        = Some (p, st) ->
        err st = Some e -> ParseSpendPolicy input = Some (p, Some e))
  /\ ParseSpendPolicy (lit "thresh(2,[pk(00),pk(11)])")
     = Some (PolicyThreshold 2 [PolicyPublicKey (zero_bytes 32)],
             Some (ErrPubkeyLength 2))
  /\ ParseSpendPolicy (lit "thresh(2,[pk(00),pk(111)])")
     = Some (PolicyThreshold 2 [PolicyPublicKey (zero_bytes 32)],
             Some (ErrPubkeyLength 2))
  /\ (forall w, shape_ok w = true -> wrong_length w = true ->
        exists p e,
          ParseSpendPolicy (render w) = Some (p, Some e)
          /\ first_error w = Some e
          /\ (over_ceiling w = false ->
              exists k : text, e = ErrPubkeyLength (length k))).
Proof.
  split; [|split; [|split; [|split; [|split]]]].
  - intros t d y Ht Hl Hd. split.
    + unfold ParseSpendPolicy. rewrite add2.
      change (lit "pk(" ++ t ++ d :: y)
        with (lit "pk" ++ "("%char :: t ++ d :: y).
      cbn [parseSpendPolicy].
      rewrite nextToken_token by reflexivity. trim_delim. eval_typ.
      rewrite consume_plain by reflexivity. cbn [snd]. trim_delim.
      rewrite parsePubkey_length by assumption.
      sticky_steps. reflexivity.
    + intros tl Htl Hne. unfold ParseSpendPolicy. rewrite add2.
      change (lit "uc(" ++ tl ++ lit ",[" ++ t ++ d :: y)
        with (lit "uc" ++ "("%char :: tl ++ ","%char :: "["%char
              :: t ++ d :: y).
      cbn [parseSpendPolicy].
      rewrite nextToken_token by reflexivity. trim_delim. eval_typ.
      rewrite consume_plain by reflexivity. cbn [snd]. trim_delim.
      rewrite (parseInt_numeral 64) by (try assumption; try reflexivity; lia).
      rewrite consume_plain by reflexivity. cbn [snd]. trim_delim.
      rewrite consume_plain by reflexivity. cbn [snd]. trim_delim.
      destruct t as [|c t]; [congruence|].
      assert (Hc : Ascii.eqb c "]" = false).
      { cbn [forallb] in Ht. apply andb_true_iff in Ht. destruct Ht as [Hc _].
        revert Hc. by_ascii c. }
      cbn [listLoop err]. rewrite (peek_head c t (d :: strings.trimRight y)).
      rewrite Hc. rewrite parsePubkey_length by assumption.
      unfold peek at 1. cbn [err fst].
      change (Ascii.eqb zero "]") with false. cbn iota.
      sticky_steps. reflexivity.
  - intros st e He. split; [|split; [|split; [|split]]].
    + now rewrite (nextToken_sticky st e He).
    + intros b. now rewrite (consume_sticky b st e He).
    + intros bits. now rewrite (parseInt_sticky bits st e He).
    + now rewrite (parsePubkey_sticky st e He).
    + intros [|fuel] r; [discriminate|].
      rewrite (parseSpendPolicy_sticky fuel st e He).
      now intros [= <-].
  - intros input p st e Hp He. unfold ParseSpendPolicy. now rewrite Hp, He.
  - vm_compute. reflexivity.
  - vm_compute. reflexivity.
  - apply wrong_length_anywhere.
Qed.

Lemma malformed_key_rejected_witness :
  ParseSpendPolicy (lit "pk(00)")
  = Some (PolicyPublicKey (zero_bytes 32), Some (ErrPubkeyLength 2))
  /\ ParseSpendPolicy (lit "uc(0,[abc],1)")
     = Some (PolicyUnlockConditions
               {| Timelock := 0;
                  PublicKeys := [zero_bytes 32];
                  SignaturesRequired := 0 |},
             Some (ErrPubkeyLength 3))
  /\ err (snd (consume "("
                 {| s := lit "(x"; err := Some (ErrPubkeyLength 2) |}))
     = Some (ErrPubkeyLength 2)
  /\ (exists p,
        ParseSpendPolicy (lit "thresh(2,[pk(00),pk(11)])")
        = Some (p, Some (ErrPubkeyLength 2))).
Proof.
  split; [|split; [|split]].
  - apply (proj1 (proj1 malformed_key_rejected (lit "00") ")"%char []
                    eq_refl ltac:(discriminate) eq_refl)).
  - apply (proj2 (proj1 malformed_key_rejected (lit "abc") "]"%char
                    (lit ",1)") eq_refl ltac:(discriminate) eq_refl)
             (lit "0") eq_refl ltac:(discriminate)).
  - apply (proj1 (proj2 (proj1 (proj2 malformed_key_rejected)
                           {| s := lit "(x"; err := Some (ErrPubkeyLength 2) |}
                           (ErrPubkeyLength 2) eq_refl))).
  - destruct (proj2 (proj2 (proj2 (proj2 (proj2 malformed_key_rejected))))
                (TThreshold (lit "2")
                   [TPublicKey (lit "00"); TPublicKey (lit "11")])
                eq_refl eq_refl) as (p & e & Hp & He & _).
    injection He as <-. exists p. exact Hp.
Defined.

(** ** The accumulator: when it panics *)

Lemma N_forall_below (P : N -> bool) (k : nat) :
  forallb P (map N.of_nat (seq 0 k)) = true ->
  forall n, n < N.of_nat k -> P n = true.
Proof.
  rewrite forallb_forall. intros H n Hn. apply H. apply in_map_iff.
  exists (N.to_nat n). split; [apply Nnat.N2Nat.id|]. apply in_seq. lia.
Qed.

Section Panics.

Variable HashBytes : list byte -> Hash256.

Lemma addLeafLoop_index : forall slots i h n b,
  match addLeafLoop HashBytes slots i h n b with
  | Some (j, _, _) =>
      j = firstClear (length slots) i n /\ bitSet n j = false
  | None => bitSet n (firstClear (length slots) i n) = true
  end.
Proof.
  induction slots as [|t slots IH]; intros i h n b;
    cbn [addLeafLoop length firstClear].
  - destruct (bitSet n i) eqn:E; [reflexivity|now split].
  - destruct (bitSet n i) eqn:E; [|now split].
    destruct (nodeHash HashBytes t h b) as [h' b']. apply IH.
Qed.

Lemma firstClear_below :
  forall n, n < 255 ->
  (firstClear 8 0 n <? 8)%nat && negb (bitSet n (firstClear 8 0 n)) = true.
Proof.
  apply (N_forall_below
           (fun n => (firstClear 8 0 n <? 8)%nat
                     && negb (bitSet n (firstClear 8 0 n))) 255).
  vm_compute. reflexivity.
Qed.

Lemma addLeaf_ok h a :
  length (trees a) = 8%nat -> numLeaves a < 255 ->
  exists a', addLeaf HashBytes h a = Some a'
             /\ length (trees a') = 8%nat
             /\ numLeaves a' = numLeaves a + 1.
Proof.
  intros Ht Hn. unfold addLeaf.
  pose proof (addLeafLoop_index (trees a) 0 h (numLeaves a) (buf a)) as Hi.
  pose proof (firstClear_below _ Hn) as Hc.
  apply andb_true_iff in Hc. destruct Hc as [Hlt Hclr].
  apply negb_true_iff in Hclr. rewrite Ht in Hi.
  destruct (addLeafLoop HashBytes (trees a) 0 h (numLeaves a) (buf a))
    as [[[j h'] b']|]; [|congruence].
  destruct Hi as [-> _]. rewrite Ht, Hlt.
  eexists. split; [reflexivity|]. cbn [trees numLeaves]. split.
  - now rewrite length_store.
  - apply N.mod_small. change (2 ^ 8) with 256. lia.
Qed.

Lemma addLeaf_full h a :
  length (trees a) = 8%nat -> numLeaves a = 255 ->
  addLeaf HashBytes h a = None.
Proof.
  intros Ht Hn. unfold addLeaf.
  pose proof (addLeafLoop_index (trees a) 0 h (numLeaves a) (buf a)) as Hi.
  rewrite Ht in Hi.
  destruct (addLeafLoop HashBytes (trees a) 0 h (numLeaves a) (buf a))
    as [[[j h'] b']|]; [|reflexivity].
  destruct Hi as [-> _]. rewrite Ht, Hn. reflexivity.
Qed.

Lemma fold_addPubkey_None keys :
  fold_left (addPubkey HashBytes) keys None = None.
Proof. induction keys; [reflexivity|assumption]. Qed.

Lemma fold_addPubkey_ok : forall keys a,
  length (trees a) = 8%nat ->
  numLeaves a + N.of_nat (length keys) <= 255 ->
  exists a', fold_left (addPubkey HashBytes) keys (Some a) = Some a'
             /\ length (trees a') = 8%nat
             /\ numLeaves a' = numLeaves a + N.of_nat (length keys).
Proof.
  induction keys as [|k keys IH]; intros a Ht Hn.
  - exists a. cbn. repeat split; try assumption. lia.
  - cbn [fold_left addPubkey]. cbn [length] in Hn.
    destruct (pubkeyLeaf HashBytes k (buf a)) as [h b].
    destruct (addLeaf_ok h {| buf := b; trees := trees a;
                              numLeaves := numLeaves a |})
      as (a1 & -> & Ht1 & Hn1); cbn [trees numLeaves]; [assumption|lia|].
    cbn [numLeaves] in Hn1.
    destruct (IH a1 Ht1) as (a' & Hf & Ht' & Hn'); [lia|].
    exists a'. repeat split; try assumption. cbn [length]. lia.
Qed.

Lemma fold_addPubkey_full : forall keys a,
  length (trees a) = 8%nat -> numLeaves a <= 255 ->
  255 < numLeaves a + N.of_nat (length keys) ->
  fold_left (addPubkey HashBytes) keys (Some a) = None.
Proof.
  induction keys as [|k keys IH]; intros a Ht Hle Hn.
  - cbn [length] in Hn. lia.
  - cbn [fold_left addPubkey]. cbn [length] in Hn.
    destruct (pubkeyLeaf HashBytes k (buf a)) as [h b].
    destruct (N.eq_dec (numLeaves a) 255) as [E|E].
    + rewrite addLeaf_full by assumption. apply fold_addPubkey_None.
    + destruct (addLeaf_ok h {| buf := b; trees := trees a;
                                numLeaves := numLeaves a |})
        as (a1 & -> & Ht1 & Hn1); cbn [trees numLeaves]; [assumption|lia|].
      cbn [numLeaves] in Hn1. apply IH; [assumption|lia|lia].
Qed.

Lemma addUint64_ok u a :
  length (trees a) = 8%nat -> numLeaves a < 255 ->
  exists a', addUint64 HashBytes u a = Some a'
             /\ length (trees a') = 8%nat
             /\ numLeaves a' = numLeaves a + 1.
Proof.
  intros Ht Hn. unfold addUint64.
  destruct (uint64Leaf HashBytes u (buf a)) as [h b].
  now apply (addLeaf_ok h {| buf := b; trees := trees a;
                             numLeaves := numLeaves a |}).
Qed.

Lemma addUint64_full u a :
  length (trees a) = 8%nat -> numLeaves a = 255 ->
  addUint64 HashBytes u a = None.
Proof.
  intros Ht Hn. unfold addUint64.
  destruct (uint64Leaf HashBytes u (buf a)) as [h b].
  now apply addLeaf_full.
Qed.

Lemma TrailingZeros8_below :
  forall n, n < 256 -> negb (n =? 0) = true ->
  (bits.TrailingZeros8 n <? 8)%nat = true.
Proof.
  intros n Hn.
  apply (N_forall_below
           (fun n => implb (negb (n =? 0))
                       (bits.TrailingZeros8 n <? 8)%nat) 256) in Hn.
  - intros Hz. now rewrite Hz in Hn.
  - vm_compute. reflexivity.
Qed.

Lemma treeRoot_fold_ok a : forall l acc,
  Forall (fun i => (i < length (trees a))%nat) l ->
  exists r, fold_left (treeRootStep HashBytes a) l (Some acc) = Some r.
Proof.
  induction l as [|i l IH]; intros acc Hl.
  - now exists acc.
  - inversion Hl as [|? ? Hi Hl']; subst. cbn [fold_left treeRootStep].
    destruct acc as [r b]. destruct (bitSet (numLeaves a) i).
    + destruct (nth_error (trees a) i) eqn:E.
      * apply IH; assumption.
      * apply nth_error_None in E. lia.
    + apply IH; assumption.
Qed.

Lemma treeRoot_ok a :
  length (trees a) = 8%nat -> 0 < numLeaves a -> numLeaves a < 256 ->
  exists h, treeRoot HashBytes a = Some h.
Proof.
  intros Ht Hpos Hn. unfold treeRoot.
  assert (Hz : (bits.TrailingZeros8 (numLeaves a) < 8)%nat).
  { apply Nat.ltb_lt, TrailingZeros8_below; [assumption|].
    apply negb_true_iff, N.eqb_neq. lia. }
  destruct (nth_error (trees a) (bits.TrailingZeros8 (numLeaves a))) eqn:E.
  - destruct (treeRoot_fold_ok a
                (seq (S (bits.TrailingZeros8 (numLeaves a)))
                   (length (trees a) - S (bits.TrailingZeros8 (numLeaves a))))
                (h, buf a)) as (r & ->).
    + apply Forall_forall. intros i Hi. apply in_seq in Hi. lia.
    + now exists (fst r).
  - apply nth_error_None in E. lia.
Qed.

(** The accumulator holds at most 255 leaves: [root] returns for up to
    253 keys and panics from 254 keys on, when the 256th leaf is stored
    at [trees[8]]. *)
Lemma root_ok uc : (length (PublicKeys uc) <= 253)%nat ->
  exists h, root HashBytes uc = Some h.
Proof.
  intros Hk. unfold root.
  destruct (addUint64_ok (Timelock uc) newAccumulator)
    as (a1 & -> & Ht1 & Hn1); [reflexivity|reflexivity|].
  cbn [newAccumulator numLeaves] in Hn1.
  destruct (fold_addPubkey_ok (PublicKeys uc) a1 Ht1)
    as (a2 & -> & Ht2 & Hn2); [lia|].
  destruct (addUint64_ok (SignaturesRequired uc) a2 Ht2)
    as (a3 & -> & Ht3 & Hn3); [lia|].
  apply treeRoot_ok; [assumption|lia|lia].
Qed.

Lemma root_panics uc : (254 <= length (PublicKeys uc))%nat ->
  root HashBytes uc = None.
Proof.
  intros Hk. unfold root.
  destruct (addUint64_ok (Timelock uc) newAccumulator)
    as (a1 & -> & Ht1 & Hn1); [reflexivity|reflexivity|].
  cbn [newAccumulator numLeaves] in Hn1.
  destruct (Nat.eq_dec (length (PublicKeys uc)) 254) as [E|E].
  - destruct (fold_addPubkey_ok (PublicKeys uc) a1 Ht1)
      as (a2 & -> & Ht2 & Hn2); [lia|].
    rewrite addUint64_full; [reflexivity|assumption|lia].
  - rewrite fold_addPubkey_full; [reflexivity|assumption|lia|lia].
Qed.

End Panics.

(** C3 fails on the code: with 254 public keys there are 256 leaves, the
    loop of [addLeaf] leaves slot 8 for the last one and [trees[8] = h]
    is out of range, whatever the hash function: [Address] panics. *)
Theorem Address_panics_254_keys :
  forall (HashBytes : list byte -> Hash256)
         (Hasher : Type) (Reset : Hasher -> Hasher)
         (WriteString : text -> Hasher -> Hasher)
         (EncodeTo : SpendPolicy -> Hasher -> Hasher)
         (Sum : Hasher -> Hash256) (h : Hasher),
    wf_policy (PolicyUnlockConditions uc_254_keys) = true
    /\ SpendPolicy_Address HashBytes Hasher Reset WriteString EncodeTo Sum h
         (PolicyUnlockConditions uc_254_keys) = None.
Proof.
  intros. split; [vm_compute; reflexivity|].
  cbn [SpendPolicy_Address]. apply root_panics.
  unfold uc_254_keys. cbn [PublicKeys]. rewrite repeat_length. lia.
Qed.

(** ** The accumulator: what it hashes *)

Lemma length_copyAt {A} off (src a : list A) :
  (off + length src <= length a)%nat -> length (copyAt off src a) = length a.
Proof.
  intros H. unfold copyAt.
  rewrite !length_app, !length_firstn, length_skipn. lia.
Qed.

Lemma firstn_copyAt {A} n off (src a : list A) :
  n = (off + length src)%nat -> (off + length src <= length a)%nat ->
  firstn n (copyAt off src a) = firstn off a ++ src.
Proof.
  intros -> H. unfold copyAt.
  rewrite firstn_app, length_firstn.
  replace (Nat.min off (length a)) with off by lia.
  rewrite firstn_firstn. replace (Nat.min (off + length src) off) with off by lia.
  f_equal. replace (off + length src - off)%nat with (length src) by lia.
  rewrite (firstn_all2 (n := length a - off)) by lia.
  rewrite firstn_app, Nat.sub_diag, firstn_all. cbn [firstn].
  now rewrite app_nil_r.
Qed.

Lemma firstn_1_store0 {A} (v : A) a :
  (0 < length a)%nat -> firstn 1 (store 0 v a) = [v].
Proof. destruct a; cbn; [lia|reflexivity]. Qed.

Lemma length_le64 u : length (le64 u) = 8%nat.
Proof. reflexivity. Qed.

Lemma length_ed25519_specifier : length ed25519_specifier = 16%nat.
Proof. reflexivity. Qed.

Section Refinement.

Variable HashBytes : list byte -> Hash256.
Hypothesis HashBytes_length : forall x, length (HashBytes x) = 32%nat.

Lemma uint64Leaf_spec u b : length b = 65%nat ->
  fst (uint64Leaf HashBytes u b) = HashBytes (spec_uint64_leaf u)
  /\ length (snd (uint64Leaf HashBytes u b)) = 65%nat.
Proof.
  intros Hb. unfold uint64Leaf, spec_uint64_leaf. cbn [fst snd]. split.
  - f_equal. rewrite (firstn_copyAt 9 1);
      rewrite ?length_store, ?length_le64; try lia.
    now rewrite firstn_1_store0 by lia.
  - rewrite length_copyAt; rewrite ?length_store, ?length_le64; lia.
Qed.

Lemma pubkeyLeaf_spec pk b : length pk = 32%nat -> length b = 65%nat ->
  fst (pubkeyLeaf HashBytes pk b) = HashBytes (spec_pubkey_leaf pk)
  /\ length (snd (pubkeyLeaf HashBytes pk b)) = 65%nat.
Proof.
  intros Hpk Hb. unfold pubkeyLeaf, spec_pubkey_leaf. cbn [fst snd].
  rewrite Hpk. change (N.of_nat 32) with 32.
  assert (L1 : length (copyAt 1 ed25519_specifier (store 0 x00 b)) = 65%nat).
  { rewrite length_copyAt;
      rewrite ?length_store, ?length_ed25519_specifier; lia. }
  assert (L2 : length (copyAt 17 (le64 32)
                         (copyAt 1 ed25519_specifier (store 0 x00 b)))
               = 65%nat).
  { rewrite length_copyAt; rewrite ?L1, ?length_le64; lia. }
  split.
  - f_equal. rewrite (firstn_copyAt 57 25); rewrite ?L2, ?Hpk; try lia.
    rewrite (firstn_copyAt 25 17); rewrite ?L1, ?length_le64; try lia.
    rewrite (firstn_copyAt 17 1);
      rewrite ?length_store, ?length_ed25519_specifier; try lia.
    rewrite firstn_1_store0 by lia.
    rewrite <- !app_assoc. reflexivity.
  - rewrite length_copyAt; rewrite ?L2, ?Hpk; lia.
Qed.

Lemma nodeHash_spec l r b :
  length l = 32%nat -> length r = 32%nat -> length b = 65%nat ->
  fst (nodeHash HashBytes l r b) = HashBytes (spec_node l r)
  /\ length (snd (nodeHash HashBytes l r b)) = 65%nat.
Proof.
  intros Hl Hr Hb. unfold nodeHash, spec_node. cbn [fst snd].
  assert (L1 : length (copyAt 1 l (store 0 x01 b)) = 65%nat).
  { rewrite length_copyAt; rewrite ?length_store, ?Hl; lia. }
  split.
  - f_equal. rewrite (firstn_copyAt 65 33); rewrite ?L1, ?Hr; try lia.
    rewrite (firstn_copyAt 33 1); rewrite ?length_store, ?Hl; try lia.
    rewrite firstn_1_store0 by lia.
    rewrite <- !app_assoc. reflexivity.
  - rewrite length_copyAt; rewrite ?L1, ?Hr; lia.
Qed.

Lemma addLeafLoop_sim : forall slots i h n b,
  length b = 65%nat -> len32 h -> Forall len32 slots ->
  match addLeafLoop HashBytes slots i h n b, spec_combine HashBytes slots i h n with
  | Some (j, h', b'), Some (j2, h2) =>
      j = j2 /\ h' = h2 /\ length b' = 65%nat /\ len32 h'
  | None, None => True
  | _, _ => False
  end.
Proof.
  induction slots as [|t slots IH]; intros i h n b Hb Hh Hs;
    cbn [addLeafLoop spec_combine].
  - destruct (bitSet n i); [exact I|now repeat split].
  - destruct (bitSet n i); [|now repeat split].
    inversion Hs as [|? ? Ht Hs']; subst.
    destruct (nodeHash_spec t h b Ht Hh Hb) as [E1 E2].
    destruct (nodeHash HashBytes t h b) as [h' b']. cbn [fst snd] in E1, E2.
    rewrite <- E1. apply IH; try assumption.
    unfold len32. rewrite E1. apply HashBytes_length.
Qed.

Lemma Forall_store {A} (P : A -> Prop) v : forall a i,
  P v -> Forall P a -> Forall P (store i v a).
Proof.
  induction a as [|x a IH]; intros [|i] Hv Ha; cbn [store];
    inversion Ha; subst; constructor; auto.
Qed.

Lemma addLeaf_sim h a f : sim a f -> len32 h ->
  sim_opt (addLeaf HashBytes h a) (spec_add HashBytes (Some f) h).
Proof.
  intros (Et & En & Hb & Hs) Hh. unfold addLeaf, spec_add.
  pose proof (addLeafLoop_sim (trees a) 0 h (numLeaves a) (buf a) Hb Hh Hs)
    as Hl.
  rewrite <- Et, <- En.
  destruct (addLeafLoop HashBytes (trees a) 0 h (numLeaves a) (buf a))
    as [[[j h'] b']|];
    destruct (spec_combine HashBytes (trees a) 0 h (numLeaves a))
      as [[j2 h2]|]; try contradiction; [|exact I].
  destruct Hl as (-> & -> & Hb' & Hh').
  destruct (j2 <? length (trees a))%nat; [|exact I].
  cbn [sim_opt]. unfold sim. cbn [trees numLeaves buf subtrees counter].
  repeat split; try assumption. now apply Forall_store.
Qed.

Lemma addUint64_sim u a f : sim a f ->
  sim_opt (addUint64 HashBytes u a)
    (spec_add HashBytes (Some f) (HashBytes (spec_uint64_leaf u))).
Proof.
  intros (Et & En & Hb & Hs). unfold addUint64.
  destruct (uint64Leaf_spec u (buf a) Hb) as [E1 E2].
  destruct (uint64Leaf HashBytes u (buf a)) as [h b]. cbn [fst snd] in E1, E2.
  rewrite <- E1. apply addLeaf_sim.
  - now repeat split.
  - unfold len32. rewrite E1. apply HashBytes_length.
Qed.

Lemma fold_spec_add_None hs : fold_left (spec_add HashBytes) hs None = None.
Proof. induction hs; [reflexivity|assumption]. Qed.

Lemma fold_addPubkey_sim : forall keys oa of_,
  sim_opt oa of_ -> Forall len32 keys ->
  sim_opt (fold_left (addPubkey HashBytes) keys oa)
    (fold_left (spec_add HashBytes)
       (map HashBytes (map spec_pubkey_leaf keys)) of_).
Proof.
  induction keys as [|k keys IH]; intros oa of_ Hsim Hk; [assumption|].
  inversion Hk as [|? ? Hk1 Hk']; subst. cbn [fold_left map].
  apply IH; [|assumption].
  destruct oa as [a|], of_ as [f|]; try contradiction; [|exact I].
  cbn [addPubkey]. destruct Hsim as (Et & En & Hb & Hs).
  destruct (pubkeyLeaf_spec k (buf a) Hk1 Hb) as [E1 E2].
  destruct (pubkeyLeaf HashBytes k (buf a)) as [h b]. cbn [fst snd] in E1, E2.
  rewrite <- E1. apply addLeaf_sim.
  - now repeat split.
  - unfold len32. rewrite E1. apply HashBytes_length.
Qed.

Lemma fold_treeRootStep_None a l :
  fold_left (treeRootStep HashBytes a) l None = None.
Proof. induction l; [reflexivity|assumption]. Qed.

Lemma fold_spec_finalize_None f l :
  fold_left (spec_finalize_step HashBytes f) l None = None.
Proof. induction l; [reflexivity|assumption]. Qed.

Lemma treeRoot_fold_sim a f : sim a f ->
  forall l root b, len32 root -> length b = 65%nat ->
  option_map fst (fold_left (treeRootStep HashBytes a) l (Some (root, b)))
  = fold_left (spec_finalize_step HashBytes f) l (Some root).
Proof.
  intros (Et & En & Hb & Hs).
  induction l as [|i l IH]; intros root b Hr Hbb; [reflexivity|].
  cbn [fold_left treeRootStep spec_finalize_step]. rewrite <- Et, <- En.
  destruct (bitSet (numLeaves a) i); [|now apply IH].
  destruct (nth_error (trees a) i) as [t|] eqn:E.
  - assert (Ht : len32 t).
    { rewrite Forall_forall in Hs. eapply Hs, nth_error_In, E. }
    destruct (nodeHash_spec t root b Ht Hr Hbb) as [E1 E2].
    destruct (nodeHash HashBytes t root b) as [h' b'].
    cbn [fst snd] in E1, E2. rewrite <- E1. apply IH; [|assumption].
    unfold len32. rewrite E1. apply HashBytes_length.
  - now rewrite fold_treeRootStep_None, fold_spec_finalize_None.
Qed.

Lemma treeRoot_sim a f : sim a f ->
  treeRoot HashBytes a = spec_finalize HashBytes f.
Proof.
  intros Hsim. pose proof Hsim as (Et & En & Hb & Hs).
  unfold treeRoot, spec_finalize. rewrite <- Et, <- En.
  destruct (nth_error (trees a) (bits.TrailingZeros8 (numLeaves a)))
    as [r|] eqn:E; [|reflexivity].
  apply (treeRoot_fold_sim a f Hsim); [|assumption].
  rewrite Forall_forall in Hs. eapply Hs, nth_error_In, E.
Qed.

(** [root] computes the Merkle root of the specification over the leaves
    of the specification. *)
Lemma root_refines_spec uc :
  Forall (fun pk => length pk = 32%nat) (PublicKeys uc) ->
  root HashBytes uc = spec_root HashBytes (spec_leaves uc).
Proof.
  intros Hk. unfold root, spec_root, spec_leaves.
  cbn [map fold_left]. rewrite map_app, fold_left_app. cbn [map fold_left].
  assert (H0 : sim newAccumulator
                 {| subtrees := repeat (zero_bytes 32) 8; counter := 0 |}).
  { repeat split. cbn [newAccumulator trees].
    apply Forall_forall. intros x Hx. apply repeat_spec in Hx. now subst. }
  pose proof (addUint64_sim (Timelock uc) _ _ H0) as H1.
  pose proof (fold_addPubkey_sim (PublicKeys uc) _ _ H1 Hk) as H2.
  destruct (fold_left (addPubkey HashBytes) (PublicKeys uc)
              (addUint64 HashBytes (Timelock uc) newAccumulator)) as [a|];
    destruct (fold_left (spec_add HashBytes)
                (map HashBytes (map spec_pubkey_leaf (PublicKeys uc)))
                (spec_add HashBytes
                   (Some {| subtrees := repeat (zero_bytes 32) 8;
                            counter := 0 |})
                   (HashBytes (spec_uint64_leaf (Timelock uc))))) as [f|];
    try contradiction; [|reflexivity].
  pose proof (addUint64_sim (SignaturesRequired uc) a f H2) as H3.
  destruct (addUint64 HashBytes (SignaturesRequired uc) a) as [a'|];
    destruct (spec_add HashBytes (Some f)
                (HashBytes (spec_uint64_leaf (SignaturesRequired uc))))
      as [f'|]; try contradiction; [|reflexivity].
  now apply treeRoot_sim.
Qed.

End Refinement.

Lemma to_N_byte_of_N_mod n : Byte.to_N (byte_of_N n) = n mod 256.
Proof.
  rewrite <- (to_N_byte_of_N (n mod 256)) by (apply N.mod_lt; lia).
  unfold byte_of_N. now rewrite N.Div0.mod_mod.
Qed.

Lemma le_bytes_value : forall n u, u < 256 ^ N.of_nat n ->
  le_value (map (fun k => byte_of_N (u / 256 ^ N.of_nat k)) (seq 0 n)) = u.
Proof.
  induction n as [|n IH]; intros u Hu.
  - change (256 ^ N.of_nat 0) with 1 in Hu. cbn. lia.
  - rewrite <- cons_seq, <- seq_shift. cbn [map]. rewrite map_map.
    cbn [le_value fold_right].
    fold (le_value
            (map (fun k => byte_of_N (u / 256 ^ N.of_nat (S k))) (seq 0 n))).
    rewrite (map_ext _ (fun k => byte_of_N (u / 256 / 256 ^ N.of_nat k))).
    + rewrite IH.
      * rewrite to_N_byte_of_N_mod. change (256 ^ N.of_nat 0) with 1.
        rewrite N.div_1_r. pose proof (N.div_mod u 256 ltac:(lia)). lia.
      * apply N.Div0.div_lt_upper_bound.
        rewrite Nnat.Nat2N.inj_succ, N.pow_succ_r' in Hu. lia.
    + intros k. rewrite Nnat.Nat2N.inj_succ, N.pow_succ_r'.
      now rewrite N.Div0.div_div.
Qed.

Lemma le64_value u : u < 2 ^ 64 -> le_value (le64 u) = u.
Proof. intros Hu. apply (le_bytes_value 8 u). exact Hu. Qed.

(** C5. [root] hashes each leaf and node as section 4.3 lays them out,
    whatever the shared buffer held before: a [uint64] leaf is 0x00 and
    the eight little-endian bytes; a key leaf is 0x00, the specifier
    "ed25519" padded to 16 bytes, the length 32 in little-endian and the
    key; a node is 0x01 and the two digests. The leaves are the timelock,
    the keys in order and the signature count, and the root is the one
    section 4.3 describes over them. The 25 bytes a key leaf starts with
    are written out: 0x00, the seven letters of "ed25519", nine NUL bytes,
    0x20 and seven NUL bytes. *)
Theorem root_hashes_specified_leaves :
  forall HashBytes : list byte -> Hash256,
  (forall x, length (HashBytes x) = 32%nat) ->
  forall uc, Forall (fun pk => length pk = 32%nat) (PublicKeys uc) ->
  root HashBytes uc = spec_root HashBytes (spec_leaves uc)
  /\ (forall u b, length b = 65%nat ->
        fst (uint64Leaf HashBytes u b) = HashBytes (spec_uint64_leaf u))
  /\ (forall pk b, length pk = 32%nat -> length b = 65%nat ->
        fst (pubkeyLeaf HashBytes pk b) = HashBytes (spec_pubkey_leaf pk))
  /\ (forall l r b,
        length l = 32%nat -> length r = 32%nat -> length b = 65%nat ->
        fst (nodeHash HashBytes l r b) = HashBytes (spec_node l r))
  /\ (forall u, length (spec_uint64_leaf u) = 9%nat
                /\ (u < 2 ^ 64 -> le_value (le64 u) = u))
  /\ (forall pk, length pk = 32%nat -> length (spec_pubkey_leaf pk) = 57%nat)
  /\ (forall l r, length l = 32%nat -> length r = 32%nat ->
        length (spec_node l r) = 65%nat)
  /\ (forall pk b, length pk = 32%nat -> length b = 65%nat ->
        fst (pubkeyLeaf HashBytes pk b)
        = HashBytes
            ([x00;
              x65; x64; x32; x35; x35; x31; x39;
              x00; x00; x00; x00; x00; x00; x00; x00; x00;
              x20; x00; x00; x00; x00; x00; x00; x00] ++ pk))
  /\ map ascii_of_byte (firstn 7 spec_specifier) = lit "ed25519".
Proof.
  intros HashBytes Hlen uc Hk.
  split; [now apply root_refines_spec|].
  split; [intros u b Hb; now apply uint64Leaf_spec|].
  split; [intros pk b Hpk Hb; now apply pubkeyLeaf_spec|].
  split; [intros l r b Hl Hr Hb; now apply nodeHash_spec|].
  split; [intros u; split; [reflexivity|apply le64_value]|].
  split; [|split; [|split]].
  - intros pk Hpk. unfold spec_pubkey_leaf. cbn [length].
    rewrite !length_app, Hpk. reflexivity.
  - intros l r Hl Hr. unfold spec_node. cbn [length].
    rewrite length_app, Hl, Hr. reflexivity.
  - intros pk b Hpk Hb.
    now rewrite (proj1 (pubkeyLeaf_spec HashBytes pk b Hpk Hb)).
  - reflexivity.
Qed.

Lemma sample_hash_length x : length (sample_hash x) = 32%nat.
Proof.
  unfold sample_hash, zero_bytes.
  rewrite length_firstn, length_app, repeat_length. lia.
Qed.

Lemma root_hashes_specified_leaves_witness :
  root sample_hash sample_uc = spec_root sample_hash (spec_leaves sample_uc).
Proof.
  apply (root_hashes_specified_leaves sample_hash sample_hash_length sample_uc).
  repeat constructor.
Defined.

(** ** Address derivation *)

Section RootLength.

Variable HashBytes : list byte -> Hash256.
Hypothesis HashBytes_length : forall x, length (HashBytes x) = 32%nat.

Lemma treeRoot_fold_len32 a :
  forall l root b r, len32 root ->
  fold_left (treeRootStep HashBytes a) l (Some (root, b)) = Some r ->
  len32 (fst r).
Proof.
  induction l as [|i l IH]; intros root b r Hr Hf.
  - cbn in Hf. now injection Hf as <-.
  - cbn [fold_left treeRootStep] in Hf.
    destruct (bitSet (numLeaves a) i); [|now apply (IH root b)].
    destruct (nth_error (trees a) i) as [t|].
    + unfold nodeHash in Hf. eapply IH; [|exact Hf].
      apply HashBytes_length.
    + now rewrite fold_treeRootStep_None in Hf.
Qed.

Lemma treeRoot_len32 a r :
  Forall len32 (trees a) -> treeRoot HashBytes a = Some r -> len32 r.
Proof.
  intros Hs. unfold treeRoot.
  destruct (nth_error (trees a) (bits.TrailingZeros8 (numLeaves a)))
    as [r0|] eqn:E; [|discriminate].
  destruct (fold_left (treeRootStep HashBytes a) _ (Some (r0, buf a)))
    as [x|] eqn:Ef; [|discriminate].
  cbn [option_map]. intros [= <-].
  eapply treeRoot_fold_len32; [|exact Ef].
  rewrite Forall_forall in Hs. eapply Hs, nth_error_In, E.
Qed.

Lemma root_len32 uc r :
  Forall (fun pk => length pk = 32%nat) (PublicKeys uc) ->
  root HashBytes uc = Some r -> len32 r.
Proof.
  intros Hk. unfold root.
  assert (H0 : sim newAccumulator
                 {| subtrees := repeat (zero_bytes 32) 8; counter := 0 |}).
  { repeat split. cbn [newAccumulator trees].
    apply Forall_forall. intros x Hx. apply repeat_spec in Hx. now subst. }
  pose proof (addUint64_sim HashBytes HashBytes_length (Timelock uc) _ _ H0)
    as H1.
  pose proof (fold_addPubkey_sim HashBytes HashBytes_length (PublicKeys uc)
                _ _ H1 Hk) as H2.
  destruct (fold_left (addPubkey HashBytes) (PublicKeys uc)
              (addUint64 HashBytes (Timelock uc) newAccumulator)) as [a|];
    [|discriminate].
  destruct (fold_left (spec_add HashBytes) _ _) as [f|]; [|contradiction].
  pose proof (addUint64_sim HashBytes HashBytes_length
                (SignaturesRequired uc) a f H2) as H3.
  destruct (addUint64 HashBytes (SignaturesRequired uc) a) as [a'|];
    [|discriminate].
  destruct (spec_add HashBytes (Some f) _) as [f'|]; [|contradiction].
  apply treeRoot_len32. apply H3.
Qed.

End RootLength.

(** ** The JSON adapter *)

Lemma byte_eqb_refl x : Byte.eqb x x = true.
Proof. now apply Byte.byte_dec_lb. Qed.

Lemma byte_eqb_neq x y : x <> y -> Byte.eqb x y = false.
Proof.
  intros H. destruct (Byte.eqb x y) eqn:E; [|reflexivity].
  now apply Byte.byte_dec_bl in E.
Qed.

Lemma trimLeftByte_head c q :
  hd_error c <> Some q -> bytes.trimLeftByte c q = c.
Proof.
  destruct c as [|x c]; [reflexivity|]. cbn [hd_error bytes.trimLeftByte].
  intros H. rewrite byte_eqb_neq; [reflexivity|congruence].
Qed.

Lemma trimLeftByte_repeat q i c :
  hd_error c <> Some q -> bytes.trimLeftByte (repeat q i ++ c) q = c.
Proof.
  intros H. induction i as [|i IH]; cbn [repeat app bytes.trimLeftByte].
  - now apply trimLeftByte_head.
  - now rewrite byte_eqb_refl.
Qed.

Lemma rev_repeat_same {A} (x : A) n : rev (repeat x n) = repeat x n.
Proof.
  induction n as [|n IH]; [reflexivity|].
  cbn [repeat rev]. rewrite IH. symmetry. apply repeat_cons.
Qed.

Lemma Trim_layers q i j c :
  hd_error c <> Some q -> hd_error (rev c) <> Some q ->
  bytes.Trim (repeat q i ++ c ++ repeat q j) q = c.
Proof.
  intros Hh Hl. unfold bytes.Trim, bytes.trimRightByte.
  destruct c as [|x c].
  - cbn [app]. rewrite <- repeat_app.
    rewrite <- (app_nil_r (repeat q (i + j))).
    rewrite trimLeftByte_repeat by discriminate. reflexivity.
  - rewrite trimLeftByte_repeat by exact Hh.
    rewrite rev_app_distr, rev_repeat_same.
    rewrite trimLeftByte_repeat by exact Hl.
    apply rev_involutive.
Qed.

Lemma string_of_bytes_of_string t : string_of_bytes (bytes_of_string t) = t.
Proof.
  unfold string_of_bytes, bytes_of_string. rewrite map_map.
  rewrite (map_ext _ (fun c => c) ascii_of_byte_of_ascii). apply map_id.
Qed.

Lemma render_ends w :
  exists c m, render w = c :: m ++ [")"%char] /\ byte_of_ascii c <> quote.
Proof.
  destruct w as [h|k|n Of|t keys n]; cbn [render].
  - exists "a"%char, (lit "bove(" ++ h). split; [|discriminate].
    cbn [lit list_ascii_of_string app].
    repeat (rewrite <- app_assoc; cbn [app]). reflexivity.
  - exists "p"%char, (lit "k(" ++ k). split; [|discriminate].
    cbn [lit list_ascii_of_string app].
    repeat (rewrite <- app_assoc; cbn [app]). reflexivity.
  - exists "t"%char,
      (lit "hresh(" ++ n ++ lit ",[" ++ joinComma (map render Of) ++ lit "]").
    split; [|discriminate].
    cbn [lit list_ascii_of_string app].
    repeat (rewrite <- app_assoc; cbn [app]). reflexivity.
  - exists "u"%char,
      (lit "c(" ++ t ++ lit ",[" ++ joinComma keys ++ lit "]," ++ n).
    split; [|discriminate].
    cbn [lit list_ascii_of_string app].
    repeat (rewrite <- app_assoc; cbn [app]). reflexivity.
Qed.

(** C6, as amended. [UnmarshalJSON] removes every leading and every
    trailing quotation mark, however many there are, and gives the rest to
    the text parser as it is; around a text that neither starts nor ends
    with a quotation mark any number of layers is removed, and what
    [MarshalJSON] writes is read back. *)
Theorem UnmarshalJSON_trims_every_quote :
  (forall b,
     UnmarshalJSON b
     = ParseSpendPolicy (string_of_bytes (bytes.Trim b quote)))
  /\ (forall c i j,
        hd_error c <> Some quote -> hd_error (rev c) <> Some quote ->
        UnmarshalJSON (repeat quote i ++ c ++ repeat quote j)
        = UnmarshalText c)
  /\ (forall p, wf_policy p = true ->
        UnmarshalJSON (MarshalJSON p) = Some (p, None)).
Proof.
  split; [reflexivity|]. split.
  - intros c i j Hh Hl. unfold UnmarshalJSON. now rewrite Trim_layers.
  - intros p Hwf. unfold UnmarshalJSON, MarshalJSON.
    change (quote :: bytes_of_string (SpendPolicy_String p) ++ [quote])
      with (repeat quote 1 ++ bytes_of_string (SpendPolicy_String p)
            ++ repeat quote 1).
    destruct (render_ends (text_of p)) as (c & m & E & Hc).
    rewrite (render_text_of p Hwf) in E.
    rewrite Trim_layers.
    + unfold UnmarshalText. rewrite string_of_bytes_of_string.
      now apply parse_printed.
    + rewrite E. cbn [bytes_of_string map hd_error]. congruence.
    + rewrite E. unfold bytes_of_string. cbn [map].
      rewrite map_app. cbn [map rev]. rewrite rev_app_distr.
      cbn [rev app hd_error]. discriminate.
Qed.

Lemma UnmarshalJSON_trims_every_quote_witness :
  UnmarshalJSON
    (repeat quote 3 ++ bytes_of_string (lit "above(5)") ++ repeat quote 2)
  = UnmarshalText (bytes_of_string (lit "above(5)"))
  /\ UnmarshalJSON (MarshalJSON sample_policy) = Some (sample_policy, None).
Proof.
  split.
  - apply (proj1 (proj2 UnmarshalJSON_trims_every_quote)
             (bytes_of_string (lit "above(5)")) 3%nat 2%nat); discriminate.
  - apply (proj2 (proj2 UnmarshalJSON_trims_every_quote) sample_policy).
    reflexivity.
Defined.

(** C6, as stated, fails: of two layers of quotation marks around
    [above(5)] both are removed and [above(5)] is parsed without error,
    where the removal of one layer leaves a quoted text that is no
    policy. *)
Lemma UnmarshalJSON_counterexample :
  UnmarshalJSON doubly_quoted = Some (PolicyAbove 5, None)
  /\ spec_strip_one_layer doubly_quoted
     = quote :: bytes_of_string (lit "above(5)") ++ [quote]
  /\ UnmarshalText (spec_strip_one_layer doubly_quoted)
     = Some (NoPolicy,
             Some (ErrUnrecognized (ascii_of_byte quote :: lit "above")))
  /\ ~ (forall b, UnmarshalJSON b = UnmarshalText (spec_strip_one_layer b)).
Proof.
  do 3 (split; [vm_compute; reflexivity|]).
  intros H. specialize (H doubly_quoted). vm_compute in H. discriminate H.
Qed.

(** ** [ParseSpendPolicy] returns on every input *)

Lemma length_trimLeft : forall n t, (length t <= n)%nat ->
  (length (strings.trimLeft t) <= length t)%nat.
Proof.
  induction n as [|n IH]; intros t Hn.
  - destruct t; [cbn; lia|cbn in Hn; lia].
  - destruct t as [|c1 [|c2 [|c3 t]]]; cbn [strings.trimLeft length] in *.
    + lia.
    + destruct (strings.asciiSpace c1); cbn [strings.trimLeft length]; lia.
    + destruct (strings.asciiSpace c1).
      * specialize (IH [c2]). cbn [strings.trimLeft strings.trimLeftRev length] in IH. specialize (IH ltac:(lia)).
        lia.
      * destruct (strings.space2 c1 c2); cbn [strings.trimLeft length]; lia.
    + destruct (strings.asciiSpace c1).
      * specialize (IH (c2 :: c3 :: t)). cbn [strings.trimLeft strings.trimLeftRev length] in IH.
        specialize (IH ltac:(lia)). lia.
      * destruct (strings.space2 c1 c2).
        -- specialize (IH (c3 :: t)). cbn [strings.trimLeft strings.trimLeftRev length] in IH.
           specialize (IH ltac:(lia)). lia.
        -- destruct (strings.space3 c1 c2 c3).
           ++ specialize (IH t ltac:(lia)). lia.
           ++ cbn [length]. lia.
Qed.

Lemma length_trimLeftRev : forall n t, (length t <= n)%nat ->
  (length (strings.trimLeftRev t) <= length t)%nat.
Proof.
  induction n as [|n IH]; intros t Hn.
  - destruct t; [cbn; lia|cbn in Hn; lia].
  - destruct t as [|c1 [|c2 [|c3 t]]]; cbn [strings.trimLeftRev length] in *.
    + lia.
    + destruct (strings.asciiSpace c1); cbn [strings.trimLeftRev length]; lia.
    + destruct (strings.asciiSpace c1).
      * specialize (IH [c2]). cbn [strings.trimLeft strings.trimLeftRev length] in IH. specialize (IH ltac:(lia)).
        lia.
      * destruct (strings.space2 c2 c1); cbn [strings.trimLeftRev length]; lia.
    + destruct (strings.asciiSpace c1).
      * specialize (IH (c2 :: c3 :: t)). cbn [strings.trimLeft strings.trimLeftRev length] in IH.
        specialize (IH ltac:(lia)). lia.
      * destruct (strings.space2 c2 c1).
        -- specialize (IH (c3 :: t)). cbn [strings.trimLeft strings.trimLeftRev length] in IH.
           specialize (IH ltac:(lia)). lia.
        -- destruct (strings.space3 c3 c2 c1).
           ++ specialize (IH t ltac:(lia)). lia.
           ++ cbn [length]. lia.
Qed.

Lemma length_TrimSpace t : (length (strings.TrimSpace t) <= length t)%nat.
Proof.
  unfold strings.TrimSpace, strings.trimRight. rewrite length_rev.
  pose proof (length_trimLeftRev _ (rev (strings.trimLeft t)) (le_n _)) as H1.
  rewrite length_rev in H1.
  pose proof (length_trimLeft _ t (le_n _)). lia.
Qed.

Lemma step_le_refl st : step_le st st.
Proof. split; auto. Qed.

Lemma step_le_trans a b c : step_le a b -> step_le b c -> step_le a c.
Proof. intros [H1 H2] [H3 H4]. split; [lia|auto]. Qed.

Lemma nextToken_le st :
  step_le st (snd (nextToken st))
  /\ (length (fst (nextToken st)) + length (s (snd (nextToken st)))
      <= length (s st))%nat.
Proof.
  unfold nextToken, step_le. pose proof (length_TrimSpace (s st)) as Ht.
  destruct (err st) eqn:E.
  - cbn [fst snd s err length]. repeat split; try lia. congruence.
  - destruct (strings.IndexAny (strings.TrimSpace (s st)) delimiters) as [i|];
      cbn [fst snd s err length]; repeat split; try lia; try congruence.
    + rewrite length_skipn. lia.
    + rewrite <- (firstn_skipn i (strings.TrimSpace (s st))) in Ht.
      now rewrite length_app in Ht.
Qed.

Lemma consume_le b st :
  step_le st (snd (consume b st))
  /\ (err st = None -> err (snd (consume b st)) = None ->
      (length (s (snd (consume b st))) < length (s st))%nat).
Proof.
  unfold consume, step_le. pose proof (length_TrimSpace (s st)) as Ht.
  destruct (err st) eqn:E.
  - cbn [snd]. rewrite E. repeat split; try lia; congruence.
  - destruct (strings.TrimSpace (s st)) as [|c r].
    + cbn [snd s err length]. repeat split; try lia; congruence.
    + destruct (Ascii.eqb c b); cbn [snd s err length] in *;
        repeat split; try lia; congruence.
Qed.

Lemma parseInt_le bits st : step_le st (snd (parseInt bits st)).
Proof.
  unfold parseInt, bind. pose proof (nextToken_le st) as [[H1 H2] _].
  destruct (nextToken st) as [t st1]. cbn [snd] in *.
  unfold step_le.
  destruct (err st1) eqn:E; cbn [snd].
  - rewrite E. now split.
  - destruct (strconv.ParseUint t bits) as [u e]. cbn [snd s err].
    split; auto.
Qed.

Lemma parsePubkey_le st :
  step_le st (snd (parsePubkey st))
  /\ (err st = None -> err (snd (parsePubkey st)) = None ->
      (length (s (snd (parsePubkey st))) < length (s st))%nat).
Proof.
  unfold parsePubkey, bind. pose proof (nextToken_le st) as [[H1 H2] H3].
  destruct (nextToken st) as [t st1]. cbn [fst snd] in *.
  unfold step_le.
  destruct (err st1) eqn:E; cbn [snd].
  - rewrite E. split; [now split|]. intros _ Hn. congruence.
  - destruct (Nat.eqb_spec (length t) 64) as [Hl|Hl]; cbn [negb].
    + destruct (hex.Decode (zero_bytes 32) t) as [pk e]. cbn [snd s err].
      split; [split; auto|]. intros _ _. lia.
    + cbn [snd s err]. split; [split; auto|]. discriminate.
Qed.

Section Fuel.

Context {A : Type}.
Variable item : pstate -> option (A * pstate).
Variable f : nat.
Hypothesis item_total : forall st,
  err st = None -> (length (s st) + 2 <= f)%nat ->
  exists x st', item st = Some (x, st')
                /\ step_le st st'
                /\ (err st' = None -> (length (s st') < length (s st))%nat).

Lemma listLoop_total : forall n acc st,
  match err st with
  | Some _ => (1 <= n)%nat
  | None => (length (s st) + 2 <= n /\ length (s st) + 2 <= f)%nat
  end ->
  exists l st', listLoop item n acc st = Some (l, st') /\ step_le st st'.
Proof.
  induction n as [|n IH]; intros acc st Hn.
  - destruct (err st); lia.
  - cbn [listLoop]. destruct (err st) eqn:E.
    + exists acc, st. split; [reflexivity|apply step_le_refl].
    + destruct Hn as [Hn Hf].
      destruct (Ascii.eqb (fst (peek st)) "]").
      * exists acc, st. split; [reflexivity|apply step_le_refl].
      * destruct (item_total st E Hf) as (x & st1 & -> & Hle & Hlt).
        set (st2 := if Ascii.eqb (fst (peek st1)) "]" then st1
                    else snd (consume "," st1)).
        assert (H12 : step_le st1 st2).
        { unfold st2. destruct (Ascii.eqb (fst (peek st1)) "]");
            [apply step_le_refl|apply consume_le]. }
        destruct (IH (acc ++ [x]) st2) as (l & st' & Hl & Hle').
        { destruct H12 as [Hlen Herr]. destruct Hle as [Hlen1 _].
          destruct (err st2) eqn:E2; [lia|].
          specialize (Hlt (Herr eq_refl)). lia. }
        exists l, st'. split; [assumption|].
        eapply step_le_trans; [exact Hle|].
        eapply step_le_trans; [exact H12|exact Hle'].
Qed.

End Fuel.

Lemma parseSpendPolicy_total : forall fuel st, fuel_ok fuel st ->
  exists p st', parseSpendPolicy fuel st = Some (p, st')
                /\ step_le st st'
                /\ (err st' = None -> (length (s st') < length (s st))%nat).
Proof.
  induction fuel as [|fuel IH]; intros st Hok.
  - unfold fuel_ok in Hok. destruct (err st); lia.
  - cbn [parseSpendPolicy].
    pose proof (nextToken_le st) as [H01 _].
    destruct (nextToken st) as [typ st1]. cbn [snd] in H01.
    pose proof (consume_le "(" st1) as [H12 Hlt].
    set (st2 := snd (consume "(" st1)) in *.
    assert (H02 : step_le st st2) by (eapply step_le_trans; eassumption).
    assert (Hstrict : forall st', step_le st2 st' -> err st' = None ->
                      (length (s st') < length (s st))%nat).
    { intros st' [Hl He] Hn. destruct H01 as [Hl1 He1].
      destruct H12 as [Hl2 He2].
      specialize (Hlt (He2 (He Hn)) (He Hn)). lia. }
    assert (Hfin : forall (p : SpendPolicy) (st3 : pstate), step_le st2 st3 ->
              exists p' st',
                Some (fst (p, st3), snd (consume ")" (snd (p, st3))))
                = Some (p', st')
                /\ step_le st st'
                /\ (err st' = None -> (length (s st') < length (s st))%nat)).
    { intros p st3 H23. cbn [fst snd].
      pose proof (consume_le ")" st3) as [H3 _].
      eexists. eexists. split; [reflexivity|].
      assert (step_le st2 (snd (consume ")" st3)))
        by (eapply step_le_trans; eassumption).
      split; [eapply step_le_trans; eassumption|now apply Hstrict]. }
    assert (Hloop : forall st5, step_le st2 st5 ->
              match err st5 with
              | Some _ => (1 <= S fuel)%nat
              | None => (length (s st5) + 2 <= S fuel
                         /\ length (s st5) + 2 <= fuel)%nat
              end).
    { intros st5 H25. destruct (err st5) eqn:E5; [lia|].
      pose proof (Hstrict st5 H25 E5) as Hs.
      assert (E0 : err st = None).
      { apply H02. now apply H25. }
      unfold fuel_ok in Hok. rewrite E0 in Hok. lia. }
    destruct (text_eqb typ (lit "above")).
    { pose proof (parseInt_le 64 st2) as H23.
      destruct (parseInt 64 st2) as [h st3]. now apply Hfin. }
    destruct (text_eqb typ (lit "pk")).
    { pose proof (parsePubkey_le st2) as [H23 _].
      destruct (parsePubkey st2) as [pk st3]. now apply Hfin. }
    destruct (text_eqb typ (lit "thresh")).
    { pose proof (parseInt_le 8 st2) as H23.
      destruct (parseInt 8 st2) as [n st3]. cbn [snd] in H23.
      pose proof (consume_le "," st3) as [H34 _].
      pose proof (consume_le "[" (snd (consume "," st3))) as [H45 _].
      set (st5 := snd (consume "[" (snd (consume "," st3)))) in *.
      assert (H25 : step_le st2 st5).
      { eapply step_le_trans; [exact H23|].
        eapply step_le_trans; eassumption. }
      destruct (listLoop_total (parseSpendPolicy fuel) fuel) with
        (n := S fuel) (acc := @nil SpendPolicy) (st := st5)
        as (l & st6 & -> & H56).
      - intros st0 E0 Hf0. apply IH. unfold fuel_ok. now rewrite E0.
      - now apply Hloop.
      - pose proof (consume_le "]" st6) as [H67 _].
        apply Hfin.
        eapply step_le_trans; [exact H25|].
        eapply step_le_trans; eassumption. }
    destruct (text_eqb typ (lit "uc")).
    { pose proof (parseInt_le 64 st2) as H23.
      destruct (parseInt 64 st2) as [tl st3]. cbn [snd] in H23.
      pose proof (consume_le "," st3) as [H34 _].
      pose proof (consume_le "[" (snd (consume "," st3))) as [H45 _].
      set (st5 := snd (consume "[" (snd (consume "," st3)))) in *.
      assert (H25 : step_le st2 st5).
      { eapply step_le_trans; [exact H23|].
        eapply step_le_trans; eassumption. }
      destruct (listLoop_total (fun st => Some (parsePubkey st)) fuel) with
        (n := S fuel) (acc := @nil PublicKey) (st := st5)
        as (l & st6 & -> & H56).
      - intros st0 E0 Hf0. pose proof (parsePubkey_le st0) as [Hp Hs].
        destruct (parsePubkey st0) as [pk st0'] eqn:Ep. cbn [snd] in *.
        exists pk, st0'. split; [reflexivity|]. split; [assumption|].
        intros Hn. now apply Hs.
      - now apply Hloop.
      - pose proof (consume_le "]" st6) as [H67 _].
        pose proof (consume_le "," (snd (consume "]" st6))) as [H78 _].
        pose proof (parseInt_le 8 (snd (consume "," (snd (consume "]" st6)))))
          as H89.
        destruct (parseInt 8 (snd (consume "," (snd (consume "]" st6)))))
          as [sg st9]. cbn [snd] in H89.
        apply Hfin.
        eapply step_le_trans; [exact H25|].
        eapply step_le_trans; [exact H56|].
        eapply step_le_trans; [exact H67|].
        eapply step_le_trans; eassumption. }
    apply Hfin. destruct (err st2) eqn:E2; split; cbn [s err]; auto.
Qed.

(** The fuel [ParseSpendPolicy] gives is enough on every input: the model
    always returns a policy and an error value, as the Go function does. *)
Theorem ParseSpendPolicy_total : forall input,
  exists p e, ParseSpendPolicy input = Some (p, e).
Proof.
  intros input. unfold ParseSpendPolicy.
  destruct (parseSpendPolicy_total (length input + 2)
              {| s := input; err := None |}) as (p & st' & -> & _).
  - unfold fuel_ok. cbn [err s]. lia.
  - destruct (err st'); [now eexists; eexists|].
    destruct (s st'); now eexists; eexists.
Qed.
(** * Further properties of the parser, the writer and the accumulator *)

(** ** Termination *)

(** X1. [ParseSpendPolicy] returns on every input. Each call of the
    recursive closure returns, leaves the sticky error set when it was
    set, never lengthens the remaining input and, when it returns without
    an error, has consumed at least one byte, so neither the recursion nor
    the two list loops can go on for ever. *)
Theorem parser_terminates : forall input,
  (exists p e, ParseSpendPolicy input = Some (p, e))
  /\ forall st, exists p st',
       parseSpendPolicy (length (s st) + 2) st = Some (p, st')
       /\ (length (s st') <= length (s st))%nat
       /\ (err st' = None -> err st = None)
       /\ (err st' = None -> (length (s st') < length (s st))%nat).
Proof.
  intros input. split.
  - unfold ParseSpendPolicy.
    destruct (parseSpendPolicy_total (length input + 2)
                {| s := input; err := None |}) as (p & st' & -> & _).
    + unfold fuel_ok. cbn [err s]. lia.
    + destruct (err st'); [now eexists; eexists|].
      destruct (s st'); now eexists; eexists.
  - intros st.
    destruct (parseSpendPolicy_total (length (s st) + 2) st)
      as (p & st' & E & [Hl He] & Hlt).
    + unfold fuel_ok. destruct (err st); lia.
    + exists p, st'. auto.
Qed.

(** ** What an accepted input gives *)

Lemma parseLoop_bound maxVal : forall cs n u,
  strconv.parseLoop cs n maxVal = (u, None) -> n <= maxVal -> u <= maxVal.
Proof.
  induction cs as [|c cs IH]; intros n u H Hn; cbn [strconv.parseLoop] in H.
  - now injection H as <-.
  - destruct ((48 <=? code c) && (code c <=? 57)); [|discriminate].
    destruct (strconv.maxUint64 / 10 + 1 <=? n); [discriminate|].
    destruct (_ <? _); [discriminate|]. cbn [orb] in H.
    match type of H with
    | (if ?m <? ?x then _ else _) = _ =>
        destruct (N.ltb_spec m x); [discriminate|]
    end.
    eapply IH; eassumption.
Qed.

Lemma ParseUint_bound t bits u :
  strconv.ParseUint t bits = (u, None) -> u < 2 ^ bits.
Proof.
  unfold strconv.ParseUint. destruct t as [|c t]; [discriminate|].
  intros H. apply parseLoop_bound in H; [|lia].
  pose proof (pow2_pos bits). lia.
Qed.

Lemma parseInt_bound bits st :
  err (snd (parseInt bits st)) = None -> fst (parseInt bits st) < 2 ^ bits.
Proof.
  unfold parseInt, bind. destruct (nextToken st) as [t st1].
  destruct (err st1) eqn:E; cbn [fst snd]; [congruence|].
  destruct (strconv.ParseUint t bits) as [u [e|]] eqn:Ep; cbn [fst snd err];
    [discriminate|].
  intros _. now apply (ParseUint_bound t).
Qed.

Lemma length_decodeFrom : forall src i dst,
  length (fst (hex.decodeFrom i dst src)) = length dst.
Proof.
  induction src as [|p|p q r IH] using pair_ind; intros i dst;
    cbn [hex.decodeFrom].
  - reflexivity.
  - now destruct (hex.fromHexChar p).
  - destruct (hex.fromHexChar p); [|reflexivity].
    destruct (hex.fromHexChar q); [|reflexivity].
    now rewrite IH, length_store.
Qed.

Lemma parsePubkey_length32 st : length (fst (parsePubkey st)) = 32%nat.
Proof.
  unfold parsePubkey, bind. destruct (nextToken st) as [t st1].
  destruct (err st1); [reflexivity|].
  destruct (negb (length t =? 64)%nat); [reflexivity|].
  pose proof (length_decodeFrom t 0 (zero_bytes 32)) as H.
  unfold hex.Decode. destruct (hex.decodeFrom 0 (zero_bytes 32) t).
  exact H.
Qed.

Section LoopSound.

Context {A : Type}.
Variable P : A -> Prop.
Variable item : pstate -> option (A * pstate).
Hypothesis item_sound : forall st x st1,
  item st = Some (x, st1) -> step_le st st1 /\ (err st1 = None -> P x).

Lemma listLoop_sound : forall n acc st l st',
  listLoop item n acc st = Some (l, st') ->
  step_le st st' /\ (err st' = None -> Forall P acc -> Forall P l).
Proof.
  induction n as [|n IH]; intros acc st l st' H; [discriminate|].
  cbn [listLoop] in H. destruct (err st) eqn:E.
  { injection H as <- <-. split; [apply step_le_refl|auto]. }
  destruct (Ascii.eqb (fst (peek st)) "]").
  { injection H as <- <-. split; [apply step_le_refl|auto]. }
  destruct (item st) as [[x st1]|] eqn:Ei; [|discriminate].
  destruct (item_sound _ _ _ Ei) as [H01 Hx].
  set (st2 := if Ascii.eqb (fst (peek st1)) "]" then st1
              else snd (consume "," st1)) in H.
  assert (H12 : step_le st1 st2).
  { unfold st2. destruct (Ascii.eqb (fst (peek st1)) "]");
      [apply step_le_refl|apply consume_le]. }
  destruct (IH _ _ _ _ H) as [H2 Hl]. split.
  - eapply step_le_trans; [exact H01|].
    eapply step_le_trans; eassumption.
  - intros He Hacc. apply Hl; [assumption|].
    apply Forall_app. split; [assumption|].
    constructor; [|constructor]. apply Hx. apply H12. now apply H2.
Qed.

End LoopSound.

Lemma parseSpendPolicy_sound : forall fuel st p st',
  parseSpendPolicy fuel st = Some (p, st') ->
  step_le st st' /\ (err st' = None -> wf_policy p = true).
Proof.
  induction fuel as [|fuel IH]; intros st p st' H; [discriminate|].
  cbn [parseSpendPolicy] in H.
  pose proof (nextToken_le st) as [H01 _].
  destruct (nextToken st) as [typ st1]. cbn [snd] in H01.
  pose proof (consume_le "(" st1) as [H12 _].
  set (st2 := snd (consume "(" st1)) in *.
  assert (H02 : step_le st st2) by (eapply step_le_trans; eassumption).
  assert (Hfin : forall (q : SpendPolicy) (st3 : pstate),
            Some (fst (q, st3), snd (consume ")" (snd (q, st3))))
            = Some (p, st') ->
            step_le st2 st3 ->
            (err st3 = None -> wf_policy q = true) ->
            step_le st st' /\ (err st' = None -> wf_policy p = true)).
  { intros q st3 E H23 Hq. cbn [fst snd] in E. injection E as <- <-.
    pose proof (consume_le ")" st3) as [H3 _]. split.
    - eapply step_le_trans; [exact H02|].
      eapply step_le_trans; eassumption.
    - intros He. apply Hq. now apply H3. }
  destruct (text_eqb typ (lit "above")).
  { pose proof (parseInt_le 64 st2) as H23.
    pose proof (parseInt_bound 64 st2) as Hb.
    destruct (parseInt 64 st2) as [h st3]. cbn [fst snd] in *.
    apply (Hfin _ _ H H23). intros He. cbn [wf_policy].
    now apply N.ltb_lt, Hb. }
  destruct (text_eqb typ (lit "pk")).
  { pose proof (parsePubkey_le st2) as [H23 _].
    pose proof (parsePubkey_length32 st2) as Hl.
    destruct (parsePubkey st2) as [pk st3]. cbn [fst snd] in *.
    apply (Hfin _ _ H H23). intros _. cbn [wf_policy]. now apply Nat.eqb_eq. }
  destruct (text_eqb typ (lit "thresh")).
  { pose proof (parseInt_le 8 st2) as H23.
    destruct (parseInt 8 st2) as [n st3]. cbn [snd] in H23.
    pose proof (consume_le "," st3) as [H34 _].
    pose proof (consume_le "[" (snd (consume "," st3))) as [H45 _].
    set (st5 := snd (consume "[" (snd (consume "," st3)))) in *.
    destruct (listLoop (parseSpendPolicy fuel) (S fuel) [] st5)
      as [[l st6]|] eqn:El; [|discriminate].
    destruct (listLoop_sound (fun q => wf_policy q = true)
                (parseSpendPolicy fuel) (fun a b c => IH a b c)
                _ _ _ _ _ El) as [H56 Hl].
    pose proof (consume_le "]" st6) as [H67 _].
    apply (Hfin _ _ H).
    - eapply step_le_trans; [exact H23|].
      eapply step_le_trans; [exact H34|].
      eapply step_le_trans; [exact H45|].
      eapply step_le_trans; eassumption.
    - intros He. cbn [wf_policy]. apply andb_true_iff. split.
      + apply N.ltb_lt, N.mod_lt. discriminate.
      + apply forallb_forall. apply Forall_forall.
        apply Hl; [now apply H67|constructor]. }
  destruct (text_eqb typ (lit "uc")).
  { pose proof (parseInt_le 64 st2) as H23.
    pose proof (parseInt_bound 64 st2) as Hb.
    destruct (parseInt 64 st2) as [tl st3]. cbn [fst snd] in *.
    pose proof (consume_le "," st3) as [H34 _].
    pose proof (consume_le "[" (snd (consume "," st3))) as [H45 _].
    set (st5 := snd (consume "[" (snd (consume "," st3)))) in *.
    destruct (listLoop (fun st0 => Some (parsePubkey st0)) (S fuel) [] st5)
      as [[l st6]|] eqn:El; [|discriminate].
    destruct (listLoop_sound (fun pk => length pk = 32%nat)
                (fun st0 => Some (parsePubkey st0))) with
      (n := S fuel) (acc := @nil PublicKey) (st := st5) (l := l) (st' := st6)
      as [H56 Hl]; [|exact El|].
    { intros st0 x sx E. injection E as E.
      pose proof (parsePubkey_le st0) as [Hp _].
      pose proof (parsePubkey_length32 st0) as Hlen.
      rewrite E in Hp, Hlen. cbn [fst snd] in *. now split. }
    pose proof (consume_le "]" st6) as [H67 _].
    pose proof (consume_le "," (snd (consume "]" st6))) as [H78 _].
    pose proof (parseInt_le 8 (snd (consume "," (snd (consume "]" st6)))))
      as H89.
    destruct (parseInt 8 (snd (consume "," (snd (consume "]" st6)))))
      as [sg st9]. cbn [snd] in H89.
    assert (H39 : step_le st3 st9).
    { eapply step_le_trans; [exact H34|].
      eapply step_le_trans; [exact H45|].
      eapply step_le_trans; [exact H56|].
      eapply step_le_trans; [exact H67|].
      eapply step_le_trans; eassumption. }
    apply (Hfin _ _ H).
    - eapply step_le_trans; eassumption.
    - intros He. cbn [wf_policy Timelock PublicKeys SignaturesRequired].
      rewrite !andb_true_iff. repeat split.
      + apply N.ltb_lt, Hb. now apply H39.
      + apply forallb_forall. intros pk Hin. apply Nat.eqb_eq.
        revert pk Hin. apply Forall_forall. apply Hl; [|constructor].
        apply H67, H78, H89, He.
      + apply N.ltb_lt, N.mod_lt. discriminate. }
  apply (Hfin _ _ H).
  - destruct (err st2) eqn:E2; split; cbn [s err]; auto.
  - destruct (err st2) eqn:E2; cbn [err]; intros He; congruence.
Qed.

Lemma parse_ok_wf input p :
  ParseSpendPolicy input = Some (p, None) -> wf_policy p = true.
Proof.
  unfold ParseSpendPolicy.
  destruct (parseSpendPolicy (length input + 2) {| s := input; err := None |})
    as [[q st]|] eqn:E; [|discriminate].
  destruct (parseSpendPolicy_sound _ _ _ _ E) as [_ Hwf].
  destruct (err st) eqn:Ee.
  - intros H. inversion H.
  - destruct (s st); intros [= <-]; auto.
Qed.

(** X2. A policy that [ParseSpendPolicy] returns without an error is well
    formed at every level: no sub-policy is the zero [SpendPolicy], heights
    and timelocks fit 64 bits, counts fit 8 bits and every key has 32
    bytes. *)
Theorem accepted_policy_well_formed : forall input p,
  ParseSpendPolicy input = Some (p, None) -> wf_policy p = true.
Proof.
  intros input p. unfold ParseSpendPolicy.
  destruct (parseSpendPolicy (length input + 2) {| s := input; err := None |})
    as [[q st]|] eqn:E; [|discriminate].
  destruct (parseSpendPolicy_sound _ _ _ _ E) as [_ Hwf].
  destruct (err st) eqn:Ee.
  - intros H. inversion H.
  - destruct (s st); intros [= <-]; auto.
Qed.

Lemma accepted_policy_well_formed_witness :
  wf_policy (PolicyThreshold 1 [PolicyAbove 5]) = true.
Proof.
  apply (accepted_policy_well_formed (lit "thresh(1, [ above(05) ,])")).
  vm_compute. reflexivity.
Defined.

(** X3. [String] normalises what the parser accepts: when
    [ParseSpendPolicy] returns [p] without an error, whatever the spelling
    of the input, the text [String] prints for [p] is accepted too and
    gives [p] again, and it is a text of the grammar whose numerals carry
    no leading zero. *)
Theorem accepted_text_normalises : forall input p,
  ParseSpendPolicy input = Some (p, None) ->
  ParseSpendPolicy (SpendPolicy_String p) = Some (p, None)
  /\ canonical_text (text_of p) = true
  /\ render (text_of p) = SpendPolicy_String p.
Proof.
  intros input p H. apply parse_ok_wf in H. split; [|split].
  - now apply parse_printed.
  - now apply canonical_text_of.
  - now apply render_text_of.
Qed.

Lemma accepted_text_normalises_witness :
  ParseSpendPolicy (SpendPolicy_String (PolicyAbove 7))
  = Some (PolicyAbove 7, None)
  /\ canonical_text (text_of (PolicyAbove 7)) = true
  /\ render (text_of (PolicyAbove 7)) = SpendPolicy_String (PolicyAbove 7).
Proof.
  apply (accepted_text_normalises (lit "above( 007)")).
  vm_compute. reflexivity.
Defined.

(** ** The alphabet of the writer *)

Lemma digit_char d : policy_char (strconv.digit (d mod 10)) = true.
Proof.
  assert (H : d mod 10 < N.of_nat 10) by (apply N.mod_lt; discriminate).
  revert H. generalize (d mod 10). intros u H.
  apply (N_forall_below (fun u => policy_char (strconv.digit u)) 10);
    [reflexivity|assumption].
Qed.

Lemma formatBits_chars : forall fuel u acc,
  forallb policy_char acc = true ->
  forallb policy_char (strconv.formatBits fuel u acc) = true.
Proof.
  induction fuel as [|fuel IH]; intros u acc H; [assumption|].
  cbn [strconv.formatBits].
  assert (H' : forallb policy_char (strconv.digit (u mod 10) :: acc) = true).
  { cbn [forallb]. now rewrite digit_char. }
  destruct (u / 10 =? 0); [assumption|now apply IH].
Qed.

Lemma FormatUint_chars u : forallb policy_char (strconv.FormatUint u) = true.
Proof. unfold strconv.FormatUint. now apply formatBits_chars. Qed.

Lemma hexdigit_char d : d < 16 -> policy_char (hex.hexdigit d) = true.
Proof.
  intros H.
  apply (N_forall_below (fun u => policy_char (hex.hexdigit u)) 16);
    [reflexivity|assumption].
Qed.

Lemma EncodeToString_chars pk :
  forallb policy_char (hex.EncodeToString pk) = true.
Proof.
  unfold hex.EncodeToString. induction pk as [|v pk IH]; [reflexivity|].
  cbn [flat_map app forallb]. rewrite IH.
  assert (Hv : Byte.to_N v < 256).
  { pose proof (Byte.to_N_bounded v). lia. }
  rewrite !hexdigit_char; [reflexivity| |].
  - apply N.mod_lt. discriminate.
  - apply N.Div0.div_lt_upper_bound. exact Hv.
Qed.

Lemma joinComma_chars parts :
  Forall (fun x => forallb policy_char x = true) parts ->
  forallb policy_char (joinComma parts) = true.
Proof.
  intros H. destruct H as [|x rest Hx Hrest]; [reflexivity|].
  cbn [joinComma]. rewrite forallb_app, Hx. cbn [andb].
  induction Hrest as [|z rest Hz Hrest IH]; [reflexivity|].
  cbn [flat_map]. rewrite !forallb_app, Hz, IH. reflexivity.
Qed.

Lemma String_chars : forall p,
  forallb policy_char (SpendPolicy_String p) = true.
Proof.
  induction p as [|h|pk|n Of IH|uc] using SpendPolicy_nested_ind;
    cbn [SpendPolicy_String].
  - reflexivity.
  - now rewrite !forallb_app, FormatUint_chars.
  - now rewrite !forallb_app, EncodeToString_chars.
  - rewrite !forallb_app, FormatUint_chars, joinComma_chars; [reflexivity|].
    apply Forall_map. exact IH.
  - rewrite !forallb_app, !FormatUint_chars, joinComma_chars; [reflexivity|].
    apply Forall_map, Forall_forall. intros pk _.
    apply EncodeToString_chars.
Qed.

(** X4. The text [String] prints, for any policy, is made of decimal
    digits, lower-case hex digits, the letters of the four keywords and
    the five delimiters only. So [MarshalText] gives that text byte for
    byte, it holds no quotation mark, and [MarshalJSON] is that text
    between two quotation marks with nothing to escape. *)
Theorem String_alphabet : forall p,
  forallb policy_char (SpendPolicy_String p) = true
  /\ string_of_bytes (MarshalText p) = SpendPolicy_String p
  /\ MarshalJSON p = quote :: MarshalText p ++ [quote]
  /\ ~ In quote (MarshalText p).
Proof.
  intros p. split; [apply String_chars|].
  split; [apply string_of_bytes_of_string|]. split; [reflexivity|].
  unfold MarshalText, bytes_of_string. intros Hin.
  apply in_map_iff in Hin. destruct Hin as (c & Hc & Hin).
  pose proof (String_chars p) as H. rewrite forallb_forall in H.
  specialize (H c Hin).
  apply (f_equal ascii_of_byte) in Hc.
  rewrite ascii_of_byte_of_ascii in Hc. subst c. discriminate H.
Qed.

(** ** Distinct policies have distinct texts *)

(** X5. [String] tells well-formed policies apart: two different policies
    never print the same text. *)
Theorem String_distinguishes_policies : forall p q,
  wf_policy p = true -> wf_policy q = true -> p <> q ->
  SpendPolicy_String p <> SpendPolicy_String q.
Proof.
  intros p q Hp Hq Hne E. apply Hne.
  pose proof (parse_printed p Hp) as H1.
  rewrite E, (parse_printed q Hq) in H1. now injection H1.
Qed.

Lemma String_distinguishes_policies_witness :
  SpendPolicy_String (PolicyThreshold 1 [PolicyAbove 5])
  <> SpendPolicy_String (PolicyThreshold 1 [PolicyAbove 5; AnyoneCanSpend]).
Proof.
  apply (String_distinguishes_policies
           (PolicyThreshold 1 [PolicyAbove 5])
           (PolicyThreshold 1 [PolicyAbove 5; AnyoneCanSpend]));
    [reflexivity|reflexivity|discriminate].
Defined.

(** ** White space around the input *)

Lemma trimLeft_fixed t : headSpace t = false -> strings.trimLeft t = t.
Proof.
  destruct t as [|c1 [|c2 [|c3 t]]]; cbn [headSpace strings.trimLeft];
    try reflexivity;
    destruct (strings.asciiSpace c1); try discriminate; try reflexivity;
    destruct (strings.space2 c1 c2); try discriminate; try reflexivity;
    destruct (strings.space3 c1 c2 c3); try discriminate; reflexivity.
Qed.

Lemma headSpace_trimLeft : forall n t, (length t <= n)%nat ->
  headSpace (strings.trimLeft t) = false.
Proof.
  induction n as [|n IH]; intros t Hn.
  - destruct t; [reflexivity|cbn in Hn; lia].
  - destruct t as [|c1 t]; [reflexivity|]. cbn [length] in Hn.
    cbn [strings.trimLeft].
    destruct (strings.asciiSpace c1) eqn:E1; [apply IH; lia|].
    destruct t as [|c2 t]; [cbn [headSpace]; now rewrite E1|].
    cbn [length] in Hn.
    destruct (strings.space2 c1 c2) eqn:E2; [apply IH; lia|].
    destruct t as [|c3 t]; [cbn [headSpace]; now rewrite E1, E2|].
    cbn [length] in Hn.
    destruct (strings.space3 c1 c2 c3) eqn:E3; [apply IH; lia|].
    cbn [headSpace]. now rewrite E1, E2, E3.
Qed.

Lemma headSpace_firstn k t :
  headSpace t = false -> headSpace (firstn k t) = false.
Proof.
  destruct t as [|c1 [|c2 [|c3 t]]]; destruct k as [|[|[|k]]];
    cbn [headSpace firstn]; try reflexivity;
    destruct (strings.asciiSpace c1); try discriminate; try reflexivity;
    destruct (strings.space2 c1 c2); try discriminate; try reflexivity;
    destruct (strings.space3 c1 c2 c3); try discriminate; reflexivity.
Qed.

Lemma trimLeftRev_skipn : forall n r, (length r <= n)%nat ->
  exists j, strings.trimLeftRev r = skipn j r.
Proof.
  induction n as [|n IH]; intros r Hn.
  - destruct r; [now exists 0%nat|cbn in Hn; lia].
  - destruct r as [|c1 r]; [now exists 0%nat|]. cbn [length] in Hn.
    cbn [strings.trimLeftRev].
    destruct (strings.asciiSpace c1).
    { destruct (IH r) as [j Hj]; [lia|]. now exists (S j). }
    destruct r as [|c2 r]; [now exists 0%nat|]. cbn [length] in Hn.
    destruct (strings.space2 c2 c1).
    { destruct (IH r) as [j Hj]; [lia|]. now exists (S (S j)). }
    destruct r as [|c3 r]; [now exists 0%nat|]. cbn [length] in Hn.
    destruct (strings.space3 c3 c2 c1).
    { destruct (IH r) as [j Hj]; [lia|]. now exists (S (S (S j))). }
    now exists 0%nat.
Qed.

Lemma trimRight_firstn t : exists k, strings.trimRight t = firstn k t.
Proof.
  unfold strings.trimRight.
  destruct (trimLeftRev_skipn _ (rev t) (le_n _)) as [j ->].
  exists (length t - j)%nat. now rewrite skipn_rev, rev_involutive.
Qed.

Lemma TrimSpace_idem t :
  strings.TrimSpace (strings.TrimSpace t) = strings.TrimSpace t.
Proof.
  unfold strings.TrimSpace.
  destruct (trimRight_firstn (strings.trimLeft t)) as [k Hk].
  rewrite (trimLeft_fixed (strings.trimRight (strings.trimLeft t))).
  - apply trimRight_idem.
  - rewrite Hk. apply headSpace_firstn.
    exact (headSpace_trimLeft _ t (le_n _)).
Qed.

Lemma nextToken_TrimSpace x e :
  nextToken {| s := strings.TrimSpace x; err := e |}
  = nextToken {| s := x; err := e |}.
Proof. unfold nextToken. cbn [s err]. now rewrite TrimSpace_idem. Qed.

Lemma parseSpendPolicy_TrimSpace fuel x e :
  parseSpendPolicy fuel {| s := strings.TrimSpace x; err := e |}
  = parseSpendPolicy fuel {| s := x; err := e |}.
Proof.
  destruct fuel as [|fuel]; [reflexivity|].
  cbn [parseSpendPolicy]. now rewrite nextToken_TrimSpace.
Qed.

(** More fuel never changes a result. *)
Lemma listLoop_mono {A} (item item' : pstate -> option (A * pstate)) :
  (forall st r, item st = Some r -> item' st = Some r) ->
  forall n n' acc st r, (n <= n')%nat ->
  listLoop item n acc st = Some r -> listLoop item' n' acc st = Some r.
Proof.
  intros Hi. induction n as [|n IH]; intros n' acc st r Hn H; [discriminate|].
  destruct n' as [|n']; [lia|]. cbn [listLoop] in *.
  destruct (err st); [assumption|].
  destruct (Ascii.eqb (fst (peek st)) "]"); [assumption|].
  destruct (item st) as [[x st1]|] eqn:E; [|discriminate].
  rewrite (Hi _ _ E). apply (IH n'); [lia|assumption].
Qed.

Lemma parseSpendPolicy_mono : forall fuel fuel' st r, (fuel <= fuel')%nat ->
  parseSpendPolicy fuel st = Some r -> parseSpendPolicy fuel' st = Some r.
Proof.
  induction fuel as [|fuel IH]; intros fuel' st r Hf H; [discriminate|].
  destruct fuel' as [|fuel']; [lia|]. cbn [parseSpendPolicy] in *.
  destruct (nextToken st) as [typ st1].
  destruct (text_eqb typ (lit "above")); [assumption|].
  destruct (text_eqb typ (lit "pk")); [assumption|].
  destruct (text_eqb typ (lit "thresh")).
  { destruct (parseInt 8 (snd (consume "(" st1))) as [n st3].
    destruct (listLoop (parseSpendPolicy fuel) (S fuel) [] _)
      as [[l st6]|] eqn:El; [|discriminate].
    rewrite (listLoop_mono (parseSpendPolicy fuel) (parseSpendPolicy fuel')
               (fun a b => IH fuel' a b ltac:(lia))
               (S fuel) (S fuel') _ _ _ ltac:(lia) El).
    assumption. }
  destruct (text_eqb typ (lit "uc")); [|assumption].
  destruct (parseInt 64 (snd (consume "(" st1))) as [tl st3].
  destruct (listLoop (fun st0 => Some (parsePubkey st0)) (S fuel) [] _)
    as [[l st6]|] eqn:El; [|discriminate].
  rewrite (listLoop_mono _ (fun st0 => Some (parsePubkey st0))
             (fun a b H0 => H0) (S fuel) (S fuel') _ _ _ ltac:(lia) El).
  assumption.
Qed.

(** X6. [ParseSpendPolicy] ignores the white space around its input:
    the input and the input with its leading and trailing white space
    removed (as [strings.TrimSpace] removes it) give the same policy and
    the same error. *)
Theorem outer_white_space_ignored : forall input,
  ParseSpendPolicy (strings.TrimSpace input) = ParseSpendPolicy input.
Proof.
  intros input. unfold ParseSpendPolicy.
  pose proof (length_TrimSpace input) as Hl.
  destruct (parseSpendPolicy_total (length (strings.TrimSpace input) + 2)
              {| s := strings.TrimSpace input; err := None |})
    as (p & st & E & _); [unfold fuel_ok; cbn [err s]; lia|].
  rewrite E.
  apply (parseSpendPolicy_mono _ (length input + 2)) in E; [|lia].
  rewrite parseSpendPolicy_TrimSpace in E. now rewrite E.
Qed.

(** ** White space before a token *)

Lemma trimLeft_spaces ws x : forallb strings.asciiSpace ws = true ->
  strings.trimLeft (ws ++ x) = strings.trimLeft x.
Proof.
  induction ws as [|c ws IH]; intros H; [reflexivity|].
  cbn [forallb] in H. apply andb_true_iff in H. destruct H as [Hc H].
  cbn [app strings.trimLeft]. rewrite Hc. now apply IH.
Qed.

Lemma nextToken_spaces ws x e : forallb strings.asciiSpace ws = true ->
  nextToken {| s := ws ++ x; err := e |} = nextToken {| s := x; err := e |}.
Proof.
  intros H. unfold nextToken, strings.TrimSpace. cbn [s err].
  now rewrite trimLeft_spaces.
Qed.

Lemma consume_spaces b ws x : forallb strings.asciiSpace ws = true ->
  consume b {| s := ws ++ x; err := None |}
  = consume b {| s := x; err := None |}.
Proof.
  intros H. unfold consume, strings.TrimSpace. cbn [s err].
  now rewrite trimLeft_spaces.
Qed.

Lemma parseInt_spaces bits ws x e : forallb strings.asciiSpace ws = true ->
  parseInt bits {| s := ws ++ x; err := e |}
  = parseInt bits {| s := x; err := e |}.
Proof. intros H. unfold parseInt, bind. now rewrite nextToken_spaces. Qed.

Lemma parsePubkey_spaces ws x e : forallb strings.asciiSpace ws = true ->
  parsePubkey {| s := ws ++ x; err := e |}
  = parsePubkey {| s := x; err := e |}.
Proof. intros H. unfold parsePubkey, bind. now rewrite nextToken_spaces. Qed.

Lemma trimRight_spaces ws : forallb strings.asciiSpace ws = true ->
  strings.trimRight ws = [].
Proof.
  intros H. unfold strings.trimRight.
  assert (Hr : forallb strings.asciiSpace (rev ws) = true).
  { rewrite forallb_forall in *. intros c Hc. apply H. now apply in_rev. }
  revert Hr. generalize (rev ws). intros r.
  induction r as [|c r IH]; intros Hr; [reflexivity|].
  cbn [forallb] in Hr. apply andb_true_iff in Hr. destruct Hr as [Hc Hr].
  cbn [strings.trimLeftRev]. rewrite Hc. now apply IH.
Qed.

Lemma trimRight_pad ws t c m : plain c = true ->
  strings.trimRight (ws ++ t ++ c :: m) = ws ++ t ++ c :: strings.trimRight m.
Proof.
  intros H. rewrite !app_assoc. now apply trimRight_mid.
Qed.

Ltac pad_norm :=
  repeat first
    [ rewrite trimRight_idem
    | rewrite trimRight_cons by reflexivity
    | rewrite trimRight_pad by reflexivity
    | rewrite trimRight_mid by reflexivity ].

Lemma space_not_bracket c :
  strings.asciiSpace c = true -> Ascii.eqb c "]" = false.
Proof. by_ascii c. Qed.

Lemma padded_head ws (t : text) :
  forallb strings.asciiSpace ws = true ->
  (exists c r, t = c :: r /\ Ascii.eqb c "]" = false) ->
  exists c r, ws ++ t = c :: r /\ Ascii.eqb c "]" = false.
Proof.
  intros Hws Ht. destruct ws as [|c ws]; [exact Ht|].
  cbn [forallb] in Hws. apply andb_true_iff in Hws. destruct Hws as [Hc _].
  exists c, (ws ++ t). split; [reflexivity|now apply space_not_bracket].
Qed.

Lemma render_padded_head ws w : forallb strings.asciiSpace ws = true ->
  exists c r, render_padded ws w = c :: r /\ Ascii.eqb c "]" = false.
Proof.
  intros Hws. destruct w; cbn [render_padded]; apply padded_head;
    try assumption; cbn; eexists; eexists; split; reflexivity.
Qed.

Lemma parse_padded ws : forallb strings.asciiSpace ws = true ->
  forall w, grammar_text w = true ->
  forall fuel y, (length (render_padded ws w) <= fuel)%nat ->
  parseSpendPolicy fuel {| s := render_padded ws w ++ y; err := None |}
  = Some (policy_of w, {| s := strings.trimRight y; err := None |}).
Proof.
  intros Hws.
  induction w as [h|k|n Of IH|t keys n] using ptext_nested_ind;
    intros Hg fuel y Hf; cbn [grammar_text text_ok] in Hg.
  - (* above *)
    destruct fuel as [|fuel]; [cbn in Hf; rewrite length_app in Hf; cbn in Hf; lia|].
    cbn [render_padded]. rewrite <- !app_assoc.
    change (ws ++ lit "above(" ++ ws ++ h ++ lit ")" ++ y)
      with (ws ++ lit "above" ++ "("%char :: ws ++ h ++ ")"%char :: y).
    cbn [parseSpendPolicy]. rewrite nextToken_spaces by assumption.
    rewrite nextToken_token by reflexivity. pad_norm. eval_typ.
    rewrite consume_plain by reflexivity. cbn [snd]. pad_norm.
    rewrite parseInt_spaces by assumption.
    rewrite (parseInt_numeral 64) by (try assumption; try reflexivity; lia).
    cbn [fst snd policy_of].
    rewrite consume_plain by reflexivity. cbn [snd]. pad_norm.
    reflexivity.
  - (* pk *)
    destruct fuel as [|fuel]; [cbn in Hf; rewrite length_app in Hf; cbn in Hf; lia|].
    cbn [render_padded]. rewrite <- !app_assoc.
    change (ws ++ lit "pk(" ++ ws ++ k ++ lit ")" ++ y)
      with (ws ++ lit "pk" ++ "("%char :: ws ++ k ++ ")"%char :: y).
    cbn [parseSpendPolicy]. rewrite nextToken_spaces by assumption.
    rewrite nextToken_token by reflexivity. pad_norm. eval_typ.
    rewrite consume_plain by reflexivity. cbn [snd]. pad_norm.
    rewrite parsePubkey_spaces by assumption.
    rewrite parsePubkey_key by (try assumption; reflexivity).
    cbn [fst snd policy_of].
    rewrite consume_plain by reflexivity. cbn [snd]. pad_norm.
    reflexivity.
  - (* thresh *)
    apply andb_true_iff in Hg. destruct Hg as [Hn HOf].
    destruct fuel as [|fuel]; [cbn in Hf; rewrite length_app in Hf; cbn in Hf; lia|].
    cbn [render_padded] in *. rewrite <- !app_assoc.
    change (ws ++ lit "thresh(" ++ ws ++ n ++ lit "," ++ ws ++ lit "["
            ++ joinComma (map (render_padded ws) Of) ++ lit "])" ++ y)
      with (ws ++ lit "thresh" ++ "("%char :: ws ++ n ++ ","%char
            :: ws ++ "["%char
            :: joinComma (map (render_padded ws) Of)
               ++ "]"%char :: ")"%char :: y).
    cbn [parseSpendPolicy]. rewrite nextToken_spaces by assumption.
    rewrite nextToken_token by reflexivity. pad_norm. eval_typ.
    rewrite consume_plain by reflexivity. cbn [snd]. pad_norm.
    rewrite parseInt_spaces by assumption.
    rewrite (parseInt_numeral 8) by (try assumption; try reflexivity; lia).
    rewrite consume_plain by reflexivity. cbn [snd]. pad_norm.
    rewrite consume_spaces by assumption.
    rewrite consume_plain by reflexivity. cbn [snd]. pad_norm.
    rewrite !length_app in Hf. cbn [lit list_ascii_of_string length] in Hf.
    pose proof (listLoop_items (parseSpendPolicy fuel) (render_padded ws)
                  policy_of false
                  (")"%char :: strings.trimRight y) Of (S fuel)) as HL.
    cbn [app] in HL. rewrite HL; clear HL.
    + rewrite consume_plain by reflexivity. cbn [snd fst]. pad_norm.
      rewrite consume_plain by reflexivity. cbn [snd]. pad_norm.
      cbn [policy_of]. now rewrite numeral_mod.
    + now pad_norm.
    + intros x Hin. split; [|now apply render_padded_head].
      intros d m _. rewrite Forall_forall in IH. apply IH; [assumption| |].
      * rewrite forallb_forall in HOf. now apply HOf.
      * pose proof (length_joinComma_in (map (render_padded ws) Of)
                      (render_padded ws x)
                      (in_map (render_padded ws) Of x Hin)). lia.
    + pose proof (length_joinComma_count (map (render_padded ws) Of)) as Hc.
      rewrite length_map in Hc. lia.
    + discriminate.
  - (* uc *)
    apply andb_true_iff in Hg. destruct Hg as [Hg Hsig].
    apply andb_true_iff in Hg. destruct Hg as [Ht Hkeys].
    destruct fuel as [|fuel]; [cbn in Hf; rewrite length_app in Hf; cbn in Hf; lia|].
    cbn [render_padded] in *. rewrite <- !app_assoc.
    change (ws ++ lit "uc(" ++ ws ++ t ++ lit "," ++ ws ++ lit "["
            ++ joinComma (map (fun k => ws ++ k) keys)
            ++ lit "]," ++ ws ++ n ++ lit ")" ++ y)
      with (ws ++ lit "uc" ++ "("%char :: ws ++ t ++ ","%char
            :: ws ++ "["%char
            :: joinComma (map (fun k => ws ++ k) keys) ++ "]"%char
            :: ","%char :: ws ++ n ++ ")"%char :: y).
    cbn [parseSpendPolicy]. rewrite nextToken_spaces by assumption.
    rewrite nextToken_token by reflexivity. pad_norm. eval_typ.
    rewrite consume_plain by reflexivity. cbn [snd]. pad_norm.
    rewrite parseInt_spaces by assumption.
    rewrite (parseInt_numeral 64) by (try assumption; try reflexivity; lia).
    rewrite consume_plain by reflexivity. cbn [snd]. pad_norm.
    rewrite consume_spaces by assumption.
    rewrite consume_plain by reflexivity. cbn [snd]. pad_norm.
    rewrite !length_app in Hf. cbn [lit list_ascii_of_string length] in Hf.
    pose proof (listLoop_items (fun st => Some (parsePubkey st))
                  (fun k => ws ++ k) unhex false
                  (","%char :: ws ++ n ++ ")"%char :: strings.trimRight y)
                  keys (S fuel)) as HL.
    cbn [app] in HL. unfold text in HL |- *. rewrite HL; clear HL.
    + rewrite consume_plain by reflexivity. cbn [snd fst]. pad_norm.
      rewrite consume_plain by reflexivity. cbn [snd]. pad_norm.
      rewrite parseInt_spaces by assumption.
      rewrite (parseInt_numeral 8) by (try assumption; try reflexivity; lia).
      cbn [fst snd].
      rewrite consume_plain by reflexivity. cbn [snd]. pad_norm.
      cbn [policy_of]. now rewrite numeral_mod.
    + now pad_norm.
    + intros x Hin. rewrite forallb_forall in Hkeys.
      split; [|apply padded_head; [assumption|now apply hex_key_head, Hkeys]].
      intros d m Hd. rewrite <- app_assoc.
      rewrite parsePubkey_spaces by assumption.
      rewrite parsePubkey_key by (try apply Hkeys; assumption).
      now rewrite trimRight_cons by now apply is_delim_plain.
    + pose proof (length_joinComma_count (map (fun k => ws ++ k) keys)) as Hc.
      rewrite length_map in Hc. lia.
    + discriminate.
Qed.

(** X7. White space before a token is skipped: a text of the grammar
    with the same run of ASCII white space before every keyword, numeral
    and key and before each bracket that opens a list, and with white
    space after it, is accepted and denotes the same policy. *)
Theorem white_space_before_tokens_accepted : forall ws ws' w,
  forallb strings.asciiSpace ws = true ->
  forallb strings.asciiSpace ws' = true ->
  grammar_text w = true ->
  ParseSpendPolicy (render_padded ws w ++ ws') = Some (policy_of w, None).
Proof.
  intros ws ws' w Hws Hws' Hg. unfold ParseSpendPolicy.
  rewrite (parse_padded ws Hws w Hg) by (rewrite length_app; lia).
  cbn [err s]. now rewrite trimRight_spaces.
Qed.

Lemma white_space_before_tokens_accepted_witness :
  ParseSpendPolicy
    (render_padded [" "%char; "009"%char] sample_text ++ ["010"%char])
  = Some (policy_of sample_text, None).
Proof.
  apply (white_space_before_tokens_accepted
           [" "%char; "009"%char] ["010"%char] sample_text);
    reflexivity.
Defined.

(** ** The errors of the first token *)

Lemma IndexAny_nodelim t d y :
  forallb (fun c => negb (is_delim c)) t = true -> is_delim d = true ->
  strings.IndexAny (t ++ d :: y) delimiters = Some (length t).
Proof.
  intros Ht Hd. induction t as [|c t IH]; cbn [app strings.IndexAny length].
  - unfold is_delim in Hd. now rewrite Hd.
  - cbn [forallb] in Ht. apply andb_true_iff in Ht. destruct Ht as [Hc Ht].
    apply negb_true_iff in Hc. unfold is_delim in Hc. rewrite Hc.
    now rewrite IH.
Qed.

Lemma nextToken_tok t d y :
  token t = true -> is_delim d = true ->
  nextToken {| s := t ++ d :: y; err := None |}
  = (t, {| s := d :: strings.trimRight y; err := None |}).
Proof.
  intros Ht Hd. unfold token in Ht. apply andb_true_iff in Ht.
  destruct Ht as [Hc Ht]. unfold nextToken. cbn [s err].
  assert (Htrim : strings.TrimSpace (t ++ d :: y)
                  = t ++ d :: strings.trimRight y).
  { destruct t as [|c t]; cbn [app].
    - apply TrimSpace_plain. now apply is_delim_plain.
    - rewrite TrimSpace_plain by assumption.
      rewrite trimRight_mid by now apply is_delim_plain. reflexivity. }
  rewrite Htrim, IndexAny_nodelim by assumption.
  rewrite firstn_app, Nat.sub_diag, firstn_all. cbn [firstn].
  rewrite app_nil_r, skipn_app, Nat.sub_diag, skipn_all. reflexivity.
Qed.

Lemma fuel_succ (input : text) :
  (length input + 2 = S (length input + 1))%nat.
Proof. lia. Qed.

Lemma keyword_false typ : keyword typ = false ->
  text_eqb typ (lit "above") = false /\ text_eqb typ (lit "pk") = false
  /\ text_eqb typ (lit "thresh") = false /\ text_eqb typ (lit "uc") = false.
Proof.
  unfold keyword. cbn [existsb]. intros H.
  repeat (apply orb_false_iff in H; destruct H as [? H]). auto.
Qed.

(** X8. A first token that is none of [above], [pk], [thresh] and [uc]
    and is followed by an opening parenthesis makes [ParseSpendPolicy]
    return the zero policy and the error that names the token, whatever
    follows the parenthesis; white space inside or at the end of the token
    belongs to it, so [above (5)] is rejected with the type [above ]. *)
Theorem unrecognized_type_reported : forall typ y,
  token typ = true -> keyword typ = false ->
  ParseSpendPolicy (typ ++ "("%char :: y)
  = Some (NoPolicy, Some (ErrUnrecognized typ)).
Proof.
  intros typ y Ht Hk. destruct (keyword_false typ Hk) as (K1 & K2 & K3 & K4).
  unfold ParseSpendPolicy. rewrite fuel_succ. cbn [parseSpendPolicy].
  rewrite nextToken_tok by (try assumption; reflexivity).
  rewrite consume_plain by reflexivity. cbn [snd].
  rewrite K1, K2, K3, K4. cbn [fst snd err s].
  unfold consume. cbn [fst snd err s]. reflexivity.
Qed.

Lemma unrecognized_type_reported_witness :
  ParseSpendPolicy (lit "above (5)")
  = Some (NoPolicy, Some (ErrUnrecognized (lit "above "))).
Proof.
  apply (unrecognized_type_reported (lit "above ") (lit "5)"));
    reflexivity.
Defined.

Lemma consume_wrong b d y : plain d = true -> Ascii.eqb d b = false ->
  consume b {| s := d :: y; err := None |}
  = (tt, {| s := d :: strings.trimRight y; err := Some (ErrExpected b d) |}).
Proof.
  intros Hd Hb. unfold consume. cbn [s err].
  rewrite TrimSpace_plain by assumption. now rewrite Hb.
Qed.

(** X9. When the first delimiter of the input is not an opening
    parenthesis, [ParseSpendPolicy] reports that it expected one and got
    that delimiter. The policy returned beside the error is the zero
    policy of the type the first token names: for [thresh] it is the
    policy [AnyoneCanSpend] returns. *)
Theorem missing_open_paren_reported : forall typ d y,
  token typ = true -> is_delim d = true -> Ascii.eqb d "(" = false ->
  ParseSpendPolicy (typ ++ d :: y)
  = Some (zero_policy typ, Some (ErrExpected "(" d))
  /\ zero_policy (lit "thresh") = AnyoneCanSpend.
Proof.
  intros typ d y Ht Hd Hb. split; [|reflexivity]. unfold ParseSpendPolicy, zero_policy.
  rewrite fuel_succ. cbn [parseSpendPolicy].
  rewrite nextToken_tok by assumption.
  rewrite consume_wrong by (try apply is_delim_plain; assumption).
  cbn [snd].
  destruct (text_eqb typ (lit "above")).
  { sticky_steps. reflexivity. }
  destruct (text_eqb typ (lit "pk")).
  { erewrite parsePubkey_sticky by reflexivity. sticky_steps. reflexivity. }
  destruct (text_eqb typ (lit "thresh")).
  { sticky_steps. reflexivity. }
  destruct (text_eqb typ (lit "uc")).
  { sticky_steps. reflexivity. }
  sticky_steps. reflexivity.
Qed.

Lemma missing_open_paren_reported_witness :
  ParseSpendPolicy (lit "thresh,1")
  = Some (zero_policy (lit "thresh"), Some (ErrExpected "(" ","))
  /\ zero_policy (lit "thresh") = AnyoneCanSpend.
Proof.
  apply (missing_open_paren_reported (lit "thresh") ","%char (lit "1"));
    reflexivity.
Defined.

Lemma trimLeft_skipn : forall n t, (length t <= n)%nat ->
  exists j, strings.trimLeft t = skipn j t.
Proof.
  induction n as [|n IH]; intros r Hn.
  - destruct r; [now exists 0%nat|cbn in Hn; lia].
  - destruct r as [|c1 r]; [now exists 0%nat|]. cbn [length] in Hn.
    cbn [strings.trimLeft].
    destruct (strings.asciiSpace c1).
    { destruct (IH r) as [j Hj]; [lia|]. now exists (S j). }
    destruct r as [|c2 r]; [now exists 0%nat|]. cbn [length] in Hn.
    destruct (strings.space2 c1 c2).
    { destruct (IH r) as [j Hj]; [lia|]. now exists (S (S j)). }
    destruct r as [|c3 r]; [now exists 0%nat|]. cbn [length] in Hn.
    destruct (strings.space3 c1 c2 c3).
    { destruct (IH r) as [j Hj]; [lia|]. now exists (S (S (S j))). }
    now exists 0%nat.
Qed.

Lemma forallb_skipn {A} (f : A -> bool) : forall j l,
  forallb f l = true -> forallb f (skipn j l) = true.
Proof.
  induction j as [|j IH]; intros [|x l] H; cbn [skipn]; auto.
  cbn [forallb] in H. apply andb_true_iff in H. now apply IH.
Qed.

Lemma forallb_firstn {A} (f : A -> bool) : forall j l,
  forallb f l = true -> forallb f (firstn j l) = true.
Proof.
  induction j as [|j IH]; intros [|x l] H; cbn [firstn forallb]; auto.
  cbn [forallb] in H. apply andb_true_iff in H. destruct H as [-> H].
  now apply IH.
Qed.

Lemma forallb_TrimSpace (f : ascii -> bool) t :
  forallb f t = true -> forallb f (strings.TrimSpace t) = true.
Proof.
  intros H. unfold strings.TrimSpace.
  destruct (trimRight_firstn (strings.trimLeft t)) as [k ->].
  destruct (trimLeft_skipn _ t (le_n _)) as [j ->].
  now apply forallb_firstn, forallb_skipn.
Qed.

Lemma IndexAny_none t :
  forallb (fun c => negb (is_delim c)) t = true ->
  strings.IndexAny t delimiters = None.
Proof.
  induction t as [|c t IH]; intros H; [reflexivity|].
  cbn [forallb] in H. apply andb_true_iff in H. destruct H as [Hc H].
  cbn [strings.IndexAny]. apply negb_true_iff in Hc. unfold is_delim in Hc.
  now rewrite Hc, IH.
Qed.

(** X10. An input without any of the five delimiters is rejected with
    the zero policy: with [io.ErrUnexpectedEOF] when it is empty or all
    white space, and otherwise with the error that an opening parenthesis
    was expected where its first byte that is not white space stands. *)
Theorem input_without_delimiter_rejected : forall input,
  forallb (fun c => negb (is_delim c)) input = true ->
  ParseSpendPolicy input
  = Some (NoPolicy,
          Some match strings.TrimSpace input with
               | [] => ErrUnexpectedEOF
               | c :: _ => ErrExpected "(" c
               end).
Proof.
  intros input H. apply forallb_TrimSpace in H.
  unfold ParseSpendPolicy. rewrite fuel_succ. cbn [parseSpendPolicy].
  unfold nextToken. cbn [s err]. rewrite IndexAny_none by assumption.
  unfold consume. cbn [s err snd]. rewrite TrimSpace_idem.
  destruct (strings.TrimSpace input) as [|c r]; cbn [fst snd err s].
  - reflexivity.
  - cbn [forallb] in H. apply andb_true_iff in H. destruct H as [Hc _].
    assert (Hb : Ascii.eqb c "(" = false).
    { destruct (Ascii.eqb_spec c "(") as [->|]; [discriminate|reflexivity]. }
    rewrite Hb. reflexivity.
Qed.

Lemma input_without_delimiter_rejected_witness :
  ParseSpendPolicy (lit "  above 5 ")
  = Some (NoPolicy,
          Some match strings.TrimSpace (lit "  above 5 ") with
               | [] => ErrUnexpectedEOF
               | c :: _ => ErrExpected "(" c
               end).
Proof.
  apply (input_without_delimiter_rejected (lit "  above 5 ")).
  reflexivity.
Defined.

(** ** White space before the bracket that closes a list *)

Lemma TrimSpace_spaces ws x : forallb strings.asciiSpace ws = true ->
  strings.TrimSpace (ws ++ x) = strings.TrimSpace x.
Proof. intros H. unfold strings.TrimSpace. now rewrite trimLeft_spaces. Qed.

Lemma loop_space_bracket ws z f :
  forallb strings.asciiSpace ws = true -> ws <> [] ->
  strings.trimRight z = z ->
  forall xs x fuel acc,
  Forall (fun e => grammar_text e = true /\ (length (render e) <= f)%nat)
    (x :: xs) ->
  (length xs + 2 <= fuel)%nat ->
  listLoop (parseSpendPolicy f) fuel acc
    {| s := render x ++ flat_map (fun e => ","%char :: render e) xs
            ++ ws ++ "]"%char :: z;
       err := None |}
  = Some (acc ++ policy_of x :: map policy_of xs,
          {| s := "]"%char :: z; err := Some (ErrExpected "," "]") |}).
Proof.
  intros Hws Hne Hz.
  induction xs as [|x2 xs IH]; intros x fuel acc Hall Hf.
  - destruct fuel as [|fuel]; cbn [length] in Hf; try lia.
    apply Forall_inv in Hall. destruct Hall as [Hg Hl].
    destruct (render_head x) as (c & r & Hc & Hnb).
    cbn [flat_map app]. cbn [listLoop err].
    assert (Hp : forall y, fst (peek {| s := render x ++ y; err := None |}) = c)
      by (intros y; rewrite Hc; apply peek_head).
    rewrite Hp, Hnb. rewrite parse_render by assumption.
    rewrite trimRight_mid by reflexivity. rewrite Hz.
    destruct ws as [|w0 ws']; [congruence|].
    pose proof Hws as Hws0.
    cbn [forallb] in Hws0. apply andb_true_iff in Hws0.
    destruct Hws0 as [Hw0 _].
    unfold peek. cbn [s err fst app].
    rewrite (space_not_bracket w0 Hw0).
    change (w0 :: ws' ++ "]"%char :: z) with ((w0 :: ws') ++ "]"%char :: z).
    rewrite consume_spaces by assumption.
    rewrite consume_wrong by reflexivity. cbn [snd]. rewrite Hz.
    destruct fuel as [|fuel]; [lia|]. reflexivity.
  - destruct fuel as [|fuel]; cbn [length] in Hf; try lia.
    pose proof (Forall_inv Hall) as [Hg Hl].
    apply Forall_inv_tail in Hall.
    destruct (render_head x) as (c & r & Hc & Hnb).
    cbn [flat_map]. rewrite <- !app_assoc. cbn [app listLoop err].
    assert (Hp : forall y, fst (peek {| s := render x ++ y; err := None |}) = c)
      by (intros y; rewrite Hc; apply peek_head).
    rewrite Hp, Hnb. rewrite parse_render by assumption.
    assert (Hst : strings.trimRight
                    (render x2 ++ flat_map (fun e => ","%char :: render e) xs
                     ++ ws ++ "]"%char :: z)
                  = render x2 ++ flat_map (fun e => ","%char :: render e) xs
                    ++ ws ++ "]"%char :: z).
    { rewrite !app_assoc. rewrite trimRight_mid by reflexivity.
      now rewrite Hz. }
    rewrite trimRight_cons by reflexivity. rewrite Hst.
    unfold peek at 1. cbn [s err fst].
    change (Ascii.eqb "," "]") with false. cbn iota.
    rewrite consume_plain by reflexivity. cbn [snd]. rewrite Hst.
    rewrite (IH x2 fuel (acc ++ [policy_of x])) by (try assumption; lia).
    now rewrite <- app_assoc.
Qed.

(** X11. White space directly before the bracket that closes the list of
    a threshold is an error, because [peek] does not skip white space:
    after an empty list the parser tries to read a sub-policy and reports
    that it expected an opening parenthesis, and after the last sub-policy
    it reports that it expected a comma. The policy returned beside the
    error holds the sub-policies read so far. *)
Theorem white_space_before_closing_bracket_rejected : forall n Of ws,
  numeral 8 n = true -> forallb grammar_text Of = true ->
  forallb strings.asciiSpace ws = true -> ws <> [] ->
  ParseSpendPolicy
    (lit "thresh(" ++ n ++ lit ",[" ++ joinComma (map render Of) ++ ws
     ++ lit "])")
  = Some
      (PolicyThreshold (decimal_value n)
         match Of with
         | [] => [NoPolicy]
         | _ :: _ => map policy_of Of
         end,
       Some (ErrExpected match Of with
                         | [] => "("%char
                         | _ :: _ => ","%char
                         end "]")).
Proof.
  intros n Of ws Hn HOf Hws Hne. unfold ParseSpendPolicy.
  set (input := lit "thresh(" ++ n ++ lit ",[" ++ joinComma (map render Of)
                ++ ws ++ lit "])").
  assert (Hlen : (length input
                  = 7 + length n + 2 + length (joinComma (map render Of))
                    + length ws + 2)%nat).
  { unfold input. rewrite !length_app. cbn [lit list_ascii_of_string length].
    lia. }
  rewrite fuel_succ.
  remember (length input + 1)%nat as fuel eqn:Hfuel.
  rewrite Hlen in Hfuel. unfold input. clear input Hlen.
  change (lit "thresh(" ++ n ++ lit ",[" ++ joinComma (map render Of) ++ ws
          ++ lit "])")
    with (lit "thresh" ++ "("%char :: n ++ ","%char :: "["%char
          :: joinComma (map render Of) ++ ws ++ "]"%char :: [")"%char]).
  cbn [parseSpendPolicy].
  rewrite nextToken_token by reflexivity.
  assert (Hst : strings.trimRight
                  (joinComma (map render Of) ++ ws ++ "]"%char :: [")"%char])
                = joinComma (map render Of) ++ ws ++ "]"%char :: [")"%char]).
  { rewrite !app_assoc. now rewrite trimRight_mid by reflexivity. }
  rewrite ?trimRight_idem, (trimRight_mid n) by reflexivity.
  repeat first [rewrite trimRight_idem | rewrite trimRight_cons by reflexivity | rewrite Hst]. eval_typ.
  rewrite consume_plain by reflexivity. cbn [snd].
  rewrite ?trimRight_idem, (trimRight_mid n) by reflexivity.
  repeat first [rewrite trimRight_idem | rewrite trimRight_cons by reflexivity | rewrite Hst].
  rewrite (parseInt_numeral 8) by (try assumption; try reflexivity; lia).
  rewrite consume_plain by reflexivity. cbn [snd].
  repeat first [rewrite trimRight_idem | rewrite trimRight_cons by reflexivity | rewrite Hst].
  rewrite consume_plain by reflexivity. cbn [snd].
  repeat first [rewrite trimRight_idem | rewrite trimRight_cons by reflexivity | rewrite Hst].
  rewrite numeral_mod by assumption.
  destruct Of as [|x xs].
  - cbn [map joinComma app].
    destruct ws as [|w0 ws']; [congruence|].
    pose proof Hws as Hws0.
    cbn [forallb] in Hws0. apply andb_true_iff in Hws0.
    destruct Hws0 as [Hw0 _].
    destruct fuel as [|f1]; [lia|].
    cbn [listLoop err]. unfold peek at 1. cbn [s err fst app].
    rewrite (space_not_bracket w0 Hw0).
    cbn [parseSpendPolicy].
    change (w0 :: ws' ++ "]"%char :: [")"%char])
      with ((w0 :: ws') ++ [] ++ "]"%char :: [")"%char]).
    rewrite nextToken_spaces by assumption.
    rewrite nextToken_token by reflexivity.
    rewrite consume_wrong by reflexivity. cbn [snd]. eval_typ.
    sticky_steps. unfold peek. cbn [s err fst].
    sticky_steps. reflexivity.
  - cbn [map joinComma]. rewrite <- !app_assoc.
    assert (E : flat_map (fun y => lit "," ++ y) (map render xs)
                = flat_map (fun e => ","%char :: render e) xs).
    { rewrite flat_map_concat_map, map_map, <- flat_map_concat_map.
      reflexivity. }
    rewrite E.
    rewrite (loop_space_bracket ws [")"%char] fuel Hws Hne eq_refl xs x
               (S fuel) []).
    + sticky_steps. reflexivity.
    + apply Forall_forall. intros e He. rewrite forallb_forall in HOf.
      split; [now apply HOf|].
      pose proof (length_joinComma_in (map render (x :: xs)) (render e)
                    (in_map render _ e He)). lia.
    + pose proof (length_joinComma_count (map render (x :: xs))) as Hc.
      rewrite length_map in Hc. cbn [length] in Hc. lia.
Qed.

Lemma white_space_before_closing_bracket_rejected_witness :
  ParseSpendPolicy (lit "thresh(2,[above(1) ])")
  = Some (PolicyThreshold 2 [PolicyAbove 1], Some (ErrExpected "," "]")).
Proof.
  apply (white_space_before_closing_bracket_rejected
           (lit "2") [TAbove (lit "1")] [" "%char]);
    [reflexivity|reflexivity|reflexivity|discriminate].
Defined.

(** ** Numeric tokens that are no numerals *)

Lemma parseLoop_app maxVal : forall a rest n,
  strconv.parseLoop (a ++ rest) n maxVal
  = match strconv.parseLoop a n maxVal with
    | (v, None) => strconv.parseLoop rest v maxVal
    | (v, Some e) => (v, Some e)
    end.
Proof.
  induction a as [|c a IH]; intros rest n; [reflexivity|].
  cbn [app strconv.parseLoop].
  destruct ((48 <=? code c) && (code c <=? 57)); [|reflexivity].
  destruct (strconv.maxUint64 / 10 + 1 <=? n); [reflexivity|].
  destruct (_ || _); [reflexivity|]. apply IH.
Qed.

Lemma digits_prefix_split : forall t,
  forallb is_digit (digits_prefix t) = true
  /\ exists rest, t = digits_prefix t ++ rest
       /\ match rest with
          | [] => True
          | c :: _ => is_digit c = false
          end.
Proof.
  induction t as [|c t (IH1 & rest & IH2 & IH3)]; cbn [digits_prefix].
  - split; [reflexivity|]. now exists [].
  - destruct (is_digit c) eqn:E.
    + split; [cbn [forallb]; now rewrite E|].
      exists rest. cbn [app]. split; [now f_equal|assumption].
    + split; [reflexivity|]. exists (c :: t). now split.
Qed.

Lemma ParseUint_not_numeral t bits :
  bits <= 64 -> forallb is_digit t = false ->
  strconv.ParseUint t bits
  = if decimal_value (digits_prefix t) <? 2 ^ bits
    then (0, Some strconv.ErrSyntax)
    else (2 ^ bits - 1, Some strconv.ErrRange).
Proof.
  intros Hb Hd. destruct (digits_prefix_split t) as (Hp & rest & Ht & Hr).
  pose proof (pow2_pos bits) as Hpos.
  unfold strconv.ParseUint. destruct t as [|c0 t0] eqn:Et; [discriminate|].
  rewrite <- Et in *. clear Et c0 t0.
  set (a := digits_prefix t) in *.
  destruct rest as [|c rest].
  { rewrite app_nil_r in Ht. rewrite Ht in Hd. congruence. }
  rewrite Ht at 1. rewrite parseLoop_app.
  rewrite parseLoop_digits by (try assumption; try lia; now apply pow2_le_64).
  fold (decimal_value a).
  destruct (N.leb_spec (decimal_value a) (2 ^ bits - 1));
    destruct (N.ltb_spec (decimal_value a) (2 ^ bits)); try lia.
  - cbn [strconv.parseLoop]. fold (is_digit c). now rewrite Hr.
  - reflexivity.
Qed.

Lemma token_cons_plain c t : token (c :: t) = true -> plain c = true.
Proof. unfold token. intros H. now apply andb_true_iff in H. Qed.

Lemma parseInt_not_numeral bits t d y :
  bits <= 64 -> token t = true -> is_delim d = true ->
  t = [] \/ forallb is_digit t = false ->
  decimal_value (digits_prefix t) < 2 ^ bits ->
  parseInt bits {| s := t ++ d :: y; err := None |}
  = (0, {| s := d :: strings.trimRight y;
           err := Some (ErrNum t strconv.ErrSyntax) |}).
Proof.
  intros Hb Ht Hd Hbad Hv. unfold parseInt, bind.
  rewrite nextToken_tok by assumption. cbn [s err].
  destruct Hbad as [->|Hbad]; [reflexivity|].
  rewrite ParseUint_not_numeral by assumption.
  apply N.ltb_lt in Hv. now rewrite Hv.
Qed.

(** ** Key tokens with a character that is no hex digit *)

Lemma skipn_zero_bytes n m : skipn n (zero_bytes m) = zero_bytes (m - n).
Proof.
  unfold zero_bytes. revert m. induction n as [|n IH]; intros m.
  - now rewrite Nat.sub_0_r.
  - destruct m as [|m]; [reflexivity|]. cbn [repeat skipn]. apply IH.
Qed.

Lemma decodeFrom_app : forall k,
  forallb is_hex k = true -> Nat.even (length k) = true ->
  forall i dst rest,
  hex.decodeFrom i dst (k ++ rest)
  = hex.decodeFrom (i + length k / 2) (fst (hex.decodeFrom i dst k)) rest.
Proof.
  induction k as [|p|p q r IH] using pair_ind; intros Hh He i dst rest.
  - cbn [app length hex.decodeFrom fst]. now rewrite Nat.add_0_r.
  - discriminate.
  - cbn [forallb] in Hh. apply andb_true_iff in Hh. destruct Hh as [Hp Hh].
    apply andb_true_iff in Hh. destruct Hh as [Hq Hh].
    unfold is_hex in Hp, Hq.
    cbn [app hex.decodeFrom].
    destruct (hex.fromHexChar p) as [a|]; [|discriminate].
    destruct (hex.fromHexChar q) as [b|]; [|discriminate].
    rewrite IH by assumption. f_equal.
    cbn [length]. change (S (S (length r))) with (2 + length r)%nat.
    replace (2 + length r)%nat with (length r + 1 * 2)%nat by lia.
    rewrite Nat.div_add by lia. lia.
Qed.

Lemma decodeFrom_invalid c : is_hex c = false ->
  forall a b, forallb is_hex a = true ->
  Nat.even (length (a ++ c :: b)) = true ->
  forall i dst,
  hex.decodeFrom i dst (a ++ c :: b)
  = (fst (hex.decodeFrom i dst (firstn (2 * (length a / 2)) a)),
     Some (hex.InvalidByteError c)).
Proof.
  intros Hc. unfold is_hex in Hc.
  destruct (hex.fromHexChar c) eqn:Ec; [discriminate|]. clear Hc.
  induction a as [|p|p q r IH] using pair_ind; intros b Hh He i dst.
  - cbn [app length Nat.div firstn Nat.mul hex.decodeFrom fst].
    destruct b as [|q b]; [discriminate|].
    cbn [hex.decodeFrom]. now rewrite Ec.
  - cbn [forallb] in Hh. apply andb_true_iff in Hh. destruct Hh as [Hp _].
    unfold is_hex in Hp.
    change (firstn (2 * (length [p] / 2)) [p]) with (@nil ascii).
    cbn [app hex.decodeFrom fst].
    destruct (hex.fromHexChar p); [|discriminate]. now rewrite Ec.
  - cbn [forallb] in Hh. apply andb_true_iff in Hh. destruct Hh as [Hp Hh].
    apply andb_true_iff in Hh. destruct Hh as [Hq Hh].
    unfold is_hex in Hp, Hq.
    assert (Hl : (2 * (length (p :: q :: r) / 2)
                  = S (S (2 * (length r / 2))))%nat).
    { cbn [length]. replace (S (S (length r))) with (length r + 1 * 2)%nat
        by lia. rewrite Nat.div_add by lia. lia. }
    rewrite Hl. cbn [app firstn hex.decodeFrom].
    destruct (hex.fromHexChar p) as [x|]; [|discriminate].
    destruct (hex.fromHexChar q) as [z|]; [|discriminate].
    apply IH; assumption.
Qed.

Lemma Decode_invalid a c b :
  forallb is_hex a = true -> is_hex c = false ->
  length (a ++ c :: b) = 64%nat ->
  hex.Decode (zero_bytes 32) (a ++ c :: b)
  = (unhex (firstn (2 * (length a / 2)) a)
       ++ zero_bytes (32 - length a / 2),
     Some (hex.InvalidByteError c)).
Proof.
  intros Ha Hc Hl. unfold hex.Decode.
  rewrite decodeFrom_invalid by (try assumption; now rewrite Hl).
  f_equal. set (a' := firstn (2 * (length a / 2)) a).
  assert (Hla : (length a' = 2 * (length a / 2))%nat).
  { unfold a'. rewrite length_firstn.
    pose proof (Nat.Div0.mul_div_le (length a) 2). lia. }
  assert (He : Nat.even (length a') = true).
  { rewrite Hla. apply Nat.even_spec. now exists (length a / 2)%nat. }
  pose proof (length_unhex a' He) as Hu.
  rewrite length_app in Hl. cbn [length] in Hl.
  pose proof (Nat.Div0.mul_div_le (length a) 2).
  rewrite decodeFrom_hex;
    [|now apply forallb_firstn|assumption
     |unfold zero_bytes; rewrite repeat_length; lia].
  cbn [fst firstn app Nat.add]. rewrite skipn_zero_bytes.
  f_equal. f_equal. lia.
Qed.

Lemma parsePubkey_invalid a c b d y :
  token (a ++ c :: b) = true -> is_delim d = true ->
  forallb is_hex a = true -> is_hex c = false ->
  length (a ++ c :: b) = 64%nat ->
  parsePubkey {| s := (a ++ c :: b) ++ d :: y; err := None |}
  = (unhex (firstn (2 * (length a / 2)) a)
       ++ zero_bytes (32 - length a / 2),
     {| s := d :: strings.trimRight y;
        err := Some (ErrHex (hex.InvalidByteError c)) |}).
Proof.
  intros Ht Hd Ha Hc Hl. unfold parsePubkey, bind.
  rewrite nextToken_tok by assumption. cbn [s err].
  rewrite Hl. cbn [Nat.eqb negb].
  now rewrite Decode_invalid.
Qed.

(** ** Whole inputs with one bad token *)

Lemma parseInt_prefix_range bits t d y :
  bits <= 64 -> token t = true -> is_delim d = true ->
  forallb is_digit t = false ->
  2 ^ bits <= decimal_value (digits_prefix t) ->
  parseInt bits {| s := t ++ d :: y; err := None |}
  = (2 ^ bits - 1,
     {| s := d :: strings.trimRight y;
        err := Some (ErrNum t strconv.ErrRange) |}).
Proof.
  intros Hb Ht Hd Hbad Hv. unfold parseInt, bind.
  rewrite nextToken_tok by assumption. cbn [s err].
  rewrite ParseUint_not_numeral by assumption.
  destruct (N.ltb_spec (decimal_value (digits_prefix t)) (2 ^ bits)); [lia|].
  reflexivity.
Qed.

Lemma parse_above_token t (r : N * pstate) :
  parseInt 64 {| s := t ++ [")"%char]; err := None |} = r ->
  err (snd r) <> None ->
  ParseSpendPolicy (lit "above(" ++ t ++ lit ")")
  = Some (PolicyAbove (fst r), err (snd r)).
Proof.
  intros Hr He. unfold ParseSpendPolicy. rewrite fuel_succ.
  change (lit "above(" ++ t ++ lit ")")
    with (lit "above" ++ "("%char :: t ++ [")"%char]).
  cbn [parseSpendPolicy]. rewrite nextToken_token by reflexivity.
  rewrite (trimRight_mid t) by reflexivity.
  change (strings.trimRight []) with (@nil ascii).
  rewrite consume_plain by reflexivity. cbn [snd].
  rewrite (trimRight_mid t) by reflexivity.
  change (strings.trimRight []) with (@nil ascii).
  eval_typ. rewrite Hr. destruct r as [u st]. cbn [fst snd] in *.
  destruct (err st) as [e|] eqn:E; [|congruence].
  rewrite (consume_sticky _ _ _ E). cbn [snd]. now rewrite E.
Qed.

Lemma parse_pk_token t (r : PublicKey * pstate) :
  parsePubkey {| s := t ++ [")"%char]; err := None |} = r ->
  err (snd r) <> None ->
  ParseSpendPolicy (lit "pk(" ++ t ++ lit ")")
  = Some (PolicyPublicKey (fst r), err (snd r)).
Proof.
  intros Hr He. unfold ParseSpendPolicy. rewrite fuel_succ.
  change (lit "pk(" ++ t ++ lit ")")
    with (lit "pk" ++ "("%char :: t ++ [")"%char]).
  cbn [parseSpendPolicy]. rewrite nextToken_token by reflexivity.
  rewrite (trimRight_mid t) by reflexivity.
  change (strings.trimRight []) with (@nil ascii).
  rewrite consume_plain by reflexivity. cbn [snd].
  rewrite (trimRight_mid t) by reflexivity.
  change (strings.trimRight []) with (@nil ascii).
  eval_typ. rewrite Hr. destruct r as [u st]. cbn [fst snd] in *.
  destruct (err st) as [e|] eqn:E; [|congruence].
  rewrite (consume_sticky _ _ _ E). cbn [snd]. now rewrite E.
Qed.

(** X12. A numeric token that is not a string of digits (a sign, a
    letter, a space, or no character at all) makes [ParseSpendPolicy]
    return the syntax error of [strconv.ParseUint] for that token, with the
    value 0; but when the digits the token starts with already exceed the
    64 bits of the field, the range error is returned instead, with the
    largest value. *)
Theorem numeric_syntax_rejected : forall t,
  token t = true -> t = [] \/ forallb is_digit t = false ->
  (decimal_value (digits_prefix t) < 2 ^ 64 ->
   ParseSpendPolicy (lit "above(" ++ t ++ lit ")")
   = Some (PolicyAbove 0, Some (ErrNum t strconv.ErrSyntax)))
  /\ (2 ^ 64 <= decimal_value (digits_prefix t) ->
      ParseSpendPolicy (lit "above(" ++ t ++ lit ")")
      = Some (PolicyAbove (2 ^ 64 - 1), Some (ErrNum t strconv.ErrRange))).
Proof.
  intros t Ht Hbad. split; intros Hv.
  - rewrite (parse_above_token t _ eq_refl);
      rewrite (parseInt_not_numeral 64 t ")"%char [])
        by (try assumption; try reflexivity; lia);
      [reflexivity|discriminate].
  - destruct Hbad as [->|Hbad]; [cbn in Hv; lia|].
    rewrite (parse_above_token t _ eq_refl);
      rewrite (parseInt_prefix_range 64 t ")"%char [])
        by (try assumption; try reflexivity; lia);
      [reflexivity|discriminate].
Qed.

Lemma numeric_syntax_rejected_witness :
  ParseSpendPolicy (lit "above(-1)")
  = Some (PolicyAbove 0, Some (ErrNum (lit "-1") strconv.ErrSyntax)).
Proof.
  apply (proj1 (numeric_syntax_rejected (lit "-1") eq_refl
                  (or_intror eq_refl))).
  reflexivity.
Defined.

(** X13. A key token of 64 characters that holds a character that is no
    hex digit makes [ParseSpendPolicy] return the error of [hex.Decode]
    that names the first such character. The key returned beside the error
    holds the bytes decoded before it and zeros after them. *)
Theorem invalid_hex_key_rejected : forall a c b,
  token (a ++ c :: b) = true ->
  forallb is_hex a = true -> is_hex c = false ->
  length (a ++ c :: b) = 64%nat ->
  ParseSpendPolicy (lit "pk(" ++ (a ++ c :: b) ++ lit ")")
  = Some (PolicyPublicKey
            (unhex (firstn (2 * (length a / 2)) a)
             ++ zero_bytes (32 - length a / 2)),
          Some (ErrHex (hex.InvalidByteError c))).
Proof.
  intros a c b Ht Ha Hc Hl.
  rewrite (parse_pk_token (a ++ c :: b) _ eq_refl);
    rewrite (parsePubkey_invalid a c b ")"%char [])
      by (try assumption; reflexivity);
    [reflexivity|discriminate].
Qed.

Lemma invalid_hex_key_rejected_witness :
  ParseSpendPolicy
    (lit "pk(" ++ (lit "abc" ++ "g"%char :: repeat "0"%char 60) ++ lit ")")
  = Some (PolicyPublicKey (xab :: zero_bytes 31),
          Some (ErrHex (hex.InvalidByteError "g"))).
Proof.
  apply (invalid_hex_key_rejected (lit "abc") "g"%char (repeat "0"%char 60));
    reflexivity.
Defined.

(** ** A policy that is not closed *)

Lemma forallb_trimRight (f : ascii -> bool) t :
  forallb f t = true -> forallb f (strings.trimRight t) = true.
Proof.
  intros H. destruct (trimRight_firstn t) as [k ->].
  now apply forallb_firstn.
Qed.

(** X14. A height that is not followed by the closing parenthesis: when
    another delimiter follows the numeral, [ParseSpendPolicy] returns the
    policy with the height read and the error that a closing parenthesis
    was expected; when the input ends before any delimiter, the numeral is
    not read at all, and the error is the syntax error of
    [strconv.ParseUint] for the empty string, with the height 0. *)
Theorem unclosed_above_reported : forall t,
  (forall d y,
     numeral 64 t = true -> is_delim d = true -> Ascii.eqb d ")" = false ->
     ParseSpendPolicy (lit "above(" ++ t ++ d :: y)
     = Some (PolicyAbove (decimal_value t), Some (ErrExpected ")" d)))
  /\ (forallb (fun c => negb (is_delim c)) t = true ->
      ParseSpendPolicy (lit "above(" ++ t)
      = Some (PolicyAbove 0, Some (ErrNum [] strconv.ErrSyntax))).
Proof.
  intros t. split.
  - intros d y Hn Hd Hb. unfold ParseSpendPolicy. rewrite fuel_succ.
    change (lit "above(" ++ t ++ d :: y)
      with (lit "above" ++ "("%char :: t ++ d :: y).
    cbn [parseSpendPolicy]. rewrite nextToken_token by reflexivity.
    trim_delim. eval_typ.
    rewrite consume_plain by reflexivity. cbn [snd]. trim_delim.
    rewrite (parseInt_numeral 64) by (try assumption; lia).
    cbn [fst snd].
    rewrite consume_wrong by (try apply is_delim_plain; assumption).
    reflexivity.
  - intros Ht. unfold ParseSpendPolicy. rewrite fuel_succ.
    change (lit "above(" ++ t) with (lit "above" ++ "("%char :: t).
    cbn [parseSpendPolicy]. rewrite nextToken_token by reflexivity.
    eval_typ. rewrite consume_plain by reflexivity. cbn [snd].
    rewrite trimRight_idem.
    unfold parseInt, bind, nextToken. cbn [s err].
    rewrite IndexAny_none
      by now apply forallb_TrimSpace, forallb_trimRight.
    cbn [err strconv.ParseUint option_map fst snd].
    unfold consume. cbn [err snd]. reflexivity.
Qed.

Lemma unclosed_above_reported_witness :
  ParseSpendPolicy (lit "above(5]")
  = Some (PolicyAbove 5, Some (ErrExpected ")" "]"))
  /\ ParseSpendPolicy (lit "above(5")
     = Some (PolicyAbove 0, Some (ErrNum [] strconv.ErrSyntax)).
Proof.
  split.
  - apply (proj1 (unclosed_above_reported (lit "5")) "]"%char []);
      reflexivity.
  - apply (proj2 (unclosed_above_reported (lit "5"))). reflexivity.
Defined.

(** ** The accumulator computes the Merkle tree hash *)

Lemma bitSet_8 n : bitSet n 8 = false.
Proof.
  unfold bitSet. change (N.shiftl 1 (N.of_nat 8) mod 2 ^ 8) with 0.
  now rewrite N.land_0_r.
Qed.

Lemma bitSet_0 i : bitSet 0 i = false.
Proof. unfold bitSet. now rewrite N.land_0_l. Qed.

Lemma counter_not_full n : n < 255 -> forallb (bitSet n) (seq 0 8) = false.
Proof.
  intros Hn.
  apply (N_forall_below
           (fun n => negb (forallb (bitSet n) (seq 0 8))) 255) in Hn.
  - now apply negb_true_iff in Hn.
  - vm_compute. reflexivity.
Qed.

Lemma counter_succ n j i :
  n < 255 -> (j < 8)%nat -> (i < 8)%nat ->
  (forall i', (i' < j)%nat -> bitSet n i' = true) -> bitSet n j = false ->
  bitSet (n + 1) i
  = if (i <? j)%nat then false
    else if (i =? j)%nat then true else bitSet n i.
Proof.
  intros Hn Hj Hi Hlow Hclear.
  apply (N_forall_below
           (fun n =>
              forallb
                (fun j =>
                   implb (forallb (bitSet n) (seq 0 j) && negb (bitSet n j))
                     (forallb
                        (fun i =>
                           Bool.eqb (bitSet (n + 1) i)
                             (if (i <? j)%nat then false
                              else if (i =? j)%nat then true
                                   else bitSet n i))
                        (seq 0 8)))
                (seq 0 8)) 255) in Hn; [|vm_compute; reflexivity].
  rewrite forallb_forall in Hn. specialize (Hn j).
  assert (Hin : In j (seq 0 8)) by (apply in_seq; lia).
  specialize (Hn Hin).
  assert (Hpre : forallb (bitSet n) (seq 0 j) && negb (bitSet n j) = true).
  { rewrite Hclear, andb_true_r. apply forallb_forall.
    intros x Hx. apply in_seq in Hx. apply Hlow. lia. }
  rewrite Hpre in Hn. cbn [implb] in Hn.
  rewrite forallb_forall in Hn. specialize (Hn i).
  apply Bool.eqb_prop, Hn, in_seq. lia.
Qed.

Lemma counter_lowest n : 0 < n -> n < 256 ->
  (bits.TrailingZeros8 n < 8)%nat
  /\ bitSet n (bits.TrailingZeros8 n) = true
  /\ forall i, (i < bits.TrailingZeros8 n)%nat -> bitSet n i = false.
Proof.
  intros Hpos Hn.
  apply (N_forall_below
           (fun n =>
              (n =? 0)
              || ((bits.TrailingZeros8 n <? 8)%nat
                  && bitSet n (bits.TrailingZeros8 n)
                  && forallb (fun i => negb (bitSet n i))
                       (seq 0 (bits.TrailingZeros8 n)))) 256) in Hn;
    [|vm_compute; reflexivity].
  apply orb_true_iff in Hn. destruct Hn as [Hn|Hn]; [apply N.eqb_eq in Hn; lia|].
  apply andb_true_iff in Hn. destruct Hn as [Hn H3].
  apply andb_true_iff in Hn. destruct Hn as [H1 H2].
  split; [now apply Nat.ltb_lt|]. split; [assumption|].
  intros i Hi. rewrite forallb_forall in H3.
  apply negb_true_iff, H3, in_seq. lia.
Qed.

Lemma pow2_nat_pos k : (0 < 2 ^ k)%nat.
Proof. induction k; cbn [Nat.pow]; lia. Qed.

Section TreeHashProof.

Variable HashBytes : list byte -> Hash256.

Lemma treeHash_lift : forall k j l,
  (length l <= 2 ^ j)%nat -> (j <= k)%nat ->
  treeHash HashBytes k l = treeHash HashBytes j l.
Proof.
  induction k as [|k IH]; intros j l Hl Hj.
  - now replace j with 0%nat by lia.
  - destruct (Nat.eq_dec j (S k)) as [->|Hne]; [reflexivity|].
    assert (Hjk : (j <= k)%nat) by lia.
    cbn [treeHash].
    assert (Hp : (2 ^ j <= 2 ^ k)%nat) by (apply Nat.pow_le_mono_r; lia).
    destruct (Nat.leb_spec (length l) (2 ^ k)); [|lia].
    now apply IH.
Qed.

Lemma treeHash_join k a b :
  length a = (2 ^ k)%nat -> b <> [] ->
  HashBytes (spec_node (treeHash HashBytes k a) (treeHash HashBytes k b))
  = treeHash HashBytes (S k) (a ++ b).
Proof.
  intros Ha Hb. cbn [treeHash]. rewrite length_app.
  assert (0 < length b)%nat by (destruct b; [congruence|cbn; lia]).
  destruct (Nat.leb_spec (length a + length b) (2 ^ k)); [lia|].
  rewrite <- Ha. rewrite firstn_app, Nat.sub_diag, firstn_all.
  cbn [firstn]. rewrite app_nil_r.
  rewrite skipn_app, Nat.sub_diag, skipn_all. reflexivity.
Qed.

Lemma content_nil bits chunk : forall k,
  (forall i, (i < k)%nat -> bits i = false) -> content bits chunk k = [].
Proof.
  induction k as [|k IH]; intros H; [reflexivity|].
  cbn [content]. rewrite (H k) by lia. apply IH. intros i Hi. apply H. lia.
Qed.

Lemma content_length bits chunk : forall k,
  (forall i, (i < k)%nat -> bits i = true -> length (chunk i) = (2 ^ i)%nat) ->
  (length (content bits chunk k) < 2 ^ k)%nat.
Proof.
  induction k as [|k IH]; intros H; [cbn; lia|].
  cbn [content Nat.pow]. rewrite length_app.
  assert (Hk : (length (content bits chunk k) < 2 ^ k)%nat).
  { apply IH. intros i Hi. apply H. lia. }
  destruct (bits k) eqn:E.
  - rewrite (H k) by (try assumption; lia). lia.
  - cbn [length]. lia.
Qed.

Lemma content_full bits chunk : forall k,
  (forall i, (i < k)%nat -> bits i = true) ->
  (forall i, (i < k)%nat -> length (chunk i) = (2 ^ i)%nat) ->
  (length (content bits chunk k) + 1 = 2 ^ k)%nat.
Proof.
  induction k as [|k IH]; intros Hb H; [reflexivity|].
  cbn [content Nat.pow]. rewrite length_app, (Hb k), (H k) by lia.
  specialize (IH ltac:(intros; apply Hb; lia) ltac:(intros; apply H; lia)).
  lia.
Qed.

Lemma skipn_cons_nth {A} : forall i (l : list A) t r,
  skipn i l = t :: r -> nth_error l i = Some t /\ skipn (S i) l = r.
Proof.
  induction i as [|i IH]; intros [|x l] t r H; try discriminate.
  - injection H as -> ->. now split.
  - now apply IH.
Qed.

Lemma nth_error_store_eq {A} (v : A) : forall l i, (i < length l)%nat ->
  nth_error (store i v l) i = Some v.
Proof.
  induction l as [|x l IH]; intros [|i] H; cbn [length] in H; try lia.
  - reflexivity.
  - cbn [store nth_error]. apply IH. lia.
Qed.

Lemma nth_error_store_neq {A} (v : A) : forall l i j, i <> j ->
  nth_error (store i v l) j = nth_error l j.
Proof.
  induction l as [|x l IH]; intros [|i] [|j] H; try reflexivity;
    try congruence.
  cbn [store nth_error]. apply IH. congruence.
Qed.

Section Insert.

Variable n : N.
Variable chunk : nat -> list Hash256.
Variable slots : list Hash256.
Variable h0 : Hash256.
Hypothesis slots_length : length slots = 8%nat.
Hypothesis slots_hold : forall i, (i < 8)%nat -> bitSet n i = true ->
  length (chunk i) = (2 ^ i)%nat
  /\ nth_error slots i = Some (treeHash HashBytes i (chunk i)).

Lemma spec_combine_tree : forall sl i h,
  skipn i slots = sl -> (i <= 8)%nat ->
  (forall i', (i' < i)%nat -> bitSet n i' = true) ->
  h = treeHash HashBytes i (content (bitSet n) chunk i ++ [h0]) ->
  exists j,
    spec_combine HashBytes sl i h n
    = Some (j, treeHash HashBytes j (content (bitSet n) chunk j ++ [h0]))
    /\ (j <= 8)%nat /\ bitSet n j = false
    /\ (forall i', (i' < j)%nat -> bitSet n i' = true).
Proof.
  induction sl as [|t sl IH]; intros i h Hs Hi Hlow Hh.
  - assert (i = 8%nat) as ->.
    { apply (f_equal (@length _)) in Hs. rewrite length_skipn in Hs.
      cbn [length] in Hs. lia. }
    cbn [spec_combine]. rewrite bitSet_8. exists 8%nat. rewrite Hh.
    split; [reflexivity|]. split; [lia|]. split; [apply bitSet_8|assumption].
  - cbn [spec_combine]. destruct (bitSet n i) eqn:E.
    + destruct (skipn_cons_nth _ _ _ _ Hs) as [Ht Hs'].
      assert (Hi8 : (i < 8)%nat).
      { assert (Hlt : (i < length slots)%nat)
          by (apply nth_error_Some; congruence).
        lia. }
      destruct (slots_hold i Hi8 E) as [Hc Hn]. rewrite Ht in Hn.
      injection Hn as ->.
      apply (IH (S i)); [assumption|lia| |].
      * intros i' Hi'. destruct (Nat.eq_dec i' i) as [->|]; [assumption|].
        apply Hlow. lia.
      * rewrite Hh. rewrite treeHash_join
          by (try assumption; now destruct (content (bitSet n) chunk i)).
        cbn [content]. rewrite E. now rewrite app_assoc.
    + exists i. rewrite Hh. auto.
Qed.

End Insert.

Lemma content_insert n j chunk h0 :
  n < 255 -> (j < 8)%nat ->
  (forall i', (i' < j)%nat -> bitSet n i' = true) -> bitSet n j = false ->
  forall k, (j < k)%nat -> (k <= 8)%nat ->
  content (bitSet (n + 1))
    (fun i => if (i =? j)%nat then content (bitSet n) chunk j ++ [h0]
              else chunk i) k
  = content (bitSet n) chunk k ++ [h0].
Proof.
  intros Hn Hj Hlow Hclear.
  induction k as [|k IH]; intros Hjk Hk; [lia|].
  cbn [content].
  rewrite (counter_succ n j k) by (try assumption; lia).
  destruct (Nat.eq_dec k j) as [->|Hne].
  - rewrite Nat.ltb_irrefl, Nat.eqb_refl, Hclear. cbn [app].
    rewrite (content_nil (bitSet (n + 1))); [now rewrite app_nil_r|].
    intros i Hi. rewrite (counter_succ n j i) by (try assumption; lia).
    apply Nat.ltb_lt in Hi. now rewrite Hi.
  - destruct (Nat.ltb_spec k j); [lia|].
    rewrite IH by lia.
    apply Nat.eqb_neq in Hne. rewrite Hne. now rewrite app_assoc.
Qed.

Lemma spec_add_holds f hs h :
  holds HashBytes f hs -> (length hs < 255)%nat ->
  exists f', spec_add HashBytes (Some f) h = Some f' /\ holds HashBytes f' (hs ++ [h]).
Proof.
  intros (Hlen & Hc & chunk & Hslots & Hcont) Hn.
  assert (Hn255 : counter f < 255) by lia.
  destruct (spec_combine_tree (counter f) chunk (subtrees f) h Hlen Hslots
              (subtrees f) 0%nat h eq_refl ltac:(lia)
              ltac:(intros; lia) eq_refl)
    as (j & Hcomb & Hj & Hclear & Hlow).
  assert (Hj8 : (j < 8)%nat).
  { destruct (Nat.eq_dec j 8) as [->|]; [|lia].
    pose proof (counter_not_full _ Hn255) as Hnf.
    assert (Hall : forallb (bitSet (counter f)) (seq 0 8) = true).
    { apply forallb_forall. intros x Hx. apply in_seq in Hx.
      apply Hlow. lia. }
    congruence. }
  cbn [spec_add]. rewrite Hcomb, Hlen.
  apply Nat.ltb_lt in Hj8 as Hj8b. rewrite Hj8b.
  eexists. split; [reflexivity|].
  unfold holds. cbn [subtrees counter].
  assert (Hmod : (counter f + 1) mod 2 ^ 8 = counter f + 1).
  { apply N.mod_small. change (2 ^ 8) with 256. lia. }
  rewrite Hmod. split; [now rewrite length_store|].
  split; [rewrite length_app; cbn [length]; lia|].
  exists (fun i => if (i =? j)%nat
                   then content (bitSet (counter f)) chunk j ++ [h]
                   else chunk i).
  split.
  - intros i Hi Hbit.
    rewrite (counter_succ (counter f) j i) in Hbit by assumption.
    destruct (Nat.ltb_spec i j); [discriminate|].
    destruct (Nat.eqb_spec i j) as [->|Hne].
    + split.
      * rewrite length_app. cbn [length].
        apply content_full; [assumption|].
        intros i' Hi'. apply Hslots; [lia|]. now apply Hlow.
      * apply nth_error_store_eq. lia.
    + destruct (Hslots i Hi Hbit) as [H1 H2]. split; [assumption|].
      rewrite nth_error_store_neq by congruence. assumption.
  - rewrite content_insert by (try assumption; lia). now rewrite Hcont.
Qed.

Lemma fold_spec_add_holds : forall hs' f hs,
  holds HashBytes f hs -> (length (hs ++ hs') <= 255)%nat ->
  exists f', fold_left (spec_add HashBytes) hs' (Some f) = Some f'
             /\ holds HashBytes f' (hs ++ hs').
Proof.
  induction hs' as [|h hs' IH]; intros f hs Hf Hl.
  - exists f. now rewrite app_nil_r.
  - rewrite length_app in Hl. cbn [length] in Hl.
    destruct (spec_add_holds f hs h Hf ltac:(lia)) as (f1 & E1 & H1).
    cbn [fold_left]. rewrite E1.
    destruct (IH f1 (hs ++ [h]) H1) as (f' & E' & H').
    { rewrite !length_app. cbn [length]. lia. }
    exists f'. rewrite <- app_assoc in H'. now split.
Qed.

Lemma finalize_fold f chunk :
  length (subtrees f) = 8%nat ->
  (forall i, (i < 8)%nat -> bitSet (counter f) i = true ->
     length (chunk i) = (2 ^ i)%nat
     /\ nth_error (subtrees f) i = Some (treeHash HashBytes i (chunk i))) ->
  forall m k, (k + m = 8)%nat ->
  content (bitSet (counter f)) chunk k <> [] ->
  fold_left (spec_finalize_step HashBytes f) (seq k m)
    (Some (treeHash HashBytes k (content (bitSet (counter f)) chunk k)))
  = Some (treeHash HashBytes 8 (content (bitSet (counter f)) chunk 8)).
Proof.
  intros Hlen Hslots. induction m as [|m IH]; intros k Hk Hne.
  - replace k with 8%nat by lia. reflexivity.
  - cbn [seq fold_left spec_finalize_step].
    assert (Hstep :
      (if bitSet (counter f) k
       then match nth_error (subtrees f) k with
            | Some t =>
                Some (HashBytes
                        (spec_node t
                           (treeHash HashBytes k
                              (content (bitSet (counter f)) chunk k))))
            | None => None
            end
       else Some (treeHash HashBytes k
                    (content (bitSet (counter f)) chunk k)))
      = Some (treeHash HashBytes (S k)
                (content (bitSet (counter f)) chunk (S k)))).
    { cbn [content]. destruct (bitSet (counter f) k) eqn:E.
      - destruct (Hslots k ltac:(lia) E) as [H1 H2]. rewrite H2.
        now rewrite treeHash_join.
      - cbn [app]. f_equal. symmetry. apply treeHash_lift; [|lia].
        apply Nat.lt_le_incl, content_length.
        intros i Hi. apply Hslots. lia. }
    rewrite Hstep. apply IH; [lia|].
    cbn [content]. destruct (bitSet (counter f) k);
      [|assumption].
    destruct (chunk k) eqn:Ec; [|discriminate].
    cbn [app]. assumption.
Qed.

Lemma spec_finalize_holds f hs :
  holds HashBytes f hs -> hs <> [] -> (length hs <= 255)%nat ->
  spec_finalize HashBytes f = Some (treeHash HashBytes 8 hs).
Proof.
  intros (Hlen & Hc & chunk & Hslots & Hcont) Hne Hl.
  assert (Hpos : 0 < counter f).
  { destruct hs; [congruence|]. cbn [length] in Hc. lia. }
  destruct (counter_lowest (counter f) Hpos ltac:(lia)) as (Hz & Hset & Hlow).
  set (z := bits.TrailingZeros8 (counter f)) in *.
  unfold spec_finalize. fold z.
  destruct (Hslots z Hz Hset) as [Hcz Hnz]. rewrite Hnz, Hlen.
  assert (Hcs : content (bitSet (counter f)) chunk (S z) = chunk z).
  { cbn [content]. rewrite Hset, content_nil by assumption.
    apply app_nil_r. }
  rewrite <- (treeHash_lift (S z) z) by lia.
  rewrite <- Hcs.
  rewrite (finalize_fold f chunk Hlen Hslots); [now rewrite Hcont|lia|].
  rewrite Hcs. intros E. rewrite E in Hcz. cbn [length] in Hcz.
  pose proof (pow2_nat_pos z). lia.
Qed.

Lemma holds_empty :
  holds HashBytes {| subtrees := repeat (zero_bytes 32) 8; counter := 0 |} [].
Proof.
  unfold holds. cbn [subtrees counter length].
  split; [reflexivity|]. split; [reflexivity|].
  exists (fun _ => []). split.
  - intros i _ H. now rewrite bitSet_0 in H.
  - apply content_nil. intros i _. apply bitSet_0.
Qed.

Lemma spec_root_treeHash leafData :
  leafData <> [] -> (length leafData <= 255)%nat ->
  spec_root HashBytes leafData
  = Some (treeHash HashBytes 8 (map HashBytes leafData)).
Proof.
  intros Hne Hl. unfold spec_root.
  destruct (fold_spec_add_holds (map HashBytes leafData) _ [] holds_empty)
    as (f & E & Hf).
  { cbn [app]. now rewrite length_map. }
  rewrite E. cbn [app] in Hf.
  apply spec_finalize_holds; [assumption| |now rewrite length_map].
  destruct leafData; [congruence|discriminate].
Qed.

End TreeHashProof.

(** ** The address of a policy *)

Lemma treeHash_length HashBytes :
  (forall x, length (HashBytes x) = 32%nat) ->
  forall k l, (2 <= length l)%nat -> (length l <= 2 ^ k)%nat ->
  length (treeHash HashBytes k l) = 32%nat.
Proof.
  intros Hlen. induction k as [|k IH]; intros l H2 Hk.
  - cbn in Hk. lia.
  - cbn [treeHash]. destruct (Nat.leb_spec (length l) (2 ^ k)).
    + now apply IH.
    + apply Hlen.
Qed.

(** C4. For unlock conditions of at most 253 keys the address is the
    Merkle root of section 4.3 over the leaves of section 4.3, 32 bytes,
    whatever the hasher of the pool does: no further hash, no prefix. For
    the other three variants it is the sum of the hasher after it was
    reset and given the string "sia/address" and then the encoding of the
    policy. With 254 keys the root of section 4.3 over the 256 leaves
    still is a digest of 32 bytes, but [Address] panics and returns
    nothing. *)
Theorem Address_derivation :
  forall HashBytes : list byte -> Hash256,
  (forall x, length (HashBytes x) = 32%nat) ->
  forall (Hasher : Type) (Reset : Hasher -> Hasher)
         (WriteString : text -> Hasher -> Hasher)
         (EncodeTo : SpendPolicy -> Hasher -> Hasher)
         (Sum : Hasher -> Hash256) (h : Hasher),
  let Address :=
    SpendPolicy_Address HashBytes Hasher Reset WriteString EncodeTo Sum h in
  let hashed p :=
    Some (Sum (EncodeTo p (WriteString (lit "sia/address") (Reset h)))) in
  let merkle_root uc := treeHash HashBytes 8 (map HashBytes (spec_leaves uc)) in
  (forall uc, Forall (fun pk => length pk = 32%nat) (PublicKeys uc) ->
     (length (PublicKeys uc) <= 253)%nat ->
     Address (PolicyUnlockConditions uc) = Some (merkle_root uc)
     /\ length (merkle_root uc) = 32%nat)
  /\ (forall height, Address (PolicyAbove height) = hashed (PolicyAbove height))
  /\ (forall pk, Address (PolicyPublicKey pk) = hashed (PolicyPublicKey pk))
  /\ (forall n Of,
        Address (PolicyThreshold n Of) = hashed (PolicyThreshold n Of))
  /\ (wf_policy (PolicyUnlockConditions uc_254_keys) = true
      /\ length (merkle_root uc_254_keys) = 32%nat
      /\ Address (PolicyUnlockConditions uc_254_keys) = None).
Proof.
  intros HashBytes Hlen Hasher Reset WriteString EncodeTo Sum h
    Address hashed merkle_root.
  assert (Hleaves : forall uc,
            length (map HashBytes (spec_leaves uc))
            = (length (PublicKeys uc) + 2)%nat).
  { intros uc. unfold spec_leaves. rewrite length_map. cbn [length].
    rewrite length_app, length_map. cbn [length]. lia. }
  split; [|split; [|split; [|split]]]; try (intros; reflexivity).
  - intros uc Hk Hn. unfold Address, merkle_root.
    cbn [SpendPolicy_Address]. split.
    + rewrite (root_refines_spec HashBytes Hlen uc Hk).
      apply spec_root_treeHash; [discriminate|].
      specialize (Hleaves uc). rewrite length_map in Hleaves. lia.
    + apply (treeHash_length HashBytes Hlen); rewrite Hleaves;
        [lia|cbn [Nat.pow Nat.mul Nat.add]; lia].
  - split; [vm_compute; reflexivity|]. split.
    + unfold merkle_root.
      apply (treeHash_length HashBytes Hlen); rewrite Hleaves;
        unfold uc_254_keys; cbn [PublicKeys]; rewrite repeat_length;
        [lia|cbn [Nat.pow Nat.mul Nat.add]; lia].
    + unfold Address. cbn [SpendPolicy_Address]. apply root_panics.
      unfold uc_254_keys. cbn [PublicKeys]. rewrite repeat_length. lia.
Qed.

Lemma mix_hash_length x : length (mix_hash x) = 32%nat.
Proof. unfold mix_hash. now rewrite length_map, length_seq. Qed.

Lemma Address_derivation_witness :
  let Address :=
    SpendPolicy_Address mix_hash (list byte) (fun _ => [])
      (fun t st => st ++ bytes_of_string t)
      (fun p st => st ++ bytes_of_string (SpendPolicy_String p))
      mix_hash [x00] in
  (Address (PolicyUnlockConditions sample_uc)
   = Some (treeHash mix_hash 8 (map mix_hash (spec_leaves sample_uc)))
   /\ length (treeHash mix_hash 8 (map mix_hash (spec_leaves sample_uc)))
      = 32%nat)
  /\ Address (PolicyAbove 5)
     = Some (mix_hash (bytes_of_string (lit "sia/address")
                       ++ bytes_of_string (lit "above(5)"))).
Proof.
  split.
  - apply (proj1 (Address_derivation mix_hash mix_hash_length (list byte)
                    (fun _ => []) (fun t st => st ++ bytes_of_string t)
                    (fun p st => st ++ bytes_of_string (SpendPolicy_String p))
                    mix_hash [x00]) sample_uc).
    + repeat constructor.
    + cbn. lia.
  - apply (proj1 (proj2 (Address_derivation mix_hash mix_hash_length
                           (list byte) (fun _ => [])
                           (fun t st => st ++ bytes_of_string t)
                           (fun p st =>
                              st ++ bytes_of_string (SpendPolicy_String p))
                           mix_hash [x00])) 5).
Defined.

(** X15. For up to 253 public keys of 32 bytes, [root] returns the Merkle
    tree hash of the leaf digests in the order timelock, keys, signature
    count: a list of more than one digest is split at the largest power of
    two below its length, and the hash of the left part and the hash of
    the right part are joined by the node encoding. With three leaves
    that is node(node(a, b), c), and with five it is
    node(node(node(a, b), node(c, d)), e). *)
Theorem root_is_merkle_tree_hash :
  forall HashBytes : list byte -> Hash256,
  (forall x, length (HashBytes x) = 32%nat) ->
  forall uc,
  Forall (fun pk => length pk = 32%nat) (PublicKeys uc) ->
  (length (PublicKeys uc) <= 253)%nat ->
  let node l r := HashBytes (spec_node l r) in
  root HashBytes uc
  = Some (treeHash HashBytes 8 (map HashBytes (spec_leaves uc)))
  /\ (forall a b c,
        treeHash HashBytes 8 [a; b; c] = node (node a b) c)
  /\ (forall a b c d e,
        treeHash HashBytes 8 [a; b; c; d; e]
        = node (node (node a b) (node c d)) e).
Proof.
  intros HashBytes Hlen uc Hk Hn node. split; [|split; reflexivity].
  rewrite (root_refines_spec HashBytes Hlen uc Hk).
  apply spec_root_treeHash.
  - discriminate.
  - unfold spec_leaves. cbn [length]. rewrite length_app, length_map.
    cbn [length]. lia.
Qed.

Lemma root_is_merkle_tree_hash_witness :
  root sample_hash sample_uc
  = Some (treeHash sample_hash 8 (map sample_hash (spec_leaves sample_uc))).
Proof.
  apply (root_is_merkle_tree_hash sample_hash sample_hash_length sample_uc).
  - repeat constructor.
  - cbn. lia.
Defined.

(** ** When the legacy root exists *)

Section AddressTotal.

Variable HashBytes : list byte -> Hash256.
Variable Hasher : Type.
Variable Reset : Hasher -> Hasher.
Variable WriteString : text -> Hasher -> Hasher.
Variable EncodeTo : SpendPolicy -> Hasher -> Hasher.
Variable Sum : Hasher -> Hash256.

(** X16. The legacy root, and with it the address of an
    unlock-conditions policy, exists for exactly the key lists of at most
    253 keys, whatever the keys are (their length is not checked): with
    254 keys or more the accumulator panics. *)
Theorem legacy_root_exists_iff : forall h uc,
  (root HashBytes uc = None <-> (254 <= length (PublicKeys uc))%nat)
  /\ (SpendPolicy_Address HashBytes Hasher Reset WriteString EncodeTo Sum h
        (PolicyUnlockConditions uc) = None
      <-> (254 <= length (PublicKeys uc))%nat).
Proof.
  intros h uc.
  assert (H : root HashBytes uc = None
              <-> (254 <= length (PublicKeys uc))%nat).
  { split.
    - intros E.
      destruct (Nat.le_gt_cases 254 (length (PublicKeys uc))) as [|Hlt];
        [assumption|].
      destruct (root_ok HashBytes uc) as [r Hr]; [lia|]. congruence.
    - apply root_panics. }
  split; exact H.
Qed.

End AddressTotal.

(** ** Sessions start with a sane configuration only *)

Lemma VerifyConfig_sane c :
  smux.VerifyConfig c = None
  <-> (smux.KeepAliveInterval c <> 0
       /\ smux.KeepAliveInterval c <= smux.KeepAliveTimeout c
       /\ 0 < smux.MaxFrameSize c <= 65535
       /\ 0 < smux.MaxReceiveBuffer c)%Z.
Proof.
  unfold smux.VerifyConfig.
  destruct (Z.eqb_spec (smux.KeepAliveInterval c) 0);
    [split; [discriminate|intros (Hs & _); contradiction]|].
  destruct (Z.ltb_spec (smux.KeepAliveTimeout c) (smux.KeepAliveInterval c));
    [split; [discriminate|intros (_ & Hs & _); lia]|].
  destruct (Z.leb_spec (smux.MaxFrameSize c) 0);
    [split; [discriminate|intros (_ & _ & Hs & _); lia]|].
  destruct (Z.ltb_spec 65535 (smux.MaxFrameSize c));
    [split; [discriminate|intros (_ & _ & Hs & _); lia]|].
  destruct (Z.leb_spec (smux.MaxReceiveBuffer c) 0);
    [split; [discriminate|intros (_ & _ & _ & Hs); lia]|].
  split; [intros _; repeat split; lia|reflexivity].
Qed.

(** X17. [Server] and [Client] of the [smux] package start a session
    with exactly the configurations [VerifyConfig] accepts, a [nil]
    configuration standing for [DefaultConfig], which is accepted. A
    configuration is accepted when its keep-alive interval is not zero
    (a negative one passes) and not above the keep-alive timeout, its
    frame size is between 1 and 65535 and its receive buffer is positive;
    otherwise both functions return the error of [VerifyConfig] and no
    session. *)
Theorem smux_sessions_need_sane_config :
  forall (Conn Session : Type)
         (newSession : smux.Config -> Conn -> bool -> Session)
         (conn : Conn) (config : option smux.Config),
  let c :=
    match config with
    | None => smux.DefaultConfig
    | Some c => c
    end in
  let sane :=
    (smux.KeepAliveInterval c <> 0
     /\ smux.KeepAliveInterval c <= smux.KeepAliveTimeout c
     /\ 0 < smux.MaxFrameSize c <= 65535
     /\ 0 < smux.MaxReceiveBuffer c)%Z in
  (sane ->
   smux.Server Conn Session newSession conn config
   = (Some (newSession c conn false), None)
   /\ smux.Client Conn Session newSession conn config
      = (Some (newSession c conn true), None))
  /\ (~ sane ->
      exists e,
        smux.VerifyConfig c = Some e
        /\ smux.Server Conn Session newSession conn config = (None, Some e)
        /\ smux.Client Conn Session newSession conn config = (None, Some e))
  /\ (config = None -> sane).
Proof.
  intros Conn Session newSession conn config c sane.
  pose proof (VerifyConfig_sane c) as Hs. fold sane in Hs.
  unfold smux.Server, smux.Client. fold c.
  split; [|split].
  - intros H. apply Hs in H. now rewrite H.
  - intros H. destruct (smux.VerifyConfig c) as [e|] eqn:E.
    + exists e. auto.
    + exfalso. apply H, Hs. reflexivity.
  - intros ->. unfold sane, c. cbn. lia.
Qed.

(** The cases of [TestConfig]: each changed configuration is rejected, and
    neither [Server] nor [Client] starts with the last one. *)
Lemma TestConfig_cases :
  forall (Conn Session : Type)
         (newSession : smux.Config -> Conn -> bool -> Session) (conn : Conn),
  let set_interval v c :=
    {| smux.KeepAliveInterval := v;
       smux.KeepAliveTimeout := smux.KeepAliveTimeout c;
       smux.MaxFrameSize := smux.MaxFrameSize c;
       smux.MaxReceiveBuffer := smux.MaxReceiveBuffer c;
       smux.ReadTimeout := smux.ReadTimeout c;
       smux.WriteTimeout := smux.WriteTimeout c |} in
  let set_timeout v c :=
    {| smux.KeepAliveInterval := smux.KeepAliveInterval c;
       smux.KeepAliveTimeout := v;
       smux.MaxFrameSize := smux.MaxFrameSize c;
       smux.MaxReceiveBuffer := smux.MaxReceiveBuffer c;
       smux.ReadTimeout := smux.ReadTimeout c;
       smux.WriteTimeout := smux.WriteTimeout c |} in
  let set_frame v c :=
    {| smux.KeepAliveInterval := smux.KeepAliveInterval c;
       smux.KeepAliveTimeout := smux.KeepAliveTimeout c;
       smux.MaxFrameSize := v;
       smux.MaxReceiveBuffer := smux.MaxReceiveBuffer c;
       smux.ReadTimeout := smux.ReadTimeout c;
       smux.WriteTimeout := smux.WriteTimeout c |} in
  let set_buffer v c :=
    {| smux.KeepAliveInterval := smux.KeepAliveInterval c;
       smux.KeepAliveTimeout := smux.KeepAliveTimeout c;
       smux.MaxFrameSize := smux.MaxFrameSize c;
       smux.MaxReceiveBuffer := v;
       smux.ReadTimeout := smux.ReadTimeout c;
       smux.WriteTimeout := smux.WriteTimeout c |} in
  smux.VerifyConfig smux.DefaultConfig = None
  /\ smux.VerifyConfig (set_interval 0%Z smux.DefaultConfig) <> None
  /\ smux.VerifyConfig
       (set_timeout 5%Z (set_interval 10%Z smux.DefaultConfig)) <> None
  /\ smux.VerifyConfig (set_frame 0%Z smux.DefaultConfig) <> None
  /\ smux.VerifyConfig (set_frame 65536%Z smux.DefaultConfig) <> None
  /\ smux.VerifyConfig (set_buffer 0%Z smux.DefaultConfig) <> None
  /\ snd (smux.Server Conn Session newSession conn
            (Some (set_buffer 0%Z smux.DefaultConfig))) <> None
  /\ snd (smux.Client Conn Session newSession conn
            (Some (set_buffer 0%Z smux.DefaultConfig))) <> None.
Proof.
  intros. split; [reflexivity|]. repeat split; discriminate.
Qed.
